(** * Element indexer and annotation renderer of the browsing agent

    A shallow embedding of the page scripts of the repository, together
    with the part of the DOM they touch:
    - the element indexer, which scans the document for visible
      interactive elements, numbers them and leaves marker attributes
      behind, in its two variants: the basic one ([src/unnamed/part_001])
      and the rich one ([src/unnamed/part_002]);
    - the annotation renderer, which draws a rectangle and a numeric label
      over marked elements: the one in use ([src/unnamed/part_000]) and
      the earlier one
      ([src/agent/browser/utils/dom_utils/draw_bounding_boxes.js]);
    - the notebook that prepares the task list of the benchmark
      ([src/eval/webvoyager/benchmark/clean_webvoyager_tasks.ipynb]).

    The scripts are anonymous functions; the indexer is called [scan] and
    the renderer [draw] here, as in the specification. *)

From Stdlib Require Import Ascii ZArith QArith Qround Lia.
From stdpp Require Import base option list gmap strings pretty.

Open Scope Z_scope.
Open Scope nat_scope.

(** ** JavaScript strings

    A string is a sequence of code units; the code units modelled here are
    the 256 values of [ascii] (the Latin-1 range), which is enough for the
    marker strings, the tag names and the attribute names of the scripts. *)

Module JS.

(** The characters matched by the regular expression class [\s] and
    stripped by [String.prototype.trim], within the Latin-1 range. *)
Definition is_space (c : ascii) : bool :=
  match c with
  | "009" | "010" | "011" | "012" | "013" | " " | "160" => true
  | _ => false
  end%char.

Definition is_newline (c : ascii) : bool :=
  match c with "010"%char => true | _ => false end.

Fixpoint length (s : string) : nat :=
  match s with
  | EmptyString => 0
  | String _ r => S (length r)
  end.

Fixpoint map_chars (f : ascii → ascii) (s : string) : string :=
  match s with
  | EmptyString => EmptyString
  | String c r => String (f c) (map_chars f r)
  end.

(** [s.replace(/\n/g, " ")] *)
Definition replace_newlines (s : string) : string :=
  map_chars (λ c, if is_newline c then " "%char else c) s.

(** [s.replace(/\\n/g, " ")]: the regular expression of the rich
    indexer's step 3.5 matches a backslash followed by the letter n. *)
Fixpoint replace_backslash_n (s : string) : string :=
  match s with
  | String "\"%char (String "n"%char r) => String " "%char (replace_backslash_n r)
  | String c r => String c (replace_backslash_n r)
  | EmptyString => EmptyString
  end.

Fixpoint trim_start (s : string) : string :=
  match s with
  | String c r => if is_space c then trim_start r else s
  | EmptyString => EmptyString
  end.

Definition trim_end (s : string) : string :=
  String.rev (trim_start (String.rev s)).

(** [s.trim()] *)
Definition trim (s : string) : string := trim_end (trim_start s).

(** [s.replace(/\s+/g, " ")]: [in_run] tells that the previous
    character was a space character that has been replaced already. *)
Fixpoint collapse_from (in_run : bool) (s : string) : string :=
  match s with
  | EmptyString => EmptyString
  | String c r =>
      if is_space c
      then (if in_run then collapse_from true r
            else String " "%char (collapse_from true r))
      else String c (collapse_from false r)
  end.

Definition collapse_spaces (s : string) : string := collapse_from false s.

(** [s.substring(0, n)] *)
Fixpoint substring0 (n : nat) (s : string) : string :=
  match n, s with
  | S m, String c r => String c (substring0 m r)
  | _, _ => EmptyString
  end.

Fixpoint starts_with (p s : string) : bool :=
  match p, s with
  | EmptyString, _ => true
  | String a p', String b s' => bool_decide (a = b) && starts_with p' s'
  | String _ _, EmptyString => false
  end.

Fixpoint drop (n : nat) (s : string) : string :=
  match n, s with
  | S m, String _ r => drop m r
  | _, _ => s
  end.

(** [s.replace(p, "")] with a string pattern: the first occurrence of
    [p] is removed. *)
Fixpoint remove_first (p s : string) : string :=
  if starts_with p s then drop (length p) s
  else match s with
       | EmptyString => EmptyString
       | String c r => String c (remove_first p r)
       end.

(** A number that is an integer or NaN, which is what [parseInt]
    returns and what a handle is. *)
Inductive int : Type :=
| Int (z : Z)
| NaN.

Global Instance int_eq_dec : EqDecision int.
Proof. solve_decision. Defined.

(** The number as a template literal prints it. *)
Definition to_string (i : int) : string :=
  match i with
  | Int z => pretty z
  | NaN => "NaN"
  end.

Definition digit_value (radix : Z) (c : ascii) : option Z :=
  let n := Z.of_N (Ascii.N_of_ascii c) in
  let v :=
    if (48 <=? n)%Z && (n <=? 57)%Z then Some (n - 48)%Z
    else if (97 <=? n)%Z && (n <=? 122)%Z then Some (n - 87)%Z
    else if (65 <=? n)%Z && (n <=? 90)%Z then Some (n - 55)%Z
    else None in
  match v with
  | Some k => if (k <? radix)%Z then Some k else None
  | None => None
  end.

(** The longest prefix of digits, read in the radix; [acc] is [None]
    until a digit has been read. *)
Fixpoint parse_digits (radix : Z) (acc : option Z) (s : string) : option Z :=
  match s with
  | EmptyString => acc
  | String c r =>
      match digit_value radix c with
      | Some k => parse_digits radix (Some (from_option id 0%Z acc * radix + k)%Z) r
      | None => acc
      end
  end.

Definition parse_unsigned (s : string) : option Z :=
  match s with
  | String "0"%char (String "x"%char r)
  | String "0"%char (String "X"%char r) => parse_digits 16 None r
  | _ => parse_digits 10 None s
  end.

(** [parseInt(s)] without a radix argument. *)
Definition parseInt (s : string) : int :=
  let t := trim_start s in
  let '(neg, u) :=
    match t with
    | String "-"%char r => (true, r)
    | String "+"%char r => (false, r)
    | _ => (false, t)
    end in
  match parse_unsigned u with
  | Some z => Int (if neg then - z else z)%Z
  | None => NaN
  end.

(** [a || b] on strings: the empty string is falsy. *)
Definition or_else (a b : string) : string :=
  match a with EmptyString => b | _ => a end.

End JS.

(** ** The document tree

    An element carries what the scripts read from it: its lower-cased tag
    name, its attributes, the three computed style properties that are
    consulted, its layout box, and its text.  Style, layout and text are
    results of the browser's layout engine; they are taken as given, and
    writing a marker attribute does not change them.  Only element nodes
    are kept in the tree: the text of an element is its [textContent]. *)

Record DOMRect := {
  rect_left : Q;
  rect_top : Q;
  rect_width : Q;
  rect_height : Q;
}.

Definition rect_bottom (r : DOMRect) : Q := (rect_top r + rect_height r)%Q.
Definition rect_right (r : DOMRect) : Q := (rect_left r + rect_width r)%Q.

(** The value of a declaration of [element.style]: a length in pixels
    (written with a template literal in the renderer) or a keyword. *)
Inductive css_value : Type :=
| Px (q : Q)
| Keyword (s : string).

Record ElementData := {
  tagName : string;                    (* [tagName.toLowerCase()] *)
  attributes : gmap string string;
  display : string;                    (* computed style *)
  visibility : string;
  pointerEvents : string;
  offsetWidth : Z;
  offsetHeight : Z;
  boundingClientRect : DOMRect;
  input_type : string;                 (* the [type] property *)
  textContent : string;
  innerText : string;
  style : list (string * css_value);   (* declarations of [element.style] *)
}.

#[local] Unset Elimination Schemes.
Inductive Element : Type :=
| Elem (data : ElementData) (children : list Element).
#[local] Set Elimination Schemes.

Definition el_data (e : Element) : ElementData :=
  match e with Elem data _ => data end.

Definition el_children (e : Element) : list Element :=
  match e with Elem _ children => children end.

(** An element is named by its position: the index among its siblings,
    followed by the name of its parent.  The children of the document node
    have a one-element name; the empty list names no element and stands
    for [null]. *)
Definition node : Type := list nat.

Record Document := {
  roots : list Element;                (* the element children of the document node *)
  innerWidth : Q;
  innerHeight : Q;
  clientWidth : Q;                     (* of [document.documentElement] *)
  clientHeight : Q;
  scrollX : Q;
  scrollY : Q;
  elementFromPoint : Q → Q → node;         (* the empty list for [null] *)
}.

Definition with_roots (d : Document) (f : list Element) : Document :=
  {| roots := f;
     innerWidth := innerWidth d; innerHeight := innerHeight d;
     clientWidth := clientWidth d; clientHeight := clientHeight d;
     scrollX := scrollX d; scrollY := scrollY d;
     elementFromPoint := elementFromPoint d |}.

(** *** Walking the tree by a path from the document node *)

Fixpoint elem_lookup (p : list nat) (e : Element) : option Element :=
  match p with
  | [] => Some e
  | i :: q =>
      match el_children e !! i with
      | Some c => elem_lookup q c
      | None => None
      end
  end.

Definition forest_lookup (p : list nat) (f : list Element) : option Element :=
  match p with
  | [] => None
  | i :: q =>
      match f !! i with
      | Some c => elem_lookup q c
      | None => None
      end
  end.

Fixpoint elem_alter (g : Element → Element) (p : list nat) (e : Element) : Element :=
  match p with
  | [] => g e
  | i :: q => Elem (el_data e) (alter (elem_alter g q) i (el_children e))
  end.

Definition forest_alter (g : Element → Element) (p : list nat)
    (f : list Element) : list Element :=
  match p with
  | [] => f
  | i :: q => alter (elem_alter g q) i f
  end.

Definition on_data (h : ElementData → ElementData) (e : Element) : Element :=
  Elem (h (el_data e)) (el_children e).

Definition add_child (new : Element) (e : Element) : Element :=
  Elem (el_data e) (el_children e ++ [new]).

Fixpoint elem_map (g : ElementData → ElementData) (e : Element) : Element :=
  match e with
  | Elem data children => Elem (g data) (elem_map g <$> children)
  end.

Definition forest_map (g : ElementData → ElementData) (f : list Element) :
    list Element :=
  elem_map g <$> f.

Section children_paths.
Variable rec : Element → list (list nat).

Fixpoint children_paths (i : nat) (cs : list Element) : list (list nat) :=
  match cs with
  | [] => []
  | c :: r => (cons i <$> rec c) ++ children_paths (S i) r
  end.
End children_paths.

(** The paths of an element's subtree in document order (preorder),
    relative to the element. *)
Fixpoint elem_paths (e : Element) : list (list nat) :=
  match e with
  | Elem _ children => [] :: children_paths elem_paths 0 children
  end.

Definition forest_paths (f : list Element) : list (list nat) :=
  children_paths elem_paths 0 f.

(** *** The DOM interface used by the scripts *)

Definition empty_rect : DOMRect :=
  {| rect_left := 0; rect_top := 0; rect_width := 0; rect_height := 0 |}.

Definition no_data : ElementData :=
  {| tagName := ""; attributes := ∅; display := ""; visibility := "";
     pointerEvents := ""; offsetWidth := 0; offsetHeight := 0;
     boundingClientRect := empty_rect; input_type := ""; textContent := "";
     innerText := ""; style := [] |}.

Definition getElement (d : Document) (n : node) : option Element :=
  forest_lookup (rev n) (roots d).

(** The properties of an element; a name that denotes no element of the
    document reads as an element without properties. *)
Definition prop (d : Document) (n : node) : ElementData :=
  from_option el_data no_data (getElement d n).

(** Every element of the document, in document order. *)
Definition all_elements (d : Document) : list node :=
  @rev nat <$> forest_paths (roots d).

(** [document.querySelectorAll] and [document.querySelector], for a
    selector that tests the element alone. *)
Definition querySelectorAll (d : Document) (sel : ElementData → bool) : list node :=
  List.filter (λ n, sel (prop d n)) (all_elements d).

Definition querySelector (d : Document) (sel : ElementData → bool) : option node :=
  List.find (λ n, sel (prop d n)) (all_elements d).

Definition getAttribute (d : Document) (n : node) (name : string) : option string :=
  attributes (prop d n) !! name.

Definition hasAttribute (d : Document) (n : node) (name : string) : bool :=
  bool_decide (is_Some (getAttribute d n name)).

Definition set_attributes (g : gmap string string → gmap string string)
    (x : ElementData) : ElementData :=
  {| tagName := tagName x; attributes := g (attributes x);
     display := display x; visibility := visibility x;
     pointerEvents := pointerEvents x; offsetWidth := offsetWidth x;
     offsetHeight := offsetHeight x;
     boundingClientRect := boundingClientRect x;
     input_type := input_type x; textContent := textContent x;
     innerText := innerText x; style := style x |}.

Definition setAttribute (d : Document) (n : node) (name value : string) : Document :=
  with_roots d (forest_alter (on_data (set_attributes (insert name value))) (rev n) (roots d)).

Definition removeAttribute (d : Document) (n : node) (name : string) : Document :=
  with_roots d (forest_alter (on_data (set_attributes (delete name))) (rev n) (roots d)).

(** [element.id]: the [id] attribute, or the empty string. *)
Definition el_id (d : Document) (n : node) : string :=
  default "" (getAttribute d n "id").

(** [a.contains(b)]: [b] is [a] or a descendant of [a]. *)
Definition contains (a b : node) : bool :=
  bool_decide (drop (length b - length a) b = a).

(** [element.parentElement], with the empty list for [null]. *)
Definition parentElement (n : node) : node := tail n.

Definition nextElementSibling (d : Document) (n : node) : option node :=
  match n with
  | [] => None
  | i :: p =>
      match getElement d (S i :: p) with
      | Some _ => Some (S i :: p)
      | None => None
      end
  end.

Definition previousElementSibling (d : Document) (n : node) : option node :=
  match n with
  | S i :: p =>
      match getElement d (i :: p) with
      | Some _ => Some (i :: p)
      | None => None
      end
  | _ => None
  end.

(** [parent.getElementsByTagName(tag)]: the proper descendants of
    [parent] with that tag, in document order. *)
Definition getElementsByTagName (d : Document) (parent : node) (tag : string) : list node :=
  List.filter
    (λ n, contains parent n && negb (bool_decide (n = parent))
          && bool_decide (tagName (prop d n) = tag))
    (all_elements d).

(** The loop [x = start; while (x) { if (P x) return x; x = x.parentElement }]:
    the first of [start] and its ancestors that satisfies [P]. *)
Fixpoint find_up (P : node → bool) (x : node) : option node :=
  match x with
  | [] => None
  | _ :: parent => if P x then Some x else find_up P parent
  end.

Definition dquote : string := String "034"%char EmptyString.

(** ** The element indexer

    The two variants of the indexer share their helper functions
    ([isHiddenByAncestors], [getParentWithLabel], [isElementVisible]) and
    differ in the candidate selector, in the description they build and
    in where the primary marker of a small input goes. *)

Inductive variant : Type :=
| Basic      (* four attributes, text from [textContent] *)
| Rich.      (* the long attribute list, text from [innerText] *)

Definition primary_marker : string := "data-gwa-id".
Definition bbox_marker : string := "data-bbox-gwa-id".

(** [`gwa-element-${visibleIndex}`] *)
Definition marker_value (visibleIndex : nat) : string :=
  "gwa-element-" +:+ pretty visibleIndex.

Definition has_attribute (name : string) (x : ElementData) : bool :=
  bool_decide (is_Some (attributes x !! name)).

Definition remove_markers (name : string) (d : Document) : Document :=
  fold_left (λ d el, removeAttribute d el name)
            (querySelectorAll d (has_attribute name)) d.

(** The first two statements of the indexer. *)
Definition reset (d : Document) : Document :=
  remove_markers bbox_marker (remove_markers primary_marker d).

Definition candidate_tags : list string :=
  ["a"; "button"; "input"; "textarea"; "select"].

Definition candidate_roles (v : variant) : list string :=
  match v with
  | Basic => ["button"; "combobox"; "listbox"; "menuitem"; "tab"; "link"]
  | Rich => ["button"; "combobox"; "option"; "menuitem"; "tab"; "link"]
  end.

Definition is_candidate (v : variant) (x : ElementData) : bool :=
  bool_decide (tagName x ∈ candidate_tags)
  || match attributes x !! "role" with
     | Some r => bool_decide (r ∈ candidate_roles v)
     | None => false
     end.

Definition candidates (v : variant) (d : Document) : list node :=
  querySelectorAll d (is_candidate v).

(** [isHiddenByAncestors], lines 17-26 of both indexers: the loop runs
    over the element and its ancestors, which is a recursion over the
    name of the element. *)
Fixpoint isHiddenByAncestors (d : Document) (element : node) : bool :=
  match element with
  | [] => false
  | _ :: parent =>
      if bool_decide (display (prop d element) = "none")
         || bool_decide (visibility (prop d element) = "hidden")
      then true
      else isHiddenByAncestors d parent
  end.

(** The selector [label[for="<id>"]]; the id is taken as one that the
    selector syntax passes through unchanged. *)
Definition label_for (id : string) (x : ElementData) : bool :=
  bool_decide (tagName x = "label")
  && bool_decide (attributes x !! "for" = Some id).

(** [getParentWithLabel], lines 28-66 of both indexers.  [by_for] is the
    first part, the search for the parent that contains the label
    associated by [for]; when it finds nothing the second part looks for a
    parent that is a label or contains a label of the element. *)
Definition getParentWithLabel (d : Document) (element : node) : node :=
  let by_for :=
    if bool_decide (el_id d element ≠ "") then
      match querySelector d (label_for (el_id d element)) with
      | Some associatedLabel =>
          find_up (λ inputParent, contains inputParent associatedLabel)
                  (parentElement element)
      | None => None
      end
    else None in
  match by_for with
  | Some inputParent => inputParent
  | None =>
      let wraps parent :=
        bool_decide (tagName (prop d parent) = "label")
        || existsb (λ label,
                      bool_decide (getAttribute d label "for" = Some (el_id d element))
                      || contains label element)
                   (getElementsByTagName d parent "label") in
      match find_up wraps (parentElement element) with
      | Some parent => parent
      | None => element
      end
  end.

Definition is_toggle (x : ElementData) : bool :=
  bool_decide (tagName x = "input")
  && (bool_decide (input_type x = "radio") || bool_decide (input_type x = "checkbox")).

Definition isSmallFormElement (x : ElementData) : bool :=
  is_toggle x && (offsetWidth x <=? 1)%Z && (offsetHeight x <=? 1)%Z.

(** [window.innerHeight || document.documentElement.clientHeight] *)
Definition viewport_height (d : Document) : Q :=
  if Qeq_bool (innerHeight d) 0 then clientHeight d else innerHeight d.

Definition viewport_width (d : Document) : Q :=
  if Qeq_bool (innerWidth d) 0 then clientWidth d else innerWidth d.

Definition in_viewport (d : Document) (rect : DOMRect) : bool :=
  Qle_bool 0 (rect_top rect) && Qle_bool 0 (rect_left rect)
  && Qle_bool (rect_bottom rect) (viewport_height d)
  && Qle_bool (rect_right rect) (viewport_width d).

(** The element under the centre of the box. *)
Definition hit_test (d : Document) (rect : DOMRect) : node :=
  elementFromPoint d (rect_left rect + rect_width rect / 2)%Q
                     (rect_top rect + rect_height rect / 2)%Q.

(** [isElementVisible], lines 68-165 of both indexers; every [if] of the
    source with its [return] is one [if] here, in the same order. *)
Definition isElementVisible (d : Document) (element : node) : bool :=
  let x := prop d element in
  let rect := boundingClientRect x in
  if isHiddenByAncestors d element then false
  else if bool_decide (pointerEvents x = "none") then false
  else if negb (isSmallFormElement x)
          && ((offsetWidth x <=? 1)%Z || (offsetHeight x <=? 1)%Z
              || bool_decide (visibility x = "hidden")
              || bool_decide (display x = "none"))
  then false
  else if isSmallFormElement x
          && negb (bool_decide (getParentWithLabel d element = element))
          && (let parentRect := boundingClientRect (prop d (getParentWithLabel d element)) in
              Qle_bool (rect_width parentRect) 1 || Qle_bool (rect_height parentRect) 1)
  then false
  else
    let elementAtPoint := hit_test d rect in
    if is_toggle x
       && bool_decide (is_Some (find_up (λ currentElement,
            (bool_decide (tagName (prop d currentElement) = "label")
             && bool_decide (getAttribute d currentElement "for" = Some (el_id d element)))
            || contains currentElement element) elementAtPoint))
    then true
    else if bool_decide (elementAtPoint = [])
            || (negb (bool_decide (elementAtPoint = element))
                && negb (contains element elementAtPoint)
                && negb (contains elementAtPoint element))
    then false
    else if Qeq_bool (rect_width rect * rect_height rect) 0 then false
    else in_viewport d rect.

(** *** The description of an element *)

(** [s?.replace(/\n/g, " ").trim() || ""] *)
Definition clean_text (s : string) : string :=
  JS.or_else (JS.trim (JS.replace_newlines s)) "".

(** [` ${attr}="${attrValue}"`] *)
Definition attribute_text (attr attrValue : string) : string :=
  " " +:+ attr +:+ "=" +:+ dquote +:+ attrValue +:+ dquote.

Definition basic_attrs : list string :=
  ["aria-label"; "alt"; "placeholder"; "value"].

Definition rich_attrs : list string :=
  ["id"; "name"; "role"; "type"; "value"; "placeholder"; "title"; "alt"; "href";
   "checked"; "selected"; "disabled"; "readonly";
   "aria-label"; "aria-checked"; "aria-selected"; "aria-expanded";
   "aria-pressed"; "aria-disabled"; "aria-current"; "aria-haspopup"].

Definition boolean_attrs : list string :=
  ["checked"; "selected"; "disabled"; "readonly";
   "aria-checked"; "aria-selected"; "aria-expanded"; "aria-pressed";
   "aria-disabled"; "aria-current"].

Definition kept_when_empty : list string :=
  ["value"; "alt"; "placeholder"; "title"; "href"].

(** The body of the attribute loop of the basic indexer. *)
Definition add_attr_basic (x : ElementData) (simplified_html attr : string) : string :=
  match attributes x !! attr with
  | Some attrValue => simplified_html +:+ attribute_text attr attrValue
  | None => simplified_html
  end.

(** The value of an attribute as the rich indexer prints it: the literal
    true for an empty boolean attribute, and the first 47 characters and
    an ellipsis for a value of more than 50 characters. *)
Definition normalize_value (attr attrValue : string) : string :=
  if bool_decide (attrValue = "") && bool_decide (attr ∈ boolean_attrs)
  then "true" else attrValue.

Definition truncate_value (attrValue : string) : string :=
  if bool_decide (attrValue ≠ "") && (50 <? JS.length attrValue)
  then JS.substring0 47 attrValue +:+ "..."
  else attrValue.

(** The text the rich indexer's attribute loop appends for one attribute
    that is present with value [attrValue]. *)
Definition render_attr (attr attrValue : string) : string :=
  let attrValue := normalize_value attr attrValue in
  if bool_decide (attrValue ≠ "") || bool_decide (attr ∈ kept_when_empty)
  then attribute_text attr (truncate_value attrValue)
  else "".

Definition add_attr_rich (x : ElementData) (simplified_html attr : string) : string :=
  match attributes x !! attr with
  | Some attrValue => simplified_html +:+ render_attr attr attrValue
  | None => simplified_html
  end.

Definition is_span_sibling (d : Document) (sibling : option node) : bool :=
  match sibling with
  | Some s => bool_decide (tagName (prop d s) = "span")
  | None => false
  end.

(** Steps 1 to 3 of the search for the text of an input, which the two
    variants share; every step is taken only while the text is empty. *)
Definition label_text_1 (d : Document) (element : node) : string :=
  if bool_decide (el_id d element ≠ "") then
    match querySelector d (label_for (el_id d element)) with
    | Some associatedLabel => clean_text (textContent (prop d associatedLabel))
    | None => ""
    end
  else "".

Definition label_text_2 (d : Document) (element : node) (innerText : string) : string :=
  if bool_decide (innerText = "")
     && negb (bool_decide (parentElement element = []))
     && bool_decide (tagName (prop d (parentElement element)) = "label")
  then clean_text (textContent (prop d (parentElement element)))
  else innerText.

Definition label_text_3 (d : Document) (element : node) (innerText : string) : string :=
  if bool_decide (innerText = "") then
    if is_span_sibling d (nextElementSibling d element) then
      match nextElementSibling d element with
      | Some s => clean_text (textContent (prop d s))
      | None => innerText
      end
    else if is_span_sibling d (previousElementSibling d element) then
      match previousElementSibling d element with
      | Some s => clean_text (textContent (prop d s))
      | None => innerText
      end
    else innerText
  else innerText.

(** Step 4 of the basic indexer:
    [getAttribute("value") || getAttribute("placeholder") || ""]. *)
Definition label_text_4_basic (d : Document) (element : node) (innerText : string) : string :=
  if bool_decide (innerText = "") then
    JS.or_else (default "" (getAttribute d element "value"))
      (JS.or_else (default "" (getAttribute d element "placeholder")) "")
  else innerText.

(** Step 3.5 of the rich indexer: the next sibling whatever its tag. *)
Definition label_text_35_rich (d : Document) (element : node) (innerText : string) : string :=
  if bool_decide (innerText = "") then
    match nextElementSibling d element with
    | Some s =>
        JS.or_else (JS.trim (JS.replace_backslash_n (textContent (prop d s)))) ""
    | None => innerText
    end
  else innerText.

Definition inner_text (v : variant) (d : Document) (element : node) : string :=
  let x := prop d element in
  let innerText :=
    match v with
    | Basic => clean_text (textContent x)
    | Rich => innerText x
    end in
  if bool_decide (tagName x = "input") && bool_decide (innerText = "") then
    let innerText := label_text_3 d element (label_text_2 d element (label_text_1 d element)) in
    match v with
    | Basic => label_text_4_basic d element innerText
    | Rich => label_text_35_rich d element innerText
    end
  else innerText.

Definition simplified_html (v : variant) (d : Document) (element : node) : string :=
  let x := prop d element in
  let opening :=
    match v with
    | Basic => fold_left (add_attr_basic x) basic_attrs ("<" +:+ tagName x)
    | Rich => fold_left (add_attr_rich x) rich_attrs ("<" +:+ tagName x)
    end in
  JS.trim (JS.collapse_spaces
    (opening +:+ ">" +:+ inner_text v d element +:+ "</" +:+ tagName x +:+ ">")).

(** *** The numbering loop *)

Record ScanState := {
  doc : Document;
  element_simplified_htmls : gmap nat string;
  visibleIndex : nat;
}.

(** Where the primary marker goes: on the element, except that the rich
    indexer puts it on the parent with the label for an input whose box is
    narrower and lower than 5 pixels. *)
Definition primary_target (v : variant) (d : Document) (element : node) : node :=
  match v with
  | Basic => element
  | Rich =>
      let x := prop d element in
      let rect := boundingClientRect x in
      if bool_decide (tagName x = "input")
         && negb (Qle_bool 5 (rect_width rect)) && negb (Qle_bool 5 (rect_height rect))
      then getParentWithLabel d element
      else element
  end.

Definition is_form_control (x : ElementData) : bool :=
  bool_decide (tagName x = "input") || bool_decide (tagName x = "textarea")
  || bool_decide (tagName x = "select").

(** Where the bbox marker goes; [d] is the document after the primary
    marker has been written. *)
Definition bbox_target (d : Document) (element : node) : node :=
  if is_form_control (prop d element) then getParentWithLabel d element
  else element.

(** The body of [elements.forEach]. *)
Definition scan_step (v : variant) (st : ScanState) (element : node) : ScanState :=
  let d := doc st in
  if isElementVisible d element then
    let html := simplified_html v d element in
    let d1 := setAttribute d (primary_target v d element) primary_marker
                (marker_value (visibleIndex st)) in
    let d2 := setAttribute d1 (bbox_target d1 element) bbox_marker
                (marker_value (visibleIndex st)) in
    {| doc := d2;
       element_simplified_htmls := <[visibleIndex st := html]> (element_simplified_htmls st);
       visibleIndex := S (visibleIndex st) |}
  else st.

(** The indexer: the document it leaves behind and the map it returns. *)
Definition scan (v : variant) (d : Document) : Document * gmap nat string :=
  let d0 := reset d in
  let st := fold_left (scan_step v) (candidates v d0)
              {| doc := d0; element_simplified_htmls := ∅; visibleIndex := 0 |} in
  (doc st, element_simplified_htmls st).

(** ** The annotation renderer

    The renderer in use looks elements up by the bbox marker; the earlier
    renderer kept beside it has a single marker and plainer styling. *)

Inductive renderer : Type :=
| Current     (* looks up [data-bbox-gwa-id] *)
| Legacy.     (* looks up [data-gwa-id] *)

Definition lookup_marker (r : renderer) : string :=
  match r with
  | Current => bbox_marker
  | Legacy => primary_marker
  end.

(** [parseInt(id?.replace("gwa-element-", "") || "0")] *)
Definition parse_marker (id : option string) : JS.int :=
  JS.parseInt
    (JS.or_else
       (match id with
        | Some s => JS.remove_first "gwa-element-" s
        | None => ""
        end) "0").

(** The indices drawn when none are given. *)
Definition default_indices (r : renderer) (d : Document) : list JS.int :=
  List.map (λ el, parse_marker (getAttribute d el (lookup_marker r)))
           (querySelectorAll d (has_attribute primary_marker)).

(** The class selector [.c]. *)
Definition has_class (c : string) (x : ElementData) : bool :=
  bool_decide (c ∈ String.words (default "" (attributes x !! "class"))).

(** The tree without the subtrees whose root satisfies [sel]. *)
Fixpoint elem_prune (sel : ElementData → bool) (e : Element) : Element :=
  match e with
  | Elem data children =>
      Elem data (List.filter (λ c, negb (sel (el_data c)))
                             (elem_prune sel <$> children))
  end.

Definition forest_prune (sel : ElementData → bool) (f : list Element) : list Element :=
  List.filter (λ c, negb (sel (el_data c))) (elem_prune sel <$> f).

(** [removeElementsByClass]: every element of the snapshot
    [querySelectorAll(className)] is detached.  The elements of the
    snapshot are the roots of the subtrees that are gone afterwards; the
    model computes the remaining tree at once, a position being no stable
    name for an element while its earlier siblings are detached. *)
Definition removeElementsByClass (d : Document) (c : string) : Document :=
  with_roots d (forest_prune (has_class c) (roots d)).

(** [document.body]: the first [body] or [frameset] child of the [html]
    root element, or [null]. *)
Definition body (d : Document) : node :=
  match roots d with
  | html :: _ =>
      if bool_decide (tagName (el_data html) = "html") then
        match list_find (λ c, tagName (el_data c) = "body" ∨ tagName (el_data c) = "frameset")
                        (el_children html) with
        | Some (i, _) => [i; 0]
        | None => []
        end
      else []
  | [] => []
  end.

Definition appendChild (d : Document) (parent : node) (new : Element) : Document :=
  with_roots d (forest_alter (add_child new) (rev parent) (roots d)).

(** [document.body.appendChild(new)], which throws when there is no body. *)
Definition body_appendChild (d : Document) (new : Element) : option Document :=
  if bool_decide (body d = []) then None else Some (appendChild d (body d) new).

(** A node made by [document.createElement] and not yet laid out. *)
Definition createElement (tag className text : string)
    (declarations : list (string * css_value)) : Element :=
  Elem {| tagName := tag; attributes := {[ "class" := className ]};
          display := ""; visibility := ""; pointerEvents := "";
          offsetWidth := 0; offsetHeight := 0; boundingClientRect := empty_rect;
          input_type := ""; textContent := text; innerText := text;
          style := declarations |} [].

Definition z_index (r : renderer) : string :=
  match r with
  | Current => "2147483647"
  | Legacy => "10000"
  end.

Definition rect_overlay (r : renderer) (d : Document) (rect : DOMRect) : Element :=
  let adjustedTop := (rect_top rect + scrollY d)%Q in
  let adjustedLeft := (rect_left rect + scrollX d)%Q in
  createElement "div" "GWA-rect" ""
    ([("border", Keyword "2px solid brown"); ("position", Keyword "absolute");
      ("top", Px adjustedTop); ("left", Px adjustedLeft);
      ("width", Px (rect_width rect)); ("height", Px (rect_height rect));
      ("zIndex", Keyword (z_index r)); ("pointerEvents", Keyword "none")]
     ++ match r with
        | Current => [("backgroundColor", Keyword "rgba(165, 42, 42, 0.1)")]
        | Legacy => []
        end).

Definition label_overlay (r : renderer) (d : Document) (rect : DOMRect)
    (index : JS.int) : Element :=
  let adjustedTop := (rect_top rect + scrollY d)%Q in
  let adjustedLeft := (rect_left rect + scrollX d)%Q in
  createElement "span" "GWA-label" (JS.to_string index)
    match r with
    | Current =>
        [("position", Keyword "absolute"); ("lineHeight", Keyword "16px");
         ("padding", Keyword "1px"); ("color", Keyword "white");
         ("fontWeight", Keyword "bold"); ("fontSize", Keyword "14px");
         ("backgroundColor", Keyword "brown"); ("zIndex", Keyword (z_index r));
         ("top", Px (if negb (Qle_bool 24 (rect_height rect))
                        || negb (Qle_bool 24 (rect_width rect))
                     then adjustedTop - 16 else adjustedTop)%Q);
         ("left", Px adjustedLeft)]
    | Legacy =>
        [("position", Keyword "absolute"); ("lineHeight", Keyword "16px");
         ("padding", Keyword "1px"); ("top", Px adjustedTop);
         ("left", Px adjustedLeft); ("color", Keyword "white");
         ("fontWeight", Keyword "bold"); ("fontSize", Keyword "16px");
         ("backgroundColor", Keyword "brown"); ("zIndex", Keyword (z_index r))]
    end.

(** The selector [[<name>="gwa-element-<index>"]]. *)
Definition marked_as (name : string) (index : JS.int) (x : ElementData) : bool :=
  bool_decide (attributes x !! name = Some ("gwa-element-" +:+ JS.to_string index)).

(** The body of [indices.forEach]; [None] is an exception. *)
Definition draw_one (r : renderer) (d : Document) (index : JS.int) : option Document :=
  match querySelector d (marked_as (lookup_marker r) index) with
  | None => Some d
  | Some element =>
      let rect := boundingClientRect (prop d element) in
      d1 ← body_appendChild d (rect_overlay r d rect);
      body_appendChild d1 (label_overlay r d rect index)
  end.

Fixpoint draw_all (r : renderer) (d : Document) (indices : list JS.int) : option Document :=
  match indices with
  | [] => Some d
  | index :: rest => d1 ← draw_one r d index; draw_all r d1 rest
  end.

(** The indices that are drawn: those given, or the default. *)
Definition effective_indices (r : renderer) (d : Document)
    (indices : option (list JS.int)) : list JS.int :=
  match indices with
  | Some (i :: l) => i :: l
  | _ => default_indices r d
  end.

Definition clear_overlays (d : Document) : Document :=
  removeElementsByClass (removeElementsByClass d "GWA-rect") "GWA-label".

(** The renderer: the document it leaves behind and the number it
    returns, or [None] when it throws. *)
Definition draw (r : renderer) (d : Document) (indices : option (list JS.int)) :
    option (Document * nat) :=
  let indices := effective_indices r d indices in
  d' ← draw_all r (clear_overlays d) indices;
  Some (d', length indices).

(** ** Specification vocabulary

    The notions in which the properties are stated. *)

(** The element without its two marker attributes, and the document
    without any marker: what the indexer reads of a document apart from
    what it writes itself. *)
Definition erase_data (x : ElementData) : ElementData :=
  set_attributes (λ m, delete bbox_marker (delete primary_marker m)) x.

Definition erase (d : Document) : Document :=
  with_roots d (forest_map erase_data (roots d)).

(** Two documents that differ in marker attributes only. *)
Definition agree (d d' : Document) : Prop := erase d = erase d'.

(** A selector that does not look at the markers. *)
Definition blind (sel : ElementData → bool) : Prop :=
  ∀ x, sel (erase_data x) = sel x.

(** The elements that receive a handle, in the order in which they
    receive it: the element at position [h] is numbered [h]. *)
Definition numbered (v : variant) (d : Document) : list node :=
  List.filter (isElementVisible d) (candidates v d).

(** The map that stores the descriptions [descs] under the consecutive
    keys from [k] on, over [m]. *)
Fixpoint assign (k : nat) (descs : list string) (m : gmap nat string) : gmap nat string :=
  match descs with
  | [] => m
  | html :: rest => assign (S k) rest (<[k := html]> m)
  end.

(** An ancestor of an element, or the element itself. *)
Definition ancestor_or_self (a e : node) : Prop := a ≠ [] ∧ contains a e = true.

Definition hidden_style (d : Document) (a : node) : Prop :=
  display (prop d a) = "none" ∨ visibility (prop d a) = "hidden".

(** The box lies entirely within the viewport. *)
Definition within_viewport (d : Document) (rect : DOMRect) : Prop :=
  (0 <= rect_top rect)%Q ∧ (0 <= rect_left rect)%Q
  ∧ (rect_bottom rect <= viewport_height d)%Q
  ∧ (rect_right rect <= viewport_width d)%Q.


(** The first string of the list that is not empty, or the empty string. *)
Fixpoint first_nonempty (l : list string) : string :=
  match l with
  | [] => ""
  | s :: rest => if bool_decide (s = "") then first_nonempty rest else s
  end.

(** The text an element has of its own, as each variant reads it. *)
Definition own_text (v : variant) (x : ElementData) : string :=
  match v with
  | Basic => clean_text (textContent x)
  | Rich => innerText x
  end.

(** The sources of the text of an input, in the words of the
    specification: the label that wraps the input, the span beside it, any
    element beside it, its value or placeholder. *)
Definition wrapping_label_text (d : Document) (e : node) : string :=
  if negb (bool_decide (parentElement e = []))
     && bool_decide (tagName (prop d (parentElement e)) = "label")
  then clean_text (textContent (prop d (parentElement e)))
  else "".

Definition sibling_text (d : Document) (only_span : bool) (s : option node) : string :=
  match s with
  | Some n =>
      if negb only_span || bool_decide (tagName (prop d n) = "span")
      then clean_text (textContent (prop d n))
      else ""
  | None => ""
  end.

Definition value_or_placeholder (d : Document) (e : node) : string :=
  first_nonempty [default "" (getAttribute d e "value");
                  default "" (getAttribute d e "placeholder")].


(** The span step as the indexers take it: the previous sibling is
    consulted only when the next sibling is no span. *)
Definition span_sibling_text (d : Document) (e : node) : string :=
  if is_span_sibling d (nextElementSibling d e)
  then sibling_text d true (nextElementSibling d e)
  else sibling_text d true (previousElementSibling d e).

(** The last step of the rich indexer: the text of the next sibling. *)
Definition next_sibling_text (d : Document) (e : node) : string :=
  match nextElementSibling d e with
  | Some s => JS.or_else (JS.trim (JS.replace_backslash_n (textContent (prop d s)))) ""
  | None => ""
  end.

(** The chain of each indexer. *)
Definition input_label_text (v : variant) (d : Document) (e : node) : string :=
  first_nonempty
    [label_text_1 d e;
     wrapping_label_text d e;
     span_sibling_text d e;
     match v with
     | Basic => value_or_placeholder d e
     | Rich => next_sibling_text d e
     end].

Fixpoint concat_all (l : list string) : string :=
  match l with
  | [] => ""
  | s :: rest => s +:+ concat_all rest
  end.

(** The texts the attribute loop of the rich indexer appends. *)
Definition rendered_attributes (x : ElementData) : string :=
  concat_all
    ((λ attr, match attributes x !! attr with
              | Some attrValue => render_attr attr attrValue
              | None => ""
              end) <$> rich_attrs).

(** The default of the renderer in the words of the specification: the
    handles read off the bbox marker of every element that carries one. *)
Definition claimed_default_indices (d : Document) : list JS.int :=
  List.map (λ el, parse_marker (getAttribute d el bbox_marker))
           (querySelectorAll d (has_attribute bbox_marker)).

(** The texts of the label nodes of the overlay, in document order. *)
Definition overlay_labels (d : Document) : list string :=
  List.map (λ n, textContent (prop d n)) (querySelectorAll d (has_class "GWA-label")).

Definition overlay_rects (d : Document) : list node :=
  querySelectorAll d (has_class "GWA-rect").

(** An element of the overlay: a rectangle or a label of the renderer. *)
Definition is_overlay (x : ElementData) : bool :=
  has_class "GWA-rect" x || has_class "GWA-label" x.

(** The handle has an element to draw around. *)
Definition resolves (r : renderer) (d : Document) (index : JS.int) : bool :=
  bool_decide (is_Some (querySelector d (marked_as (lookup_marker r) index))).


(** ** Example documents

    The documents of the examples are laid out by hand: every element is
    given its box, and the element under a point is the last element in
    document order whose box holds the point. *)

Definition box (x y w h : Z) : DOMRect :=
  {| rect_left := inject_Z x; rect_top := inject_Z y;
     rect_width := inject_Z w; rect_height := inject_Z h |}.

Definition element (tag : string) (attrs : list (string * string)) (r : DOMRect)
    (text : string) (children : list Element) : Element :=
  Elem {| tagName := tag; attributes := list_to_map attrs;
          display := "block"; visibility := "visible"; pointerEvents := "auto";
          offsetWidth := Qfloor (rect_width r); offsetHeight := Qfloor (rect_height r);
          boundingClientRect := r;
          input_type := default "text" (list_to_map (M := gmap string string) attrs !! "type");
          textContent := text; innerText := text; style := [] |} children.

Definition with_style (display visibility pointerEvents : string) (e : Element) : Element :=
  let x := el_data e in
  Elem {| tagName := tagName x; attributes := attributes x;
          display := display; visibility := visibility;
          pointerEvents := pointerEvents; offsetWidth := offsetWidth x;
          offsetHeight := offsetHeight x;
          boundingClientRect := boundingClientRect x;
          input_type := input_type x; textContent := textContent x;
          innerText := innerText x; style := style x |} (el_children e).

(** The box holds the point, and the element is a target of pointer
    events. *)
Definition hit (x : ElementData) (px py : Q) : bool :=
  let r := boundingClientRect x in
  Qle_bool (rect_left r) px && negb (Qle_bool (rect_right r) px)
  && Qle_bool (rect_top r) py && negb (Qle_bool (rect_bottom r) py)
  && negb (bool_decide (pointerEvents x = "none")).

Definition topmost (f : list Element) (px py : Q) : node :=
  List.last
    (List.filter
       (λ n, hit (from_option el_data no_data (forest_lookup (rev n) f)) px py)
       (@rev nat <$> forest_paths f)) [].

(** A page of 800 by 600 pixels, scrolled to the top. *)
Definition page (f : list Element) : Document :=
  {| roots := f; innerWidth := 800; innerHeight := 600;
     clientWidth := 800; clientHeight := 600; scrollX := 0; scrollY := 0;
     elementFromPoint := topmost f |}.

Definition html_page (content : list Element) : Document :=
  page [element "html" [] (box 0 0 800 600) ""
          [element "head" [] (box 0 0 0 0) "" [];
           element "body" [] (box 0 0 800 600) "" content]].

(** The page of the end-to-end scenario: a button, and an input that is
    not displayed. *)
Definition submit_page : Document :=
  html_page [element "button" [] (box 10 10 80 20) "Submit" [];
             with_style "none" "visible" "auto"
               (element "input" [("type", "text")] (box 0 0 0 0) "" [])].

(** A button that is not displayed. *)
Definition hidden_button_page : Document :=
  html_page [with_style "none" "visible" "auto"
               (element "button" [] (box 10 10 50 20) "Submit" [])].

(** A checkbox that reaches above the top edge of the viewport. *)
Definition offscreen_toggle_page : Document :=
  html_page [element "input" [("type", "checkbox")] (box 10 (-5) 20 20) "" []].

(** A checkbox without size in a label of 100 by 20 pixels. *)
Definition labelled_toggle_page : Document :=
  html_page [element "label" [] (box 10 10 100 20) "Accept"
               [element "input" [("type", "checkbox")] (box 10 10 0 0) "" []]].

(** The same, with a checkbox that is no target of pointer events. *)
Definition inert_toggle_page : Document :=
  html_page [element "label" [] (box 10 10 100 20) "Accept"
               [with_style "block" "visible" "none"
                  (element "input" [("type", "checkbox")] (box 10 10 0 0) "" [])]].

(** The same, with a label without size. *)
Definition collapsed_label_page : Document :=
  html_page [element "label" [] (box 10 10 0 0) "Accept"
               [element "input" [("type", "checkbox")] (box 10 10 0 0) "" []]].

(** A checkbox without size and without a label. *)
Definition bare_toggle_page : Document :=
  html_page [element "div" [] (box 10 10 100 20) ""
               [element "input" [("type", "checkbox")] (box 10 10 0 0) "" []]].





(** A checked checkbox. *)
Definition checked_box_page : Document :=
  html_page [element "input" [("type", "checkbox"); ("checked", "")]
               (box 10 10 20 20) "" []].

Fixpoint repeat_char (c : ascii) (n : nat) : string :=
  match n with
  | 0 => ""
  | S m => String c (repeat_char c m)
  end.

(** A title of 60 characters that holds two spaces in a row, and a
    button with that title. *)
Definition long_title : string := "Go  " +:+ repeat_char "x" 56.

Definition long_title_page : Document :=
  html_page [element "button" [("title", long_title)] (box 10 10 50 20) "OK" []].

(** Two labelled text fields in one container. *)
Definition two_fields_page : Document :=
  html_page [element "div" [] (box 10 10 300 100) ""
               [element "label" [("for", "first")] (box 10 10 100 20) "First" [];
                element "input" [("id", "first"); ("type", "text")] (box 120 10 100 20) "" [];
                element "label" [("for", "last")] (box 10 40 100 20) "Last" [];
                element "input" [("id", "last"); ("type", "text")] (box 120 40 100 20) "" []]].

(** A button, and a text field wrapped in its label. *)
Definition wrapped_field_page : Document :=
  html_page [element "button" [] (box 10 10 50 20) "OK" [];
             element "label" [] (box 10 40 200 20) "Name"
               [element "input" [("type", "text")] (box 60 40 100 20) "" []]].
(** ** Vocabulary of the further properties *)

(** The element on which the indexer writes the marker [name] for a
    numbered element. *)
Definition marker_target (v : variant) (d : Document) (name : string)
    (e : node) : node :=
  if bool_decide (name = primary_marker) then primary_target v d e
  else bbox_target d e.

(** ** Further example documents *)

(** The document with a hit test that answers [null] for a point outside
    the viewport, as the one of the browser does. *)
Definition clipped (d : Document) : Document :=
  {| roots := roots d; innerWidth := innerWidth d; innerHeight := innerHeight d;
     clientWidth := clientWidth d; clientHeight := clientHeight d;
     scrollX := scrollX d; scrollY := scrollY d;
     elementFromPoint := λ px py,
       if Qle_bool 0 px && Qle_bool px (viewport_width d)
          && Qle_bool 0 py && Qle_bool py (viewport_height d)
       then elementFromPoint d px py else [] |}.

(** A checkbox whose centre is to the left of the viewport. *)
Definition far_toggle_page : Document :=
  clipped (html_page [element "input" [("type", "checkbox")] (box (-50) 10 20 20) "" []]).

(** A checkbox that is one pixel wide and twenty pixels high. *)
Definition thin_toggle_page : Document :=
  html_page [element "label" [] (box 10 10 100 20) "Accept"
               [element "input" [("type", "checkbox")] (box 10 10 1 20) "" []]].

(** ** Whitespace in a description *)

(** Every white space character of the string is a space, and no two
    spaces are adjacent; [after_space] tells that the string follows a
    space. *)
Fixpoint single_spaced (after_space : bool) (s : string) : bool :=
  match s with
  | EmptyString => true
  | String c r =>
      if JS.is_space c
      then bool_decide (c = " "%char) && negb after_space && single_spaced true r
      else single_spaced false r
  end.

Definition starts_with_space (s : string) : bool :=
  match s with
  | String c _ => JS.is_space c
  | EmptyString => false
  end.

Fixpoint ends_with_space (s : string) : bool :=
  match s with
  | EmptyString => false
  | String c EmptyString => JS.is_space c
  | String _ r => ends_with_space r
  end.

(** ** The nodes of the overlay *)

(** The two nodes the renderer makes for a handle in a document: the
    rectangle and the label at the box of the element that carries the
    marker of the handle, or none when no element carries it. *)
Definition overlay_of (r : renderer) (d : Document) (index : JS.int) : list Element :=
  match querySelector d (marked_as (lookup_marker r) index) with
  | Some element =>
      let rect := boundingClientRect (prop d element) in
      [rect_overlay r d rect; label_overlay r d rect index]
  | None => []
  end.

(** The overlay nodes that a document holds, in document order. *)
Definition overlay_nodes (d : Document) : list ElementData :=
  List.map (prop d) (querySelectorAll d is_overlay).

(** ** The task list of the benchmark

    The notebook [src/eval/webvoyager/benchmark/clean_webvoyager_tasks.ipynb]
    reads the tasks of the benchmark, removes the tasks listed as
    impossible, replaces the tasks listed as modified and writes the tasks
    that remain.  A task is a JSON object; the fields the notebook reads
    ([id], [ques] and [original_ques]) hold strings.  The files are taken
    as parsed.  The cells are run once, from the first to the last, and an
    exception ends the run. *)

Module Tasks.

Definition task : Type := gmap string string.

Inductive error : Type :=
| KeyError
| ValueError.

Inductive result (A : Type) : Type :=
| Ok (a : A)
| Raise (e : error).
Arguments Ok {A} a.
Arguments Raise {A} e.

Definition bind {A B} (x : result A) (f : A → result B) : result B :=
  match x with
  | Ok a => f a
  | Raise e => Raise e
  end.

(** [t[k]] on a JSON object. *)
Definition field (k : string) (t : task) : result string :=
  match t !! k with
  | Some s => Ok s
  | None => Raise KeyError
  end.

(** A Python dict from task ids to tasks: its items in insertion
    order. *)
Definition dict : Type := list (string * task).

Definition keys (m : dict) : list string := fst <$> m.

(** [m[k]] *)
Fixpoint get (k : string) (m : dict) : result task :=
  match m with
  | [] => Raise KeyError
  | (k', t) :: rest => if decide (k' = k) then Ok t else get k rest
  end.

(** [m[k] = t]: a key of the dict keeps its place, a new key goes to the
    end. *)
Fixpoint set (k : string) (t : task) (m : dict) : dict :=
  match m with
  | [] => [(k, t)]
  | (k', t') :: rest =>
      if decide (k' = k) then (k, t) :: rest else (k', t') :: set k t rest
  end.

(** [del m[k]] *)
Fixpoint del (k : string) (m : dict) : result dict :=
  match m with
  | [] => Raise KeyError
  | (k', t') :: rest =>
      if decide (k' = k) then Ok rest
      else bind (del k rest) (λ rest', Ok ((k', t') :: rest'))
  end.

(** The first cell: [{task["id"]: task for task in tasks}]. *)
Definition index_tasks (tasks : list task) : result dict :=
  fold_left (λ acc t, bind acc (λ m, bind (field "id" t) (λ id, Ok (set id t m))))
            tasks (Ok []).

(** The second cell: the loop over the impossible tasks, which are
    listed by web site; the state is the counter and the dict. *)
Definition remove_step (acc : result (nat * dict)) (task_id : string) :
    result (nat * dict) :=
  bind acc (λ '(num_impossible_tasks, task_dict),
    bind (del task_id task_dict) (λ task_dict',
      Ok (S num_impossible_tasks, task_dict'))).

Definition remove_impossible (impossible_tasks_json : list (string * list string))
    (task_dict : dict) : result (nat * dict) :=
  fold_left (λ acc web, fold_left remove_step web.2 acc)
            impossible_tasks_json (Ok (0, task_dict)).

(** The third cell: the loop over the modified tasks, listed by web site
    and task id. *)
Definition replace_step (acc : result (nat * dict)) (item : string * task) :
    result (nat * dict) :=
  bind acc (λ '(num_modified_tasks, task_dict),
    let '(task_id, modified) := item in
    bind (field "original_ques" modified) (λ original_ques,
      bind (get task_id task_dict) (λ current,
        bind (field "ques" current) (λ ques,
          if decide (original_ques ≠ ques) then Raise ValueError
          else Ok (S num_modified_tasks, set task_id modified task_dict))))).

Definition replace_modified (modified_tasks_json : list (string * list (string * task)))
    (task_dict : dict) : result (nat * dict) :=
  fold_left (λ acc web, fold_left replace_step web.2 acc)
            modified_tasks_json (Ok (0, task_dict)).

(** What a run prints and writes. *)
Record report := {
  loaded : nat;                  (* [len(tasks)] *)
  removed : nat;                 (* [num_impossible_tasks] *)
  remaining : nat;               (* [len(task_dict)] after the second cell *)
  modified : nat;                (* [num_modified_tasks] *)
  filtered_tasks : list task;    (* the lines of the output file *)
}.

Definition clean (tasks : list task)
    (impossible_tasks_json : list (string * list string))
    (modified_tasks_json : list (string * list (string * task))) : result report :=
  bind (index_tasks tasks) (λ d0,
    bind (remove_impossible impossible_tasks_json d0) (λ '(n1, d1),
      bind (replace_modified modified_tasks_json d1) (λ '(n2, d2),
        Ok {| loaded := length tasks; removed := n1; remaining := length d1;
              modified := n2; filtered_tasks := snd <$> d2 |}))).

End Tasks.

(** Three tasks, of which one is listed as impossible and one as
    modified. *)
Definition example_task (id ques : string) : Tasks.task :=
  {[ "id" := id; "ques" := ques ]}.

Definition example_tasks : list Tasks.task :=
  [example_task "Amazon--0" "Find a laptop";
   example_task "Amazon--1" "Find a phone";
   example_task "Apple--0" "Compare phones"].

Definition example_ids : list string := ["Amazon--0"; "Amazon--1"; "Apple--0"].

Definition example_impossible : list (string * list string) :=
  [("Amazon", ["Amazon--1"])].

Definition example_modification : Tasks.task :=
  {[ "id" := "Apple--0"; "ques" := "Compare two phones";
     "original_ques" := "Compare phones" ]}.

Definition example_modified : list (string * list (string * Tasks.task)) :=
  [("Apple", [("Apple--0", example_modification)])].



(** * Properties *)

(** ** Examples *)

Example trim_example : JS.trim "  a b  " = "a b".
Proof. reflexivity. Qed.

Example collapse_spaces_example :
  JS.collapse_spaces ("a  " +:+ String "010" "b") = "a b".
Proof. reflexivity. Qed.

Example parseInt_examples :
  JS.parseInt "17" = JS.Int 17 ∧ JS.parseInt "" = JS.NaN
  ∧ JS.parseInt "0x1f" = JS.Int 31 ∧ JS.parseInt "-4px" = JS.Int (-4)
  ∧ parse_marker (Some "gwa-element-12") = JS.Int 12
  ∧ parse_marker None = JS.Int 0.
Proof. repeat split; reflexivity. Qed.

Example marker_value_example : marker_value 12 = "gwa-element-12".
Proof. reflexivity. Qed.

(** The end-to-end scenario: the scan returns the description of the
    button under the handle 0 and gives the hidden input no handle; the
    renderer then adds one rectangle and one label at the place of the
    button. *)
Example submit_page_scenario :
  (scan Basic submit_page).2 = {[ 0 := "<button>Submit</button>" ]}
  ∧ (scan Rich submit_page).2 = {[ 0 := "<button>Submit</button>" ]}
  ∧ getAttribute (scan Rich submit_page).1 [1; 1; 0] primary_marker = None
  ∧ ∃ d1, draw Current (scan Rich submit_page).1 None = Some (d1, 1)
          ∧ overlay_rects d1 = [[2; 1; 0]]
          ∧ overlay_labels d1 = ["0"]
          ∧ style (prop d1 [2; 1; 0]) !! 2 = Some ("top", Px 10)
          ∧ style (prop d1 [2; 1; 0]) !! 3 = Some ("left", Px 10).
Proof.
  split; [vm_compute; reflexivity|]. split; [vm_compute; reflexivity|].
  split; [vm_compute; reflexivity|].
  eexists. split; [vm_compute; reflexivity|].
  repeat split; vm_compute; reflexivity.
Qed.

(** ** The tree *)

Lemma Element_ind' (P : Element → Prop) :
  (∀ data children, Forall P children → P (Elem data children)) →
  ∀ e, P e.
Proof.
  intros step. fix IH 1. intros [data children]. apply step.
  induction children as [|c cs IHcs]; constructor; [apply IH | exact IHcs].
Qed.

Lemma el_data_map g e : el_data (elem_map g e) = g (el_data e).
Proof. by destruct e. Qed.

Lemma el_children_map g e : el_children (elem_map g e) = elem_map g <$> el_children e.
Proof. by destruct e. Qed.

Lemma option_fmap_id' {A} (mx : option A) : id <$> mx = mx.
Proof. by destruct mx. Qed.

Lemma elem_lookup_map g p e :
  elem_lookup p (elem_map g e) = elem_map g <$> elem_lookup p e.
Proof.
  revert e. induction p as [|i q IH]; intros e; [done|].
  cbn [elem_lookup]. rewrite el_children_map, list_lookup_fmap.
  destruct (el_children e !! i) as [c|]; [apply IH|done].
Qed.

Lemma forest_lookup_map g p f :
  forest_lookup p (forest_map g f) = elem_map g <$> forest_lookup p f.
Proof.
  destruct p as [|i q]; [done|]. unfold forest_lookup, forest_map.
  rewrite list_lookup_fmap.
  destruct (f !! i) as [c|]; [apply elem_lookup_map|done].
Qed.

Lemma children_paths_map g i cs :
  Forall (λ e, elem_paths (elem_map g e) = elem_paths e) cs →
  children_paths elem_paths i (elem_map g <$> cs) = children_paths elem_paths i cs.
Proof.
  intros H. revert i. induction H as [|c cs Hc _ IH]; intros i; [done|].
  simpl. by rewrite Hc, IH.
Qed.

Lemma elem_paths_map g e : elem_paths (elem_map g e) = elem_paths e.
Proof.
  induction e as [data children IH] using Element_ind'.
  simpl. f_equal. by apply children_paths_map.
Qed.

Lemma forest_paths_map g f : forest_paths (forest_map g f) = forest_paths f.
Proof.
  apply children_paths_map, Forall_forall. intros. apply elem_paths_map.
Qed.

Lemma fmap_alter_absorb {A B} (F : A → B) (G : A → A) i (l : list A) :
  (∀ x, F (G x) = F x) → F <$> alter G i l = F <$> l.
Proof.
  intros H. revert i. induction l as [|x l IH]; intros [|i]; csimpl; [done..| |].
  - by rewrite H.
  - f_equal. apply IH.
Qed.

(** A change of one element that [F] cannot see is not seen after
    mapping [F] over the tree. *)
Lemma elem_alter_absorb (F : Element → Element) (rebuild : Element → list Element → Element)
    g p e :
  (∀ e, F e = rebuild e (F <$> el_children e)) →
  (∀ e cs, rebuild (Elem (el_data e) cs) = rebuild e) →
  (∀ e, F (g e) = F e) →
  F (elem_alter g p e) = F e.
Proof.
  intros HF Hrebuild Hg. revert e. induction p as [|i q IH]; intros e; [apply Hg|].
  cbn [elem_alter]. rewrite HF. cbn [el_children].
  rewrite (fmap_alter_absorb F _ _ _ IH), Hrebuild. by rewrite <- HF.
Qed.

Lemma forest_alter_absorb (F : Element → Element) (rebuild : Element → list Element → Element)
    g p f :
  (∀ e, F e = rebuild e (F <$> el_children e)) →
  (∀ e cs, rebuild (Elem (el_data e) cs) = rebuild e) →
  (∀ e, F (g e) = F e) →
  F <$> forest_alter g p f = F <$> f.
Proof.
  intros HF Hrebuild Hg. destruct p as [|i q]; [done|]. cbn [forest_alter].
  apply fmap_alter_absorb. intros e. by apply (elem_alter_absorb F rebuild).
Qed.

Lemma forest_map_alter g h p f :
  (∀ x, g (h x) = g x) →
  forest_map g (forest_alter (on_data h) p f) = forest_map g f.
Proof.
  intros Hgh. unfold forest_map.
  apply (forest_alter_absorb _ (λ e cs, Elem (g (el_data e)) cs)).
  - by intros [??].
  - done.
  - intros [data children]. cbn. by rewrite Hgh.
Qed.

(** The data found at a path after the data at another path changed. *)
Lemma elem_lookup_alter_data h p q e :
  el_data <$> elem_lookup q (elem_alter (on_data h) p e)
  = (if decide (p = q) then h else id) <$> (el_data <$> elem_lookup q e).
Proof.
  revert q e. induction p as [|i p IH]; intros q e.
  - cbn [elem_alter]. destruct q as [|j q]; [done|].
    rewrite decide_False by done. by rewrite option_fmap_id'.
  - destruct q as [|j q].
    + by rewrite decide_False.
    + cbn [elem_alter elem_lookup el_children].
      destruct (decide (i = j)) as [<-|Hij].
      * rewrite list_lookup_alter_eq.
        destruct (el_children e !! i) as [c|]; cbn; [|done].
        rewrite IH. destruct (decide (p = q)) as [->|Hne].
        -- by rewrite decide_True.
        -- rewrite decide_False; [done|]. congruence.
      * rewrite list_lookup_alter_ne by done.
        rewrite decide_False by congruence. by rewrite option_fmap_id'.
Qed.

Lemma forest_lookup_alter_data h p q f :
  el_data <$> forest_lookup q (forest_alter (on_data h) p f)
  = (if decide (p = q) then h else id) <$> (el_data <$> forest_lookup q f).
Proof.
  destruct p as [|i p].
  - cbn [forest_alter]. destruct q as [|j q]; [done|].
    rewrite decide_False by done. by rewrite option_fmap_id'.
  - destruct q as [|j q]; [done|]. cbn [forest_alter forest_lookup].
    destruct (decide (i = j)) as [<-|Hij].
    + rewrite list_lookup_alter_eq. destruct (f !! i) as [c|]; cbn; [|done].
      rewrite elem_lookup_alter_data. destruct (decide (p = q)) as [->|Hne].
      * by rewrite decide_True.
      * rewrite decide_False; [done|]. congruence.
    + rewrite list_lookup_alter_ne by done.
      rewrite decide_False by congruence. by rewrite option_fmap_id'.
Qed.

Lemma children_paths_elem (rec : Element → list (list nat)) k cs j c q :
  cs !! j = Some c → q ∈ rec c → (k + j :: q) ∈ children_paths rec k cs.
Proof.
  revert k j. induction cs as [|c' cs IH]; intros k j Hj Hq; [done|].
  simpl. apply elem_of_app. destruct j as [|j]; simplify_eq/=.
  - left. rewrite Nat.add_0_r. apply list_elem_of_fmap. eauto.
  - right. replace (k + S j) with (S k + j) by lia. by apply IH.
Qed.

(** Every element of the tree is listed in the document order, and every
    listed path leads to an element. *)
Lemma elem_lookup_paths p e x : elem_lookup p e = Some x → p ∈ elem_paths e.
Proof.
  revert e. induction p as [|i q IH]; intros [data children]; [by left|].
  cbn. destruct (children !! i) as [c|] eqn:Hc; [|done].
  intros Hq. right. by apply (children_paths_elem elem_paths 0 children i c q Hc), IH.
Qed.

Lemma forest_lookup_paths p f e :
  forest_lookup p f = Some e → p ∈ forest_paths f.
Proof.
  destruct p as [|i q]; [done|]. cbn.
  destruct (f !! i) as [c|] eqn:Hc; [|done]. intros Hq.
  apply (children_paths_elem elem_paths 0 f i c q Hc). by eapply elem_lookup_paths.
Qed.

Lemma children_paths_inv (rec : Element → list (list nat)) k cs p :
  p ∈ children_paths rec k cs →
  ∃ j c q, p = k + j :: q ∧ cs !! j = Some c ∧ q ∈ rec c.
Proof.
  revert k. induction cs as [|c cs IH]; intros k; [by intros ?%elem_of_nil|].
  simpl. intros [Hp|Hp]%elem_of_app.
  - apply list_elem_of_fmap in Hp as (q & -> & Hq).
    exists 0, c, q. by rewrite Nat.add_0_r.
  - apply IH in Hp as (j & c' & q & -> & Hj & Hq).
    exists (S j), c', q. split; [f_equal; lia|done].
Qed.

Lemma elem_paths_lookup p e : p ∈ elem_paths e → is_Some (elem_lookup p e).
Proof.
  revert p. induction e as [data children IH] using Element_ind'. intros p.
  cbn [elem_paths]. intros [->|Hp]%elem_of_cons; [by eexists|].
  apply children_paths_inv in Hp as (j & c & q & -> & Hj & Hq).
  cbn. rewrite Hj. rewrite Forall_forall in IH.
  apply IH; [|done]. by eapply list_elem_of_lookup_2.
Qed.

Lemma forest_paths_lookup p f : p ∈ forest_paths f → is_Some (forest_lookup p f).
Proof.
  intros (j & c & q & -> & Hj & Hq)%children_paths_inv.
  cbn. rewrite Hj. by apply elem_paths_lookup.
Qed.

(** ** Appending a child *)

Lemma children_paths_app (rec : Element → list (list nat)) k l1 l2 :
  children_paths rec k (l1 ++ l2)
  = children_paths rec k l1 ++ children_paths rec (k + length l1) l2.
Proof.
  revert k. induction l1 as [|c l1 IH]; intros k; simpl.
  - by rewrite Nat.add_0_r.
  - rewrite IH, <- app_assoc. do 3 f_equal. lia.
Qed.

Lemma alter_middle {A} (G : A → A) (pre : list A) c post :
  alter G (length pre) (pre ++ c :: post) = pre ++ G c :: post.
Proof. induction pre as [|x pre IH]; csimpl; [done|]. by rewrite IH. Qed.

Lemma lookup_split {A} (l : list A) i c :
  l !! i = Some c → ∃ pre post, l = pre ++ c :: post ∧ length pre = i.
Proof.
  intros H. exists (take i l), (drop (S i) l). split.
  - by rewrite take_drop_middle.
  - apply length_take_le. apply lookup_lt_Some in H. lia.
Qed.

(** The paths of the tree after a childless element was appended to the
    children of the element at [p]: the new path is inserted, all other
    paths stay. *)
Lemma elem_paths_append x p e e0 :
  elem_lookup p e = Some e0 →
  ∃ l1 l2, elem_paths e = l1 ++ l2
    ∧ elem_paths (elem_alter (add_child (Elem x [])) p e)
      = l1 ++ [p ++ [length (el_children e0)]] ++ l2.
Proof.
  revert e. induction p as [|i q IH]; intros [data children] He.
  - simplify_eq/=. exists ([] :: children_paths elem_paths 0 children), [].
    split; [by rewrite app_nil_r|].
    rewrite children_paths_app. done.
  - cbn in He. destruct (children !! i) as [c|] eqn:Hc; [|done].
    destruct (IH c He) as (a1 & a2 & Ha & Ha').
    destruct (lookup_split _ _ _ Hc) as (pre & post & -> & <-).
    cbn [elem_alter el_children el_data elem_paths].
    rewrite alter_middle, !children_paths_app. cbn [children_paths].
    rewrite Ha, Ha', !fmap_app. cbn [fmap list_fmap].
    exists ([] :: children_paths elem_paths 0 pre ++ (cons (0 + length pre) <$> a1)),
           ((cons (0 + length pre) <$> a2)
            ++ children_paths elem_paths (S (0 + length pre)) post).
    split; cbn [app]; f_equal; by rewrite <- !app_assoc.
Qed.

Lemma forest_paths_append x p f e0 :
  forest_lookup p f = Some e0 →
  ∃ l1 l2, forest_paths f = l1 ++ l2
    ∧ forest_paths (forest_alter (add_child (Elem x [])) p f)
      = l1 ++ [p ++ [length (el_children e0)]] ++ l2.
Proof.
  destruct p as [|i q]; [done|]. cbn [forest_lookup forest_alter].
  destruct (f !! i) as [c|] eqn:Hc; [|done]. intros He.
  destruct (elem_paths_append x q c e0 He) as (a1 & a2 & Ha & Ha').
  destruct (lookup_split _ _ _ Hc) as (pre & post & -> & <-).
  unfold forest_paths. rewrite alter_middle, !children_paths_app.
  cbn [children_paths]. rewrite Ha, Ha', !fmap_app. cbn [fmap list_fmap].
  exists (children_paths elem_paths 0 pre ++ (cons (0 + length pre) <$> a1)),
         ((cons (0 + length pre) <$> a2)
          ++ children_paths elem_paths (S (0 + length pre)) post).
  split; by rewrite <- !app_assoc.
Qed.

Lemma elem_lookup_append_old new p q e x :
  elem_lookup q e = Some x →
  el_data <$> elem_lookup q (elem_alter (add_child new) p e) = Some (el_data x).
Proof.
  revert q e. induction p as [|i p IH]; intros q e Hq.
  - cbn [elem_alter]. destruct q as [|j q]; [by simplify_eq/=|].
    cbn in *. destruct (el_children e !! j) as [c|] eqn:Hc; [|done].
    rewrite (lookup_app_l_Some _ _ _ _ Hc). by rewrite Hq.
  - destruct q as [|j q]; [by simplify_eq/=|].
    cbn in *. destruct (el_children e !! j) as [c|] eqn:Hc; [|done].
    destruct (decide (i = j)) as [->|Hij].
    + rewrite list_lookup_alter_eq, Hc. cbn. by apply IH.
    + rewrite list_lookup_alter_ne, Hc by done. by rewrite Hq.
Qed.

Lemma forest_lookup_append_old new p q f x :
  forest_lookup q f = Some x →
  el_data <$> forest_lookup q (forest_alter (add_child new) p f) = Some (el_data x).
Proof.
  destruct q as [|j q]; [done|]. cbn.
  destruct (f !! j) as [c|] eqn:Hc; [|done]. intros Hq.
  destruct p as [|i p]; cbn.
  - by rewrite Hc, Hq.
  - destruct (decide (i = j)) as [->|Hij].
    + rewrite list_lookup_alter_eq, Hc. cbn. by apply elem_lookup_append_old.
    + rewrite list_lookup_alter_ne, Hc by done. by rewrite Hq.
Qed.

Lemma elem_lookup_append_new new p e e0 :
  elem_lookup p e = Some e0 →
  elem_lookup (p ++ [length (el_children e0)]) (elem_alter (add_child new) p e)
  = Some new.
Proof.
  revert e. induction p as [|i p IH]; intros e He.
  - simplify_eq/=. by rewrite list_lookup_middle.
  - cbn in *. destruct (el_children e !! i) as [c|] eqn:Hc; [|done].
    rewrite list_lookup_alter_eq, Hc. cbn. by apply IH.
Qed.

Lemma forest_lookup_append_new new p f e0 :
  forest_lookup p f = Some e0 →
  forest_lookup (p ++ [length (el_children e0)]) (forest_alter (add_child new) p f)
  = Some new.
Proof.
  destruct p as [|i p]; [done|]. cbn.
  destruct (f !! i) as [c|] eqn:Hc; [|done]. intros He.
  rewrite list_lookup_alter_eq, Hc. cbn. by apply elem_lookup_append_new.
Qed.

Lemma find_ext_in' {A} (h h' : A → bool) (L : list A) :
  (∀ m, In m L → h' m = h m) → List.find h' L = List.find h L.
Proof.
  intros Hm. induction L as [|m L IH]; [done|]. simpl.
  rewrite (Hm m) by (by left). destruct (h m); [done|].
  apply IH. intros. apply Hm. by right.
Qed.

Lemma find_insert {A} (h h' : A → bool) (L1 L2 : list A) n :
  (∀ m, In m (L1 ++ L2) → h' m = h m) → h' n = false →
  List.find h' (L1 ++ n :: L2) = List.find h (L1 ++ L2).
Proof.
  intros Hm Hn. induction L1 as [|m L1 IH]; simpl.
  - rewrite Hn. by apply find_ext_in'.
  - rewrite (Hm m) by (by left). destruct (h m); [done|].
    apply IH. intros. apply Hm. by right.
Qed.

Lemma filter_insert {A} (h h' : A → bool) (L1 L2 : list A) n :
  (∀ m, In m (L1 ++ L2) → h' m = h m) →
  List.filter h' (L1 ++ n :: L2)
  = List.filter h L1 ++ (if h' n then [n] else []) ++ List.filter h L2.
Proof.
  intros Hm. rewrite List.filter_app. simpl. f_equal.
  - apply filter_ext_in. intros. apply Hm, in_or_app. by left.
  - destruct (h' n); simpl; [f_equal|];
      apply filter_ext_in; intros; apply Hm, in_or_app; by right.
Qed.

(** The elements of a document after a childless element was appended to
    an element: the new element is one more element, and the properties
    of the others have not changed. *)
Lemma appendChild_elements d p x e0 :
  getElement d p = Some e0 →
  ∃ L1 L2 new,
    all_elements d = L1 ++ L2
    ∧ all_elements (appendChild d p (Elem x [])) = L1 ++ new :: L2
    ∧ prop (appendChild d p (Elem x [])) new = x
    ∧ ∀ n, In n (L1 ++ L2) → prop (appendChild d p (Elem x [])) n = prop d n.
Proof.
  unfold getElement. intros He.
  destruct (forest_paths_append x _ _ _ He) as (l1 & l2 & Hl & Hl').
  exists (@rev nat <$> l1), (@rev nat <$> l2),
    (rev (rev p ++ [length (el_children e0)])).
  unfold all_elements, appendChild. cbn [roots with_roots].
  rewrite Hl, Hl', !fmap_app. split; [done|]. split; [done|]. split.
  - unfold prop, getElement. cbn [roots with_roots]. rewrite rev_involutive.
    by rewrite (forest_lookup_append_new _ _ _ _ He).
  - intros n Hn. unfold prop, getElement. cbn [roots with_roots].
    rewrite <- fmap_app, <- Hl in Hn.
    apply list_elem_of_In, list_elem_of_fmap in Hn as (q & -> & Hq).
    rewrite rev_involutive. apply forest_paths_lookup in Hq as [y Hy].
    pose proof (forest_lookup_append_old (Elem x []) (rev p) q _ _ Hy) as Hold.
    rewrite Hy. by destruct (forest_lookup q (forest_alter _ _ _)); simplify_eq/=.
Qed.

Lemma querySelector_appendChild d p x e0 sel :
  getElement d p = Some e0 → sel x = false →
  querySelector (appendChild d p (Elem x [])) sel = querySelector d sel.
Proof.
  intros He Hx. destruct (appendChild_elements d p x e0 He)
    as (L1 & L2 & new & HL & HL' & Hnew & Hold).
  unfold querySelector. rewrite HL, HL'. apply find_insert.
  - intros m Hm. by rewrite Hold.
  - by rewrite Hnew.
Qed.

(** The values of [F] over the elements selected by [sel], after the
    element was appended. *)
Lemma querySelectorAll_appendChild {A} (F : ElementData → A) d p x e0 sel :
  getElement d p = Some e0 →
  let d' := appendChild d p (Elem x []) in
  List.map (λ n, F (prop d' n)) (querySelectorAll d' sel)
  ≡ₚ (if sel x then [F x] else [])
     ++ List.map (λ n, F (prop d n)) (querySelectorAll d sel).
Proof.
  intros He d'. destruct (appendChild_elements d p x e0 He)
    as (L1 & L2 & new & HL & HL' & Hnew & Hold).
  fold d' in HL', Hnew, Hold.
  unfold querySelectorAll. rewrite HL, HL'.
  rewrite (filter_insert (λ n, sel (prop d n)) (λ n, sel (prop d' n)))
    by (intros m Hm; by rewrite Hold).
  rewrite Hnew, List.filter_app, !map_app.
  assert (∀ L, incl L (L1 ++ L2) →
            List.map (λ n, F (prop d' n)) (List.filter (λ n, sel (prop d n)) L)
            = List.map (λ n, F (prop d n)) (List.filter (λ n, sel (prop d n)) L)) as Hmap.
  { intros L HLsub. apply map_ext_in. intros n [Hn _]%filter_In.
    by rewrite Hold by (by apply HLsub). }
  rewrite !Hmap by (intros ? ?; apply in_or_app; auto).
  destruct (sel x); simpl; [|done].
  rewrite Hnew. symmetry. apply Permutation_middle.
Qed.

Lemma length_querySelectorAll_appendChild d p x e0 sel :
  getElement d p = Some e0 →
  length (querySelectorAll (appendChild d p (Elem x [])) sel)
  = (if sel x then 1 else 0) + length (querySelectorAll d sel).
Proof.
  intros He.
  pose proof (querySelectorAll_appendChild (λ _, ()) d p x e0 sel He) as H.
  apply Permutation_length in H. cbn zeta in H.
  rewrite length_app, !length_map in H. rewrite H. by destruct (sel x).
Qed.

(** ** Removing subtrees *)

Lemma el_data_prune sel e : el_data (elem_prune sel e) = el_data e.
Proof. by destruct e. Qed.

Lemma filter_fmap_data (k : ElementData → bool) (G : Element → Element) (L : list Element) :
  (∀ c, el_data (G c) = el_data c) →
  G <$> List.filter (λ c, k (el_data c)) L
  = List.filter (λ c, k (el_data c)) (G <$> L).
Proof.
  intros HG. induction L as [|c L IH]; [done|]. csimpl. rewrite HG.
  destruct (k (el_data c)); csimpl; by rewrite IH.
Qed.

Lemma filter_filter' {A} (k1 k2 : A → bool) (L : list A) :
  List.filter k2 (List.filter k1 L) = List.filter (λ c, k1 c && k2 c) L.
Proof.
  induction L as [|c L IH]; [done|]. simpl.
  destruct (k1 c); simpl; [destruct (k2 c)|]; by rewrite IH.
Qed.

Lemma elem_prune_prune s1 s2 e :
  elem_prune s2 (elem_prune s1 e) = elem_prune (λ x, s1 x || s2 x) e.
Proof.
  induction e as [x cs IH] using Element_ind'. cbn [elem_prune]. f_equal.
  rewrite (filter_fmap_data (λ y, negb (s1 y))) by (intros; apply el_data_prune).
  rewrite filter_filter', <- list_fmap_compose.
  rewrite (Forall_fmap_ext_1 (elem_prune s2 ∘ elem_prune s1)
             (elem_prune (λ y, s1 y || s2 y))) by done.
  apply filter_ext. intros c. by rewrite negb_orb.
Qed.

Lemma forest_prune_prune s1 s2 f :
  forest_prune s2 (forest_prune s1 f) = forest_prune (λ x, s1 x || s2 x) f.
Proof.
  unfold forest_prune.
  rewrite (filter_fmap_data (λ y, negb (s1 y))) by (intros; apply el_data_prune).
  rewrite filter_filter', <- list_fmap_compose.
  erewrite (list_fmap_ext _ (elem_prune (λ y, s1 y || s2 y)));
    [| intros ? c _; apply elem_prune_prune ].
  apply filter_ext. intros c. by rewrite negb_orb.
Qed.

Lemma elem_prune_append sel new p e :
  sel (el_data new) = true →
  elem_prune sel (elem_alter (add_child new) p e) = elem_prune sel e.
Proof.
  intros Hnew.
  apply (elem_alter_absorb _
    (λ e cs, Elem (el_data e) (List.filter (λ c, negb (sel (el_data c))) cs))).
  - by intros [??].
  - done.
  - intros [x cs]. cbn. f_equal. rewrite fmap_app, List.filter_app. cbn.
    by rewrite el_data_prune, Hnew, app_nil_r.
Qed.

Lemma forest_prune_append sel new p f :
  sel (el_data new) = true →
  forest_prune sel (forest_alter (add_child new) p f) = forest_prune sel f.
Proof.
  intros Hnew. unfold forest_prune. f_equal.
  destruct p as [|i q]; [done|]. cbn [forest_alter].
  apply fmap_alter_absorb. intros e. by apply elem_prune_append.
Qed.

Lemma filter_lookup_fmap (k : Element → bool) (G : Element → Element) L i c :
  List.filter k (G <$> L) !! i = Some c → k c = true ∧ ∃ c0, c = G c0.
Proof.
  intros H. apply list_elem_of_lookup_2, list_elem_of_In, filter_In in H as [Hin Hk].
  split; [done|]. apply list_elem_of_In, list_elem_of_fmap in Hin as (c0 & -> & _). eauto.
Qed.

(** No element of the pruned tree satisfies the selector. *)
Lemma elem_lookup_prune sel p e x :
  elem_lookup p (elem_prune sel e) = Some x → p = [] ∨ sel (el_data x) = false.
Proof.
  revert e x. induction p as [|i q IH]; intros [y cs] x; [by left|].
  cbn. destruct (List.filter _ _ !! i) as [c|] eqn:Hc; [|done].
  apply filter_lookup_fmap in Hc as (Hk & c0 & ->). intros Hx. right.
  destruct (IH _ _ Hx) as [->|?]; [|done].
  simplify_eq/=. by apply negb_true_iff in Hk.
Qed.

Lemma forest_lookup_prune sel p f x :
  forest_lookup p (forest_prune sel f) = Some x → sel (el_data x) = false.
Proof.
  destruct p as [|i q]; [done|]. unfold forest_prune. cbn.
  destruct (List.filter _ _ !! i) as [c|] eqn:Hc; [|done].
  apply filter_lookup_fmap in Hc as (Hk & c0 & ->). intros Hx.
  destruct (elem_lookup_prune _ _ _ _ Hx) as [->|?]; [|done].
  simplify_eq/=. by apply negb_true_iff in Hk.
Qed.



(** ** Reading a document does not depend on the markers *)

Lemma getElement_erase d n :
  getElement (erase d) n = elem_map erase_data <$> getElement d n.
Proof. apply forest_lookup_map. Qed.

Lemma erase_no_data : erase_data no_data = no_data.
Proof. reflexivity. Qed.

Lemma prop_erase d n : prop (erase d) n = erase_data (prop d n).
Proof.
  unfold prop. rewrite getElement_erase.
  destruct (getElement d n) as [e|]; simpl; [apply el_data_map | done].
Qed.

Lemma all_elements_erase d : all_elements (erase d) = all_elements d.
Proof. unfold all_elements. simpl. by rewrite forest_paths_map. Qed.

Lemma attributes_erase x name :
  name ≠ primary_marker → name ≠ bbox_marker →
  attributes (erase_data x) !! name = attributes x !! name.
Proof. intros. simpl. by rewrite !lookup_delete_ne. Qed.

Lemma getAttribute_erase d n name :
  name ≠ primary_marker → name ≠ bbox_marker →
  getAttribute (erase d) n name = getAttribute d n name.
Proof. intros. unfold getAttribute. rewrite prop_erase. by apply attributes_erase. Qed.

Lemma el_id_erase d n : el_id (erase d) n = el_id d n.
Proof. unfold el_id. by rewrite getAttribute_erase. Qed.

Lemma querySelectorAll_erase d sel :
  blind sel → querySelectorAll (erase d) sel = querySelectorAll d sel.
Proof.
  intros Hsel. unfold querySelectorAll. rewrite all_elements_erase.
  apply filter_ext. intros n. by rewrite prop_erase.
Qed.

Lemma find_ext {A} (f g : A → bool) (l : list A) :
  (∀ x, f x = g x) → List.find f l = List.find g l.
Proof. intros H. induction l as [|x l IH]; simpl; [done|]. by rewrite H, IH. Qed.

Lemma existsb_ext' {A} (f g : A → bool) (l : list A) :
  (∀ x, f x = g x) → existsb f l = existsb g l.
Proof. intros H. induction l as [|x l IH]; simpl; [done|]. by rewrite H, IH. Qed.

Lemma find_up_ext (P Q : node → bool) x :
  (∀ n, P n = Q n) → find_up P x = find_up Q x.
Proof. intros H. induction x as [|i x IH]; simpl; [done|]. by rewrite H, IH. Qed.

Lemma querySelector_erase d sel :
  blind sel → querySelector (erase d) sel = querySelector d sel.
Proof.
  intros Hsel. unfold querySelector. rewrite all_elements_erase.
  apply find_ext. intros n. by rewrite prop_erase.
Qed.

Lemma getElementsByTagName_erase d parent tag :
  getElementsByTagName (erase d) parent tag = getElementsByTagName d parent tag.
Proof.
  unfold getElementsByTagName. rewrite all_elements_erase.
  apply filter_ext. intros n. by rewrite prop_erase.
Qed.

Lemma nextElementSibling_erase d n :
  nextElementSibling (erase d) n = nextElementSibling d n.
Proof.
  destruct n as [|i p]; [done|]. simpl. rewrite getElement_erase.
  by destruct (getElement d (S i :: p)).
Qed.

Lemma previousElementSibling_erase d n :
  previousElementSibling (erase d) n = previousElementSibling d n.
Proof.
  destruct n as [|[|i] p]; [done..|]. simpl. rewrite getElement_erase.
  by destruct (getElement d (i :: p)).
Qed.

Lemma blind_label_for id : blind (label_for id).
Proof. intros x. unfold label_for. by rewrite attributes_erase. Qed.

Lemma blind_is_candidate v : blind (is_candidate v).
Proof. intros x. unfold is_candidate. by rewrite attributes_erase. Qed.

Lemma isHiddenByAncestors_erase d n :
  isHiddenByAncestors (erase d) n = isHiddenByAncestors d n.
Proof. induction n as [|i p IH]; simpl; [done|]. by rewrite prop_erase, IH. Qed.

Lemma getParentWithLabel_erase d n :
  getParentWithLabel (erase d) n = getParentWithLabel d n.
Proof.
  unfold getParentWithLabel.
  rewrite el_id_erase, (querySelector_erase _ _ (blind_label_for _)).
  erewrite (find_up_ext _ _ (parentElement n)); [reflexivity|].
  intros p. rewrite prop_erase, getElementsByTagName_erase. simpl. f_equal.
  apply existsb_ext'. intros l. by rewrite getAttribute_erase.
Qed.

Lemma isElementVisible_erase d n :
  isElementVisible (erase d) n = isElementVisible d n.
Proof.
  unfold isElementVisible.
  rewrite isHiddenByAncestors_erase, getParentWithLabel_erase, !prop_erase, el_id_erase.
  erewrite (find_up_ext _ _ (hit_test _ _)); [reflexivity|].
  intros c. by rewrite prop_erase, getAttribute_erase.
Qed.

Lemma candidates_erase v d : candidates v (erase d) = candidates v d.
Proof. apply querySelectorAll_erase, blind_is_candidate. Qed.

Lemma numbered_erase v d : numbered v (erase d) = numbered v d.
Proof.
  unfold numbered. rewrite candidates_erase.
  apply filter_ext, isElementVisible_erase.
Qed.

Lemma fold_left_ext {A B} (f g : A → B → A) (l : list B) a :
  (∀ x y, f x y = g x y) → fold_left f l a = fold_left g l a.
Proof. intros H. revert a. induction l as [|y l IH]; intros a; simpl; [done|]. by rewrite H, IH. Qed.

Lemma inner_text_erase v d n : inner_text v (erase d) n = inner_text v d n.
Proof.
  unfold inner_text, label_text_4_basic, label_text_35_rich, label_text_3,
    label_text_2, label_text_1, is_span_sibling.
  rewrite nextElementSibling_erase, previousElementSibling_erase, el_id_erase,
    (querySelector_erase _ _ (blind_label_for _)), !getAttribute_erase by done.
  rewrite !prop_erase.
  destruct (querySelector d _), (nextElementSibling d n), (previousElementSibling d n);
    by rewrite ?prop_erase.
Qed.

Lemma fold_add_attr_erase (add : ElementData → string → string → string) x l s :
  (∀ y html attr, attributes y !! attr = attributes x !! attr →
     add y html attr = add x html attr) →
  Forall (λ attr, attr ≠ primary_marker ∧ attr ≠ bbox_marker) l →
  fold_left (add (erase_data x)) l s = fold_left (add x) l s.
Proof.
  intros Hadd Hl. revert s. induction Hl as [|attr l [??] _ IH]; intros s; [done|].
  cbn [fold_left]. rewrite IH. f_equal. apply Hadd. by apply attributes_erase.
Qed.

Lemma basic_attrs_no_marker :
  Forall (λ attr, attr ≠ primary_marker ∧ attr ≠ bbox_marker) basic_attrs.
Proof. repeat constructor; discriminate. Qed.

Lemma rich_attrs_no_marker :
  Forall (λ attr, attr ≠ primary_marker ∧ attr ≠ bbox_marker) rich_attrs.
Proof. repeat constructor; discriminate. Qed.

Lemma simplified_html_erase v d n :
  simplified_html v (erase d) n = simplified_html v d n.
Proof.
  unfold simplified_html. rewrite inner_text_erase, prop_erase.
  destruct v.
  - rewrite (fold_add_attr_erase add_attr_basic); [done| |apply basic_attrs_no_marker].
    intros y html attr Hy. unfold add_attr_basic. by rewrite Hy.
  - rewrite (fold_add_attr_erase add_attr_rich); [done| |apply rich_attrs_no_marker].
    intros y html attr Hy. unfold add_attr_rich. by rewrite Hy.
Qed.

(** ** The numbering loop *)

Lemma agree_refl d : agree d d.
Proof. reflexivity. Qed.

Lemma agree_trans d1 d2 d3 : agree d1 d2 → agree d2 d3 → agree d1 d3.
Proof. unfold agree. congruence. Qed.

Lemma agree_read {A} (F : Document → A) d d' :
  (∀ d, F (erase d) = F d) → agree d d' → F d = F d'.
Proof. intros HF H. rewrite <- (HF d), <- (HF d'). by rewrite H. Qed.

Lemma erase_data_insert name value x :
  name = primary_marker ∨ name = bbox_marker →
  erase_data (set_attributes (insert name value) x) = erase_data x.
Proof.
  intros [-> | ->]; unfold erase_data, set_attributes; simpl; f_equal.
  - by rewrite delete_insert_eq.
  - by rewrite delete_insert_ne, delete_insert_eq.
Qed.

Lemma erase_data_delete name x :
  name = primary_marker ∨ name = bbox_marker →
  erase_data (set_attributes (delete name) x) = erase_data x.
Proof.
  intros [-> | ->]; unfold erase_data, set_attributes; simpl; f_equal.
  - by rewrite delete_delete_eq.
  - by rewrite (delete_delete _ primary_marker), delete_delete_eq.
Qed.

Lemma agree_setAttribute d n name value :
  name = primary_marker ∨ name = bbox_marker →
  agree (setAttribute d n name value) d.
Proof.
  intros H. unfold agree, erase, setAttribute, with_roots. simpl. f_equal.
  apply forest_map_alter. intros x. by apply erase_data_insert.
Qed.

Lemma agree_removeAttribute d n name :
  name = primary_marker ∨ name = bbox_marker →
  agree (removeAttribute d n name) d.
Proof.
  intros H. unfold agree, erase, removeAttribute, with_roots. simpl. f_equal.
  apply forest_map_alter. intros x. by apply erase_data_delete.
Qed.

Lemma agree_remove_markers d name :
  name = primary_marker ∨ name = bbox_marker →
  agree (remove_markers name d) d.
Proof.
  intros H. unfold remove_markers.
  generalize (querySelectorAll d (has_attribute name)). intros l.
  assert (∀ d', agree d' d →
    agree (fold_left (λ d el, removeAttribute d el name) l d') d) as Hl.
  { induction l as [|n l IH]; intros d' Hd'; simpl; [done|].
    apply IH. eapply agree_trans; [by apply agree_removeAttribute | done]. }
  apply Hl, agree_refl.
Qed.

Lemma agree_reset d : agree (reset d) d.
Proof.
  unfold reset. eapply agree_trans; apply agree_remove_markers; auto.
Qed.

Lemma scan_step_visible v d0 st e :
  agree (doc st) d0 → isElementVisible d0 e = true →
  agree (doc (scan_step v st e)) d0
  ∧ visibleIndex (scan_step v st e) = S (visibleIndex st)
  ∧ element_simplified_htmls (scan_step v st e)
    = <[visibleIndex st := simplified_html v d0 e]> (element_simplified_htmls st).
Proof.
  intros Hd Hvis. unfold scan_step.
  rewrite (agree_read (λ d, isElementVisible d e) _ _ (λ d, isElementVisible_erase d e) Hd).
  rewrite Hvis. simpl. split; [|split; [done|]].
  - eapply agree_trans; [apply agree_setAttribute; auto|].
    eapply agree_trans; [apply agree_setAttribute; auto|done].
  - by rewrite (agree_read (λ d, simplified_html v d e) _ _
                  (λ d, simplified_html_erase v d e) Hd).
Qed.

Lemma scan_step_hidden v d0 st e :
  agree (doc st) d0 → isElementVisible d0 e = false → scan_step v st e = st.
Proof.
  intros Hd Hvis. unfold scan_step.
  rewrite (agree_read (λ d, isElementVisible d e) _ _ (λ d, isElementVisible_erase d e) Hd).
  by rewrite Hvis.
Qed.

Lemma scan_loop v d0 es st :
  agree (doc st) d0 →
  let st' := fold_left (scan_step v) es st in
  agree (doc st') d0
  ∧ visibleIndex st' = visibleIndex st + length (List.filter (isElementVisible d0) es)
  ∧ element_simplified_htmls st'
    = assign (visibleIndex st)
        (simplified_html v d0 <$> List.filter (isElementVisible d0) es)
        (element_simplified_htmls st).
Proof.
  revert st. induction es as [|e es IH]; intros st Hd; simpl.
  - split; [done|]. split; [lia|done].
  - destruct (isElementVisible d0 e) eqn:Hvis.
    + destruct (scan_step_visible v d0 st e Hd Hvis) as (Hd' & Hk & Hm).
      destruct (IH _ Hd') as (IH1 & IH2 & IH3).
      split; [done|]. split.
      * rewrite IH2, Hk. simpl. lia.
      * rewrite IH3, Hk, Hm. done.
    + rewrite (scan_step_hidden v d0 st e Hd Hvis). by apply IH.
Qed.

Lemma lookup_assign k descs m i :
  assign k descs m !! i
  = if decide (k ≤ i < k + length descs) then descs !! (i - k) else m !! i.
Proof.
  revert k m. induction descs as [|h descs IH]; intros k m; simpl.
  - rewrite decide_False by lia. done.
  - rewrite IH. destruct (decide (k = i)) as [->|Hne].
    + rewrite decide_False by lia. rewrite lookup_insert_eq.
      rewrite decide_True by lia. by rewrite Nat.sub_diag.
    + rewrite lookup_insert_ne by done.
      destruct (decide (S k ≤ i < S k + length descs)).
      * rewrite decide_True by lia.
        replace (i - k) with (S (i - S k)) by lia. done.
      * rewrite decide_False by lia. done.
Qed.

(** What the indexer returns, and that it changes markers only. *)
Lemma scan_spec v d :
  agree (scan v d).1 d
  ∧ ∀ h, (scan v d).2 !! h = simplified_html v d <$> (numbered v d !! h).
Proof.
  unfold scan. cbn [fst snd].
  pose proof (agree_reset d) as Hr.
  destruct (scan_loop v (reset d) (candidates v (reset d))
              {| doc := reset d; element_simplified_htmls := ∅; visibleIndex := 0 |}
              (agree_refl _)) as (H1 & _ & H3).
  split; [by eapply agree_trans|].
  intros h. rewrite H3. cbn [visibleIndex element_simplified_htmls].
  rewrite lookup_assign, lookup_empty, Nat.sub_0_r.
  change (List.filter (isElementVisible (reset d)) (candidates v (reset d)))
    with (numbered v (reset d)).
  rewrite (agree_read (numbered v) _ _ (numbered_erase v) Hr).
  rewrite list_lookup_fmap.
  assert (∀ n, simplified_html v (reset d) n = simplified_html v d n) as Hs.
  { intros n. apply (agree_read (λ d, simplified_html v d n)); [|done].
    intros. apply simplified_html_erase. }
  destruct (numbered v d !! h) as [e|] eqn:He; simpl.
  - rewrite Hs, decide_True; [done|].
    rewrite length_fmap. apply lookup_lt_Some in He. lia.
  - by destruct (decide _).
Qed.

(** ** Attributes after a write *)

Lemma prop_alter d n h m :
  prop (with_roots d (forest_alter (on_data h) (rev n) (roots d))) m
  = match getElement d m with
    | Some e => (if decide (n = m) then h else id) (el_data e)
    | None => no_data
    end.
Proof.
  unfold prop, getElement. cbn [roots with_roots].
  pose proof (forest_lookup_alter_data h (rev n) (rev m) (roots d)) as H.
  destruct (forest_lookup (rev m) (roots d)) as [e|];
    destruct (forest_lookup (rev m) (forest_alter _ _ _)) as [e'|];
    simplify_eq/=; [|done].
  destruct (decide (rev n = rev m)) as [Heq|Hne].
  - apply (f_equal (@rev nat)) in Heq. rewrite !rev_involutive in Heq.
    subst m. by rewrite decide_True.
  - rewrite decide_False; [done|]. congruence.
Qed.

Lemma getAttribute_setAttribute_ne_name d n name value m name' :
  name ≠ name' →
  getAttribute (setAttribute d n name value) m name' = getAttribute d m name'.
Proof.
  intros Hne. unfold getAttribute, setAttribute. rewrite prop_alter.
  unfold prop. destruct (getElement d m) as [e|]; [|done].
  case_decide; [|reflexivity]. simpl. by rewrite lookup_insert_ne.
Qed.

Lemma getAttribute_setAttribute_ne_node d n name value m name' :
  n ≠ m →
  getAttribute (setAttribute d n name value) m name' = getAttribute d m name'.
Proof.
  intros Hne. unfold getAttribute, setAttribute. rewrite prop_alter.
  unfold prop. destruct (getElement d m) as [e|]; [|done].
  by rewrite decide_False.
Qed.

Lemma getAttribute_setAttribute_inv d n name value m w :
  getAttribute (setAttribute d n name value) m name = Some w →
  (m = n ∧ w = value) ∨ getAttribute d m name = Some w.
Proof.
  unfold getAttribute, setAttribute. rewrite prop_alter.
  unfold prop. destruct (getElement d m) as [e|]; [|done].
  case_decide; [|by right]. simpl.
  rewrite lookup_insert_eq. intros [= <-]. by left.
Qed.

Lemma getAttribute_setAttribute_eq d n name value :
  is_Some (getElement d n) →
  getAttribute (setAttribute d n name value) n name = Some value.
Proof.
  intros [e He]. unfold getAttribute, setAttribute. rewrite prop_alter, He.
  rewrite decide_True by done. simpl. by rewrite lookup_insert_eq.
Qed.

Lemma getAttribute_removeAttribute d n name m name' :
  getAttribute (removeAttribute d n name) m name'
  = if decide (n = m ∧ name = name') then None else getAttribute d m name'.
Proof.
  unfold getAttribute, removeAttribute. rewrite prop_alter.
  unfold prop. destruct (getElement d m) as [e|]; simpl.
  - case_decide as Hnm; [subst m|]; simpl.
    + destruct (decide (name = name')) as [->|].
      * rewrite decide_True; [|done]. by rewrite lookup_delete_eq.
      * rewrite decide_False; [|intros [_ ?]; done]. by rewrite lookup_delete_ne.
    + rewrite decide_False; [done|]. intros [? _]. done.
  - by case_decide.
Qed.

Lemma all_elements_agree d d' : agree d d' → all_elements d = all_elements d'.
Proof. apply agree_read, all_elements_erase. Qed.

Lemma getAttribute_remove_list name l d m name' :
  getAttribute (fold_left (λ d el, removeAttribute d el name) l d) m name'
  = if decide (m ∈ l ∧ name = name') then None else getAttribute d m name'.
Proof.
  revert d. induction l as [|n l IH]; intros d; cbn [fold_left].
  - rewrite decide_False; [done|]. intros [?%elem_of_nil _]. done.
  - rewrite IH, getAttribute_removeAttribute.
    destruct (decide (m ∈ l ∧ name = name')) as [[??]|Hl].
    + rewrite decide_True; [done|]. split; [by right|done].
    + destruct (decide (n = m ∧ name = name')) as [[-> ->]|Hn].
      * rewrite decide_True; [done|]. split; [by left|done].
      * rewrite decide_False; [done|].
        intros [[->|?]%elem_of_cons ?]; [apply Hn|apply Hl]; done.
Qed.

Lemma getAttribute_Some_listed d m name w :
  getAttribute d m name = Some w → In m (all_elements d).
Proof.
  unfold getAttribute, prop, all_elements, getElement.
  destruct (forest_lookup (rev m) (roots d)) as [e|] eqn:He; [|done].
  intros _. apply forest_lookup_paths in He.
  apply list_elem_of_In, list_elem_of_fmap. exists (rev m).
  by rewrite rev_involutive.
Qed.

Lemma getAttribute_remove_markers_eq name d m :
  getAttribute (remove_markers name d) m name = None.
Proof.
  unfold remove_markers. rewrite getAttribute_remove_list.
  destruct (decide _) as [|Hn]; [done|].
  destruct (getAttribute d m name) as [w|] eqn:Hw; [|done].
  destruct Hn. split; [|done]. apply list_elem_of_In, filter_In. split.
  - by apply getAttribute_Some_listed in Hw.
  - unfold has_attribute. apply bool_decide_eq_true. unfold getAttribute in Hw. eauto.
Qed.

Lemma getAttribute_remove_markers_ne name d m name' :
  name ≠ name' → getAttribute (remove_markers name d) m name' = getAttribute d m name'.
Proof.
  intros Hne. unfold remove_markers. rewrite getAttribute_remove_list.
  rewrite decide_False; [done|]. intros [_ ?]. done.
Qed.

(** After the reset no element carries a marker. *)
Lemma getAttribute_reset d m name :
  name = primary_marker ∨ name = bbox_marker →
  getAttribute (reset d) m name = None.
Proof.
  intros [-> | ->]; unfold reset.
  - rewrite getAttribute_remove_markers_ne by done.
    apply getAttribute_remove_markers_eq.
  - apply getAttribute_remove_markers_eq.
Qed.

(** The markers that the loop leaves on the document were written by it:
    their handles are below the counter. *)
Lemma scan_loop_markers v d0 es st :
  agree (doc st) d0 →
  (∀ m name w, name = primary_marker ∨ name = bbox_marker →
     getAttribute (doc st) m name = Some w →
     ∃ h, h < visibleIndex st ∧ w = marker_value h) →
  ∀ m name w, name = primary_marker ∨ name = bbox_marker →
    getAttribute (doc (fold_left (scan_step v) es st)) m name = Some w →
    ∃ h, h < visibleIndex (fold_left (scan_step v) es st) ∧ w = marker_value h.
Proof.
  revert st. induction es as [|e es IH]; intros st Hd Hinv; [done|].
  simpl. destruct (isElementVisible d0 e) eqn:Hvis.
  - destruct (scan_step_visible v d0 st e Hd Hvis) as (Hd' & Hk & _).
    apply IH; [done|]. intros m name w Hname. rewrite Hk.
    unfold scan_step.
    rewrite (agree_read (λ d, isElementVisible d e) _ _ (λ d, isElementVisible_erase d e) Hd).
    rewrite Hvis. cbn [doc].
    assert (∀ d n nm, getAttribute (setAttribute d n nm (marker_value (visibleIndex st))) m name = Some w →
              w = marker_value (visibleIndex st) ∨ getAttribute d m name = Some w) as Hset.
    { intros d n nm. destruct (decide (nm = name)) as [->|].
      - intros [[_ ->]|?]%getAttribute_setAttribute_inv; auto.
      - rewrite getAttribute_setAttribute_ne_name by done. by right. }
    intros [->|[->|Hw]%Hset]%Hset; [exists (visibleIndex st); split; [lia|done]..|].
    destruct (Hinv _ _ _ Hname Hw) as (h & ? & ->). exists h. split; [lia|done].
  - rewrite (scan_step_hidden v d0 st e Hd Hvis). by apply IH.
Qed.

(** The basic indexer writes the primary marker on visible candidates
    only. *)
Lemma scan_loop_primary d0 es st e0 :
  agree (doc st) d0 → isElementVisible d0 e0 = false →
  getAttribute (doc (fold_left (scan_step Basic) es st)) e0 primary_marker
  = getAttribute (doc st) e0 primary_marker.
Proof.
  intros Hd Hvis0. revert st Hd. induction es as [|e es IH]; intros st Hd; [done|].
  simpl. destruct (isElementVisible d0 e) eqn:Hvis.
  - destruct (scan_step_visible Basic d0 st e Hd Hvis) as (Hd' & _ & _).
    rewrite IH by done. unfold scan_step.
    rewrite (agree_read (λ d, isElementVisible d e) _ _ (λ d, isElementVisible_erase d e) Hd).
    rewrite Hvis. cbn [doc primary_target].
    rewrite getAttribute_setAttribute_ne_name by done.
    apply getAttribute_setAttribute_ne_node. congruence.
  - rewrite (scan_step_hidden Basic d0 st e Hd Hvis). by apply IH.
Qed.

(** ** Handles *)

Lemma contains_suffix a b : contains a b = true ↔ a `suffix_of` b.
Proof.
  unfold contains. rewrite bool_decide_eq_true. split.
  - intros H. exists (take (length b - length a) b).
    pose proof (take_drop (length b - length a) b) as E.
    rewrite H in E. done.
  - intros [k ->]. rewrite length_app.
    replace (length k + length a - length a) with (length k) by lia.
    by rewrite drop_app_length.
Qed.

Lemma contains_refl a : contains a a = true.
Proof. by apply contains_suffix. Qed.

Lemma numbered_In v d e :
  In e (numbered v d) ↔ In e (candidates v d) ∧ isElementVisible d e = true.
Proof. apply filter_In. Qed.

Lemma candidates_In v d e :
  In e (candidates v d) ↔ In e (all_elements d) ∧ is_candidate v (prop d e) = true.
Proof. apply filter_In. Qed.

(** C1.  The map returned by a scan has exactly the keys 0, ..., N-1,
    where N is the number of candidates that pass the visibility filter:
    the key h holds the description of the h-th such candidate in document
    order, and there is no other key. *)
Theorem scan_density v d :
  dom (scan v d).2 = set_seq 0 (length (numbered v d))
  ∧ size (scan v d).2 = length (numbered v d)
  ∧ ∀ h, (scan v d).2 !! h = simplified_html v d <$> numbered v d !! h.
Proof.
  destruct (scan_spec v d) as [_ Hm].
  assert (dom (scan v d).2 = set_seq 0 (length (numbered v d))) as Hdom.
  { apply set_eq. intros h. rewrite elem_of_dom, Hm, elem_of_set_seq, fmap_is_Some.
    rewrite lookup_lt_is_Some. lia. }
  split; [done|]. split; [|done].
  by rewrite <- size_dom, Hdom, size_set_seq.
Qed.

(** ** The visibility filter *)

Lemma isHiddenByAncestors_true d e :
  isHiddenByAncestors d e = true ↔ ∃ a, ancestor_or_self a e ∧ hidden_style d a.
Proof.
  unfold ancestor_or_self, hidden_style. induction e as [|i p IH]; simpl.
  - split; [done|]. intros (a & [Ha Hs] & _).
    apply contains_suffix, suffix_nil_inv in Hs. done.
  - destruct (bool_decide (display _ = "none") || bool_decide (visibility _ = "hidden")) eqn:Hh.
    + split; [|done]. intros _. exists (i :: p). split; [split; [done|apply contains_refl]|].
      apply orb_true_iff in Hh as [?%bool_decide_eq_true | ?%bool_decide_eq_true]; auto.
    + rewrite IH. split.
      * intros (a & [Ha Hs] & Hst). exists a. split; [split; [done|]|done].
        apply contains_suffix. apply contains_suffix in Hs. by apply suffix_cons_r.
      * intros (a & [Ha Hs] & Hst). destruct a as [|x a]; [done|].
        apply contains_suffix, suffix_cons_inv in Hs as [[= -> ->]|Hs].
        -- apply orb_false_iff in Hh as [?%bool_decide_eq_false ?%bool_decide_eq_false].
           destruct Hst; done.
        -- exists (x :: a). split; [split; [done|]|done]. by apply contains_suffix.
Qed.

Lemma in_viewport_true d rect : in_viewport d rect = true ↔ within_viewport d rect.
Proof.
  unfold in_viewport, within_viewport.
  rewrite !andb_true_iff, !Qle_bool_iff. tauto.
Qed.

Lemma scan_primary_of_hidden d e :
  isElementVisible d e = false →
  getAttribute (scan Basic d).1 e primary_marker = None.
Proof.
  intros Hvis. unfold scan. cbn [fst].
  rewrite (scan_loop_primary d) by (apply agree_reset || done).
  cbn [doc]. apply getAttribute_reset; auto.
Qed.

Lemma not_visible_out_of_viewport d e :
  is_toggle (prop d e) = false →
  ¬ within_viewport d (boundingClientRect (prop d e)) →
  isElementVisible d e = false.
Proof.
  intros Ht Hv.
  assert (in_viewport d (boundingClientRect (prop d e)) = false) as Hv'.
  { apply not_true_is_false. by rewrite in_viewport_true. }
  unfold isElementVisible, isSmallFormElement. rewrite Ht, Hv'. cbn [andb negb].
  repeat match goal with |- context [if ?c then _ else _] => destruct c end; done.
Qed.

(** C3 (amended).  A candidate that is hidden by its own style or by the
    style of an ancestor receives no handle; a candidate other than a
    checkbox or radio input whose box does not lie entirely within the
    viewport receives no handle.  Such a candidate is rejected by the
    filter, is not among the numbered elements, and carries no primary
    marker after a scan of the basic indexer. *)
Theorem scan_excludes_hidden v d e :
  In e (candidates v d) →
  (∃ a, ancestor_or_self a e ∧ hidden_style d a)
  ∨ (is_toggle (prop d e) = false
     ∧ ¬ within_viewport d (boundingClientRect (prop d e))) →
  isElementVisible d e = false
  ∧ ¬ In e (numbered v d)
  ∧ (∀ h, numbered v d !! h ≠ Some e)
  ∧ getAttribute (scan Basic d).1 e primary_marker = None.
Proof.
  intros He Hex.
  assert (isElementVisible d e = false) as Hvis.
  { destruct Hex as [Hh | [Ht Hv]].
    - apply isHiddenByAncestors_true in Hh. unfold isElementVisible. by rewrite Hh.
    - by apply not_visible_out_of_viewport. }
  assert (¬ In e (numbered v d)) as Hn.
  { rewrite numbered_In, Hvis. intros [_ ?]. done. }
  split; [done|]. split; [done|]. split.
  - intros h Hh. apply Hn, list_elem_of_In, list_elem_of_lookup. eauto.
  - by apply scan_primary_of_hidden.
Qed.

Lemma scan_excludes_hidden_witness :
  isElementVisible hidden_button_page [0; 1; 0] = false
  ∧ ¬ In [0; 1; 0] (numbered Basic hidden_button_page)
  ∧ (∀ h, numbered Basic hidden_button_page !! h ≠ Some [0; 1; 0])
  ∧ getAttribute (scan Basic hidden_button_page).1 [0; 1; 0] primary_marker = None.
Proof.
  apply (scan_excludes_hidden Basic hidden_button_page [0; 1; 0]).
  - vm_compute. auto 20.
  - left. exists [0; 1; 0]. split; [split; [done|reflexivity]|]. left. reflexivity.
Defined.

(** C3, as stated, fails for a checkbox that reaches out of the viewport:
    it is a candidate, its box does not lie within the viewport, and yet
    it is numbered 0 and described in the returned map. *)
Lemma scan_includes_offscreen_toggle :
  In [0; 1; 0] (candidates Basic offscreen_toggle_page)
  ∧ ¬ within_viewport offscreen_toggle_page
        (boundingClientRect (prop offscreen_toggle_page [0; 1; 0]))
  ∧ numbered Basic offscreen_toggle_page !! 0 = Some [0; 1; 0]
  ∧ (scan Basic offscreen_toggle_page).2 !! 0 = Some "<input></input>"
  ∧ getAttribute (scan Basic offscreen_toggle_page).1 [0; 1; 0] primary_marker
    = Some "gwa-element-0".
Proof.
  split; [vm_compute; auto 20|]. split.
  - intros [H _]. apply Qle_bool_iff in H. vm_compute in H. discriminate.
  - repeat split; vm_compute; reflexivity.
Qed.

(** C4 (amended).  A checkbox or radio input of at most 1 by 1 pixel that
    is not hidden, is a target of pointer events, whose parent with the
    label is wider and higher than 1 pixel and at whose centre the hit
    test finds its label or an element that contains it, passes the
    filter and is numbered.  It is rejected when its parent with the label
    is another element of a width or height of at most 1 pixel. *)
Theorem small_toggle_exemption v d e :
  isSmallFormElement (prop d e) = true →
  let parentRect := boundingClientRect (prop d (getParentWithLabel d e)) in
  let elementAtPoint := hit_test d (boundingClientRect (prop d e)) in
  (In e (all_elements d) →
   isHiddenByAncestors d e = false →
   pointerEvents (prop d e) ≠ "none" →
   (1 < rect_width parentRect)%Q → (1 < rect_height parentRect)%Q →
   elementAtPoint ≠ [] →
   label_for (el_id d e) (prop d elementAtPoint) = true
   ∨ contains elementAtPoint e = true →
   isElementVisible d e = true ∧ In e (numbered v d))
  ∧ (getParentWithLabel d e ≠ e →
     (rect_width parentRect <= 1)%Q ∨ (rect_height parentRect <= 1)%Q →
     isElementVisible d e = false ∧ ¬ In e (numbered v d)).
Proof.
  intros Hsmall parentRect elementAtPoint.
  assert (is_toggle (prop d e) = true) as Ht.
  { unfold isSmallFormElement in Hsmall.
    by apply andb_true_iff in Hsmall as [[? _]%andb_true_iff _]. }
  split.
  - intros He Hh Hpe Hw Hhg Hhit Hland.
    assert (isElementVisible d e = true) as Hvis.
    { unfold isElementVisible. rewrite Hh, Hsmall, Ht.
      rewrite (bool_decide_eq_false_2 _ Hpe). cbn [negb andb].
      fold parentRect elementAtPoint.
      assert (Qle_bool (rect_width parentRect) 1 = false) as ->.
      { apply not_true_is_false. rewrite Qle_bool_iff. by apply Qlt_not_le. }
      assert (Qle_bool (rect_height parentRect) 1 = false) as ->.
      { apply not_true_is_false. rewrite Qle_bool_iff. by apply Qlt_not_le. }
      rewrite andb_false_r.
      destruct elementAtPoint as [|i p] eqn:Hp; [done|]. cbn [find_up].
      assert ((bool_decide (tagName (prop d (i :: p)) = "label")
               && bool_decide (getAttribute d (i :: p) "for" = Some (el_id d e)))
              || contains (i :: p) e = true) as ->; [|done].
      destruct Hland as [Hl | Hc]; [|by rewrite Hc, orb_true_r].
      unfold label_for in Hl. unfold getAttribute. by rewrite Hl. }
    split; [done|]. apply numbered_In. split; [|done].
    apply candidates_In. split; [done|].
    unfold is_candidate. unfold is_toggle in Ht.
    apply andb_true_iff in Ht as [->%bool_decide_eq_true _]. done.
  - intros Hne Hsize.
    assert (isElementVisible d e = false) as Hvis.
    { unfold isElementVisible. rewrite Hsmall.
      rewrite (bool_decide_eq_false_2 _ Hne). cbn [negb andb].
      fold parentRect.
      assert (Qle_bool (rect_width parentRect) 1 || Qle_bool (rect_height parentRect) 1 = true) as ->.
      { apply orb_true_iff. by rewrite !Qle_bool_iff. }
      by repeat match goal with |- context [if ?c then _ else _] => destruct c end. }
    split; [done|]. rewrite numbered_In, Hvis. intros [_ ?]. done.
Qed.

Lemma small_toggle_exemption_witness :
  (isElementVisible labelled_toggle_page [0; 0; 1; 0] = true
   ∧ In [0; 0; 1; 0] (numbered Basic labelled_toggle_page))
  ∧ (isElementVisible collapsed_label_page [0; 0; 1; 0] = false
     ∧ ¬ In [0; 0; 1; 0] (numbered Basic collapsed_label_page)).
Proof.
  split.
  - apply (small_toggle_exemption Basic labelled_toggle_page [0; 0; 1; 0]);
      try reflexivity; try (vm_compute; auto 20; fail); try discriminate.
  - apply (small_toggle_exemption Basic collapsed_label_page [0; 0; 1; 0]);
      try reflexivity; try discriminate.
    left. vm_compute. discriminate.
Defined.

(** C4, as stated, fails on both sides: a small checkbox in a label of
    100 by 20 pixels, with the hit test on the label, is rejected when it
    is no target of pointer events; and a small checkbox that is its own
    parent with the label, of width 0, passes the filter. *)
Lemma small_toggle_counterexample :
  (isSmallFormElement (prop inert_toggle_page [0; 0; 1; 0]) = true
   ∧ getParentWithLabel inert_toggle_page [0; 0; 1; 0] = [0; 1; 0]
   ∧ boundingClientRect (prop inert_toggle_page [0; 1; 0]) = box 10 10 100 20
   ∧ hit_test inert_toggle_page
       (boundingClientRect (prop inert_toggle_page [0; 0; 1; 0])) = [0; 1; 0]
   ∧ contains [0; 1; 0] [0; 0; 1; 0] = true
   ∧ isElementVisible inert_toggle_page [0; 0; 1; 0] = false)
  ∧ (isSmallFormElement (prop bare_toggle_page [0; 0; 1; 0]) = true
     ∧ getParentWithLabel bare_toggle_page [0; 0; 1; 0] = [0; 0; 1; 0]
     ∧ boundingClientRect (prop bare_toggle_page [0; 0; 1; 0]) = box 10 10 0 0
     ∧ isElementVisible bare_toggle_page [0; 0; 1; 0] = true
     ∧ (scan Basic bare_toggle_page).2 !! 0 = Some "<input></input>").
Proof. repeat split; vm_compute; reflexivity. Qed.

(** ** The parent with the label and the bbox marker *)

Lemma find_up_Some P x r :
  find_up P x = Some r → r ≠ [] ∧ P r = true ∧ r `suffix_of` x.
Proof.
  induction x as [|i x IH]; simpl; [done|].
  destruct (P (i :: x)) eqn:HP.
  - intros [= <-]. done.
  - intros (? & ? & ?)%IH. split; [done|]. split; [done|]. by apply suffix_cons_r.
Qed.

Lemma getParentWithLabel_cases d e :
  getParentWithLabel d e = e
  ∨ ancestor_or_self (getParentWithLabel d e) (parentElement e).
Proof.
  unfold getParentWithLabel, ancestor_or_self.
  assert (∀ P r, find_up P (parentElement e) = Some r →
            r ≠ [] ∧ contains r (parentElement e) = true) as Hup.
  { intros P r (? & _ & ?%contains_suffix)%find_up_Some. done. }
  set (wraps := λ parent : node, _ || existsb _ _).
  assert (match find_up wraps (parentElement e) with
          | Some parent => parent
          | None => e
          end = e
          ∨ match find_up wraps (parentElement e) with
            | Some parent => parent
            | None => e
            end ≠ [] ∧
            contains match find_up wraps (parentElement e) with
                     | Some parent => parent
                     | None => e
                     end (parentElement e) = true) as Hwraps.
  { destruct (find_up wraps _) as [r|] eqn:Hr; [right; by eapply Hup|by left]. }
  destruct (if bool_decide (el_id d e ≠ "") then _ else _) as [r|] eqn:Hb;
    [|exact Hwraps].
  right. destruct (bool_decide (el_id d e ≠ "")); [|done].
  destruct (querySelector d _) as [l|]; [|done]. by eapply Hup.
Qed.

Lemma ancestor_of_parent a e : ancestor_or_self a (parentElement e) → ancestor_or_self a e.
Proof.
  unfold ancestor_or_self. intros [? Hs]. split; [done|].
  apply contains_suffix. apply contains_suffix in Hs.
  destruct e as [|i p]; [done|]. by apply suffix_cons_r.
Qed.

Lemma bbox_target_cases d e :
  bbox_target d e = e ∨ ancestor_or_self (bbox_target d e) (parentElement e).
Proof.
  unfold bbox_target. destruct (is_form_control _); [|by left].
  apply getParentWithLabel_cases.
Qed.

Lemma marker_value_inj h h' : marker_value h = marker_value h' → h = h'.
Proof. unfold marker_value. intros H. by apply (inj _), (inj pretty) in H. Qed.





(** C2: the code fails the claim.  In a container with two labelled text
    fields both fields are numbered, and both have the container as their
    parent with the label; the bbox marker of the handle 0 is overwritten
    by that of the handle 1, so that no element carries the bbox marker of
    the handle 0. *)
Theorem scan_loses_bbox_marker v :
  let d := (scan v two_fields_page).1 in
  numbered v two_fields_page = [[1; 0; 1; 0]; [3; 0; 1; 0]]
  ∧ dom (scan v two_fields_page).2 = {[0; 1]}
  ∧ getParentWithLabel two_fields_page [1; 0; 1; 0] = [0; 1; 0]
  ∧ getParentWithLabel two_fields_page [3; 0; 1; 0] = [0; 1; 0]
  ∧ querySelector d (marked_as bbox_marker (JS.Int 0)) = None
  ∧ querySelectorAll d (has_attribute bbox_marker) = [[0; 1; 0]]
  ∧ getAttribute d [0; 1; 0] bbox_marker = Some "gwa-element-1".
Proof. destruct v; repeat split; vm_compute; reflexivity. Qed.

(** ** The text of an input *)

Lemma first_nonempty_cons s rest :
  first_nonempty (s :: rest) = if bool_decide (s = "") then first_nonempty rest else s.
Proof. reflexivity. Qed.

Lemma or_else_first_nonempty a b : JS.or_else a (JS.or_else b "") = first_nonempty [a; b].
Proof. destruct a, b; reflexivity. Qed.

Lemma label_text_2_spec d e t :
  label_text_2 d e t = first_nonempty [t; wrapping_label_text d e].
Proof.
  unfold label_text_2, wrapping_label_text. rewrite !first_nonempty_cons.
  destruct (bool_decide (t = "")) eqn:Ht; simpl; [|done].
  destruct (negb _ && _); simpl; [|by apply bool_decide_eq_true in Ht].
  by destruct (bool_decide (clean_text _ = "")) eqn:Hc; [apply bool_decide_eq_true in Hc|].
Qed.

Lemma label_text_3_spec d e t :
  label_text_3 d e t = first_nonempty [t; span_sibling_text d e].
Proof.
  unfold label_text_3, span_sibling_text, sibling_text, is_span_sibling.
  rewrite !first_nonempty_cons. cbn [first_nonempty negb orb].
  destruct (bool_decide (t = "")) eqn:Ht; [|done].
  apply bool_decide_eq_true in Ht as ->.
  destruct (nextElementSibling d e) as [s|], (previousElementSibling d e) as [s'|];
    repeat match goal with
    | |- context [bool_decide ?P] => destruct (bool_decide P) eqn:?
    end; try done;
    repeat match goal with H : bool_decide _ = true |- _ => apply bool_decide_eq_true in H end;
    congruence.
Qed.

Lemma first_nonempty_app l l' :
  first_nonempty (first_nonempty l :: l') = first_nonempty (l ++ l').
Proof.
  induction l as [|a l IH]; simpl; [done|].
  destruct (bool_decide (a = "")) eqn:Ha; [done|]. by rewrite Ha.
Qed.

Lemma first_nonempty_singleton a : first_nonempty [a] = a.
Proof.
  simpl. destruct (bool_decide (a = "")) eqn:Ha; [|done].
  by apply bool_decide_eq_true in Ha.
Qed.

Lemma label_text_4_basic_spec d e t :
  label_text_4_basic d e t = first_nonempty [t; value_or_placeholder d e].
Proof.
  unfold label_text_4_basic, value_or_placeholder. rewrite or_else_first_nonempty.
  rewrite (first_nonempty_cons t). destruct (bool_decide (t = "")); [|done].
  by rewrite (first_nonempty_app _ []), app_nil_r.
Qed.

Lemma label_text_35_rich_spec d e t :
  label_text_35_rich d e t = first_nonempty [t; next_sibling_text d e].
Proof.
  unfold label_text_35_rich, next_sibling_text. rewrite (first_nonempty_cons t).
  destruct (bool_decide (t = "")) eqn:Ht; [|done].
  apply bool_decide_eq_true in Ht as ->.
  destruct (nextElementSibling d e) as [s|]; [|done].
  by rewrite first_nonempty_singleton.
Qed.

Lemma inner_text_spec v d e :
  inner_text v d e
  = if bool_decide (tagName (prop d e) = "input")
       && bool_decide (own_text v (prop d e) = "")
    then input_label_text v d e
    else own_text v (prop d e).
Proof.
  unfold inner_text, input_label_text.
  change (match v with
          | Basic => clean_text (textContent (prop d e))
          | Rich => innerText (prop d e)
          end) with (own_text v (prop d e)).
  destruct (_ && _); [|done].
  destruct v.
  - rewrite label_text_4_basic_spec, label_text_3_spec, label_text_2_spec.
    by repeat (rewrite first_nonempty_app; cbn [app]).
  - rewrite label_text_35_rich_spec, label_text_3_spec, label_text_2_spec.
    by repeat (rewrite first_nonempty_app; cbn [app]).
Qed.




(** ** The attributes of the description *)

Lemma length_append s t : JS.length (s +:+ t) = JS.length s + JS.length t.
Proof.
  induction s as [|c s IH]; [done|].
  change (S (JS.length (s +:+ t)) = S (JS.length s + JS.length t)). by rewrite IH.
Qed.

Lemma length_substring0 n s : n ≤ JS.length s → JS.length (JS.substring0 n s) = n.
Proof.
  revert s. induction n as [|n IH]; intros [|c s] Hn; simpl in *; try done; try lia.
  rewrite IH; [done|lia].
Qed.

Lemma substring0_drop n s : JS.substring0 n s +:+ JS.drop n s = s.
Proof.
  revert s. induction n as [|n IH]; intros [|c s]; try done.
  change (String c (JS.substring0 n s +:+ JS.drop n s) = String c s).
  by rewrite IH.
Qed.

Lemma append_assoc (s t u : string) : (s +:+ t) +:+ u = s +:+ (t +:+ u).
Proof.
  induction s as [|c s IH]; [done|].
  change (String c ((s +:+ t) +:+ u) = String c (s +:+ (t +:+ u))). by rewrite IH.
Qed.

Lemma append_empty_r (s : string) : s +:+ "" = s.
Proof.
  induction s as [|c s IH]; [done|].
  change (String c (s +:+ "") = String c s). by rewrite IH.
Qed.

Lemma fold_add_attr_rich x l s :
  fold_left (add_attr_rich x) l s
  = s +:+ concat_all
            ((λ attr, match attributes x !! attr with
                      | Some attrValue => render_attr attr attrValue
                      | None => ""
                      end) <$> l).
Proof.
  revert s. induction l as [|attr l IH]; intros s.
  - simpl. by rewrite append_empty_r.
  - cbn [fold_left fmap list_fmap concat_all]. rewrite IH. unfold add_attr_rich.
    destruct (attributes x !! attr); [by rewrite append_assoc|done].
Qed.

Lemma truncate_long value :
  50 < JS.length value → truncate_value value = JS.substring0 47 value +:+ "...".
Proof.
  intros H. unfold truncate_value.
  rewrite (proj2 (Nat.ltb_lt _ _) H), andb_true_r.
  rewrite bool_decide_eq_true_2; [done|]. intros ->. simpl in H. lia.
Qed.

Lemma truncate_short value :
  JS.length value ≤ 50 → truncate_value value = value.
Proof.
  intros H. unfold truncate_value.
  rewrite (proj2 (Nat.ltb_ge _ _) H). by rewrite andb_false_r.
Qed.

Lemma normalize_nonempty attr value : value ≠ "" → normalize_value attr value = value.
Proof. intros H. unfold normalize_value. by rewrite (bool_decide_eq_false_2 _ H). Qed.

(** C9 (amended).  In the text that the attribute loop of the rich
    indexer appends, a value of more than 50 characters appears as its
    first 47 characters followed by three dots, 50 characters in all; a
    value of 1 to 50 characters appears unmodified; an empty value appears
    as the literal true for a boolean attribute, as the empty value for
    value, alt, placeholder, title and href, and not at all otherwise.  The
    description is that text between the tag name and the inner text,
    with every run of space characters collapsed and the ends trimmed. *)
Theorem attribute_truncation attr value :
  (50 < JS.length value →
     render_attr attr value
     = attribute_text attr (JS.substring0 47 value +:+ "...")
     ∧ JS.length (JS.substring0 47 value +:+ "...") = 50
     ∧ JS.length (JS.substring0 47 value) = 47
     ∧ JS.substring0 47 value +:+ JS.drop 47 value = value)
  ∧ (value ≠ "" → JS.length value ≤ 50 →
     render_attr attr value = attribute_text attr value)
  ∧ render_attr attr ""
    = (if bool_decide (attr ∈ boolean_attrs) then attribute_text attr "true"
       else if bool_decide (attr ∈ kept_when_empty) then attribute_text attr ""
       else "")
  ∧ ∀ d e,
      simplified_html Rich d e
      = JS.trim (JS.collapse_spaces
          (("<" +:+ tagName (prop d e) +:+ rendered_attributes (prop d e))
           +:+ ">" +:+ inner_text Rich d e +:+ "</" +:+ tagName (prop d e) +:+ ">")).
Proof.
  split; [|split; [|split]].
  - intros Hlen.
    assert (value ≠ "") as Hne by (intros ->; simpl in Hlen; lia).
    unfold render_attr. rewrite (normalize_nonempty _ _ Hne).
    rewrite (bool_decide_eq_true_2 _ Hne). cbn [orb].
    rewrite (truncate_long _ Hlen).
    split; [done|]. split; [|split].
    + rewrite length_append, length_substring0 by lia. reflexivity.
    + apply length_substring0. lia.
    + apply substring0_drop.
  - intros Hne Hlen. unfold render_attr. rewrite (normalize_nonempty _ _ Hne).
    rewrite (bool_decide_eq_true_2 _ Hne). cbn [orb].
    by rewrite (truncate_short _ Hlen).
  - unfold render_attr, normalize_value. cbn [bool_decide andb].
    rewrite (bool_decide_eq_true_2 ("" = "")) by done. cbn [andb].
    destruct (bool_decide (attr ∈ boolean_attrs)); [reflexivity|].
    rewrite (bool_decide_eq_false_2 ("" ≠ "")) by (intros H; by apply H).
    cbn [orb]. by destruct (bool_decide (attr ∈ kept_when_empty)).
  - intros d e. unfold simplified_html, rendered_attributes.
    by rewrite fold_add_attr_rich, !append_assoc.
Qed.

Lemma attribute_truncation_witness :
  (render_attr "title" long_title
   = attribute_text "title" (JS.substring0 47 long_title +:+ "...")
   ∧ JS.length (JS.substring0 47 long_title +:+ "...") = 50
   ∧ JS.length (JS.substring0 47 long_title) = 47
   ∧ JS.substring0 47 long_title +:+ JS.drop 47 long_title = long_title)
  ∧ render_attr "title" "Go" = attribute_text "title" "Go".
Proof.
  split.
  - apply (attribute_truncation "title" long_title). vm_compute. lia.
  - apply (attribute_truncation "title" "Go"); [discriminate|vm_compute; lia].
Defined.

(** C9, as stated, fails for values of at most 50 characters, which are
    not always rendered unmodified: the empty value of a boolean attribute
    is rendered as true.  It also fails in the description itself for a
    longer value that holds a run of spaces: of the title of 60
    characters, 46 characters and the three dots are left. *)
Lemma attribute_truncation_counterexample :
  JS.length "" ≤ 50
  ∧ render_attr "checked" "" = attribute_text "checked" "true"
  ∧ (scan Rich checked_box_page).2 !! 0
    = Some ("<input type=" +:+ dquote +:+ "checkbox" +:+ dquote
            +:+ " checked=" +:+ dquote +:+ "true" +:+ dquote +:+ "></input>")
  ∧ JS.length long_title = 60
  ∧ (scan Rich long_title_page).2 !! 0
    = Some ("<button title=" +:+ dquote +:+ "Go " +:+ repeat_char "x" 43 +:+ "..."
            +:+ dquote +:+ ">OK</button>")
  ∧ JS.substring0 47 long_title = "Go  " +:+ repeat_char "x" 43.
Proof. repeat split; vm_compute; (reflexivity || lia). Qed.

(** ** The renderer *)

Lemma list_find_alter_fst {A} (P : A → Prop) `{∀ x, Decision (P x)} (g : A → A) i l :
  (∀ x, P (g x) ↔ P x) →
  fst <$> list_find P (alter g i l) = fst <$> list_find P l.
Proof.
  intros Hg. revert i. induction l as [|x l IH]; intros i; [done|].
  destruct i as [|i]; cbn [alter list_alter list_find].
  - destruct (decide (P (g x))) as [Hx|Hx], (decide (P x)) as [Hx'|Hx']; try done.
    + by apply (proj1 (Hg x)) in Hx.
    + by apply (proj2 (Hg x)) in Hx'.
  - destruct (decide (P x)); [done|].
    specialize (IH i).
    destruct (list_find P (alter g i l)) as [[??]|], (list_find P l) as [[??]|];
      simplify_eq/=; done.
Qed.

Lemma body_appendChild_body d new : body (appendChild d (body d) new) = body d.
Proof.
  pose proof (eq_refl (body d)) as Hb. unfold body at 2 in Hb.
  unfold body at 1 3. cbn [roots appendChild with_roots].
  destruct (roots d) as [|html rest] eqn:Hr; [by rewrite Hb|].
  destruct (bool_decide (tagName (el_data html) = "html")) eqn:Hh.
  - destruct (list_find _ (el_children html)) as [[i c]|] eqn:Hf.
    + rewrite Hb. cbn. rewrite Hh.
      pose proof (list_find_alter_fst
        (λ c, tagName (el_data c) = "body" ∨ tagName (el_data c) = "frameset")
        (add_child new) i (el_children html)) as Hfind.
      rewrite Hf in Hfind. cbn in Hfind.
      destruct (list_find _ (alter _ _ _)) as [[j c2]|].
      * cbn in Hfind. specialize (Hfind (λ _, reflexivity _)). by simplify_eq.
      * by specialize (Hfind (λ _, reflexivity _)).
    + rewrite Hb. cbn. by rewrite Hh, Hf.
  - rewrite Hb. cbn. by rewrite Hh.
Qed.

Lemma body_appendChild_Some d new :
  body d ≠ [] →
  body_appendChild d new = Some (appendChild d (body d) new).
Proof.
  intros Hb. unfold body_appendChild. by rewrite (bool_decide_eq_false_2 _ Hb).
Qed.

Lemma draw_one_Some r d index :
  body d ≠ [] → ∃ d1, draw_one r d index = Some d1 ∧ body d1 = body d.
Proof.
  intros Hb. unfold draw_one.
  destruct (querySelector d _) as [el|]; [|by eauto].
  rewrite (body_appendChild_Some d _ Hb). cbn.
  rewrite body_appendChild_Some by (by rewrite body_appendChild_body).
  eexists. split; [done|]. by rewrite !body_appendChild_body.
Qed.

Lemma draw_all_Some r d indices :
  body d ≠ [] → ∃ d1, draw_all r d indices = Some d1 ∧ body d1 = body d.
Proof.
  revert d. induction indices as [|index rest IH]; intros d Hb; [by eauto|].
  cbn [draw_all]. destruct (draw_one_Some r d index Hb) as (d1 & -> & Hb1).
  cbn. rewrite <- Hb1 in Hb. destruct (IH d1 Hb) as (d2 & -> & Hb2).
  exists d2. split; [done|]. congruence.
Qed.

(** C7 (amended).  A handle for which no element carries the marker is
    skipped: the step leaves the document as it is, raises no error, and
    the remaining handles are processed as if the handle were not in the
    sequence.  In a document with a body the renderer returns the number
    of handles it processed, drawn or skipped: the length of the sequence
    it was given when that is not empty, and otherwise the number of
    elements that carry the primary marker. *)
Theorem draw_returns_requested r d :
  (∀ d0 index rest,
     querySelector d0 (marked_as (lookup_marker r) index) = None →
     draw_one r d0 index = Some d0
     ∧ draw_all r d0 (index :: rest) = draw_all r d0 rest)
  ∧ (body (clear_overlays d) ≠ [] →
     (∀ index rest, ∃ d1,
        draw r d (Some (index :: rest)) = Some (d1, length (index :: rest)))
     ∧ (∀ indices, indices = None ∨ indices = Some [] → ∃ d1,
          draw r d indices
          = Some (d1, length (querySelectorAll d (has_attribute primary_marker))))).
Proof.
  split.
  - intros d0 index rest Hq. unfold draw_all, draw_one. by rewrite Hq.
  - intros Hb. split.
    + intros index rest. unfold draw. cbn [effective_indices].
      destruct (draw_all_Some r _ (index :: rest) Hb) as (d1 & -> & _). by eauto.
    + intros indices Hi. unfold draw.
      assert (effective_indices r d indices = default_indices r d) as ->.
      { by destruct Hi as [-> | ->]. }
      destruct (draw_all_Some r _ (default_indices r d) Hb) as (d1 & -> & _).
      exists d1. cbn. unfold default_indices. by rewrite length_map.
Qed.

Lemma draw_returns_requested_witness :
  let d := (scan Basic wrapped_field_page).1 in
  (draw_one Current d (JS.Int 7) = Some d
   ∧ draw_all Current d [JS.Int 7; JS.Int 0] = draw_all Current d [JS.Int 0])
  ∧ (∃ d1, draw Current d (Some [JS.Int 1; JS.Int 7; JS.Int 0]) = Some (d1, 3))
  ∧ (∃ d1, draw Current d None = Some (d1, 2)).
Proof.
  intros d. destruct (draw_returns_requested Current d) as [Hskip Hcount].
  split; [apply Hskip; vm_compute; reflexivity|].
  destruct Hcount as [Hgiven Hdefault]; [vm_compute; discriminate|].
  split; [apply Hgiven|]. apply (Hdefault None). by left.
Defined.

(** C7, as stated, fails for the empty sequence: the renderer returns the
    number of elements with a primary marker, 2, and not the length of the
    sequence, 0. *)
Lemma draw_empty_returns_default :
  let d := (scan Basic wrapped_field_page).1 in
  length (@nil JS.int) = 0
  ∧ ∃ d1, draw Current d (Some []) = Some (d1, 2).
Proof. split; [done|]. eexists. vm_compute. reflexivity. Qed.

(** C6: the code fails the claim.  After a scan of a page with a button
    and a text field wrapped in its label, the bbox markers are on the
    button (handle 0) and on the label (handle 1).  The renderer in use
    collects the elements with a primary marker, the button and the
    input, and reads their bbox marker; the input has none, which reads
    as 0.  The handle 0 is drawn twice and the handle 1 not at all.  The
    earlier renderer reads the marker that it selects and draws 0 and
    1. *)
Theorem default_indices_misses_handle :
  let d := (scan Basic wrapped_field_page).1 in
  querySelectorAll d (has_attribute bbox_marker) = [[0; 1; 0]; [1; 1; 0]]
  ∧ claimed_default_indices d = [JS.Int 0; JS.Int 1]
  ∧ querySelectorAll d (has_attribute primary_marker) = [[0; 1; 0]; [0; 1; 1; 0]]
  ∧ default_indices Current d = [JS.Int 0; JS.Int 0]
  ∧ (∃ d1, draw Current d None = Some (d1, 2) ∧ overlay_labels d1 = ["0"; "0"])
  ∧ default_indices Legacy d = [JS.Int 0; JS.Int 1]
  ∧ (∃ d1, draw Legacy d None = Some (d1, 2) ∧ overlay_labels d1 = ["0"; "1"]).
Proof.
  repeat split; try (vm_compute; reflexivity);
    eexists; split; vm_compute; reflexivity.
Qed.

(** ** The overlay *)

Lemma clear_overlays_prune d :
  clear_overlays d = with_roots d (forest_prune is_overlay (roots d)).
Proof.
  unfold clear_overlays, removeElementsByClass, with_roots.
  cbn [roots innerWidth innerHeight clientWidth clientHeight scrollX scrollY
       elementFromPoint].
  by rewrite forest_prune_prune.
Qed.

Lemma clear_overlays_appendChild d p new :
  is_overlay (el_data new) = true →
  clear_overlays (appendChild d p new) = clear_overlays d.
Proof.
  intros Hnew. rewrite !clear_overlays_prune. unfold appendChild, with_roots.
  cbn [roots innerWidth innerHeight clientWidth clientHeight scrollX scrollY
       elementFromPoint].
  by rewrite forest_prune_append.
Qed.


Lemma filter_none {A} (h : A → bool) (L : list A) :
  (∀ n, h n = false) → List.filter h L = [].
Proof. intros Hh. induction L as [|n L IH]; simpl; [done|]. by rewrite Hh. Qed.


Lemma has_class_cleared d c n :
  c = "GWA-rect" ∨ c = "GWA-label" →
  has_class c (prop (clear_overlays d) n) = false.
Proof.
  intros Hc. rewrite clear_overlays_prune. unfold prop, getElement. cbn [roots with_roots].
  destruct (forest_lookup _ _) as [x|] eqn:Hx; [|by destruct Hc as [-> | ->]].
  apply forest_lookup_prune in Hx. cbn. unfold is_overlay in Hx.
  apply orb_false_iff in Hx as [??]. by destruct Hc as [-> | ->].
Qed.



Lemma body_valid d : body d ≠ [] → is_Some (getElement d (body d)).
Proof.
  unfold body, getElement. destruct (roots d) as [|html rest]; [done|].
  destruct (bool_decide _); [|done].
  destruct (list_find _ _) as [[i c]|] eqn:Hf; [|done]. intros _.
  apply list_find_Some in Hf as (Hc & _). cbn. rewrite Hc. by eexists.
Qed.

Lemma marked_as_created r index tag className text declarations :
  marked_as (lookup_marker r) index
    (el_data (createElement tag className text declarations)) = false.
Proof.
  unfold marked_as. apply bool_decide_eq_false. cbn.
  rewrite lookup_singleton_ne; [done|]. by destruct r.
Qed.

Lemma has_class_created c tag className text declarations :
  has_class c (el_data (createElement tag className text declarations))
  = bool_decide (c ∈ String.words className).
Proof. unfold has_class. cbn. by rewrite lookup_singleton_eq. Qed.

(** One step of the renderer. *)
Lemma draw_one_spec r d index :
  body d ≠ [] →
  ∃ d1, draw_one r d index = Some d1
    ∧ body d1 = body d
    ∧ (∀ i, querySelector d1 (marked_as (lookup_marker r) i)
            = querySelector d (marked_as (lookup_marker r) i))
    ∧ clear_overlays d1 = clear_overlays d
    ∧ overlay_labels d1
      ≡ₚ (if resolves r d index then [JS.to_string index] else []) ++ overlay_labels d
    ∧ length (overlay_rects d1)
      = (if resolves r d index then 1 else 0) + length (overlay_rects d).
Proof.
  intros Hb. unfold draw_one, resolves.
  destruct (querySelector d (marked_as (lookup_marker r) index)) as [el|].
  2:{ exists d. rewrite bool_decide_eq_false_2 by (by intros [??]). by repeat split. }
  rewrite bool_decide_eq_true_2 by (by eexists).
  set (rect := boundingClientRect (prop d el)).
  destruct (body_valid d Hb) as [b Hbody].
  rewrite (body_appendChild_Some d _ Hb). cbn.
  set (d1 := appendChild d (body d) (rect_overlay r d rect)).
  assert (body d1 = body d) as Hb1 by apply body_appendChild_body.
  assert (body d1 ≠ []) as Hb1' by (by rewrite Hb1).
  destruct (body_valid d1 Hb1') as [b1 Hbody1].
  rewrite (body_appendChild_Some d1 _ Hb1').
  set (d2 := appendChild d1 (body d1) (label_overlay r d rect index)).
  exists d2. split; [done|]. split; [|split; [|split; [|split]]].
  - unfold d2. by rewrite body_appendChild_body.
  - intros i. unfold d2, label_overlay, createElement.
    rewrite (querySelector_appendChild d1 _ _ _ _ Hbody1)
      by apply (marked_as_created r i "span" "GWA-label" (JS.to_string index)).
    unfold d1, rect_overlay, createElement.
    by rewrite (querySelector_appendChild d _ _ _ _ Hbody)
      by apply (marked_as_created r i "div" "GWA-rect" "").
  - unfold d2, d1. by rewrite !clear_overlays_appendChild.
  - unfold overlay_labels, d2, label_overlay, createElement.
    rewrite (querySelectorAll_appendChild textContent d1 _ _ _ _ Hbody1).
    cbn [app]. constructor.
    unfold d1, rect_overlay, createElement.
    by rewrite (querySelectorAll_appendChild textContent d _ _ _ _ Hbody).
  - unfold overlay_rects, d2, label_overlay, createElement.
    rewrite (length_querySelectorAll_appendChild d1 _ _ _ _ Hbody1).
    unfold d1, rect_overlay, createElement.
    by rewrite (length_querySelectorAll_appendChild d _ _ _ _ Hbody).
Qed.




(** ** Scanning and drawing again *)


Lemma scan_markers_fresh v d m name w :
  name = primary_marker ∨ name = bbox_marker →
  getAttribute (scan v d).1 m name = Some w →
  ∃ h, h < length (numbered v d) ∧ w = marker_value h.
Proof.
  intros Hname Hw. unfold scan in Hw. cbn [fst] in Hw.
  apply (scan_loop_markers v (reset d)) in Hw as (h & Hh & ->); [| done | | done].
  - exists h. split; [|done].
    destruct (scan_loop v (reset d) (candidates v (reset d))
                {| doc := reset d; element_simplified_htmls := ∅; visibleIndex := 0 |}
                (agree_refl _)) as (_ & Hk & _).
    rewrite Hk in Hh. cbn [visibleIndex] in Hh.
    change (List.filter _ _) with (numbered v (reset d)) in Hh.
    by rewrite (agree_read (numbered v) _ _ (numbered_erase v) (agree_reset d)) in Hh.
  - cbn [doc]. intros m' name' w' Hn. by rewrite getAttribute_reset.
Qed.



(** * Further properties *)

(** ** Printing and parsing a handle *)

Lemma digit_value_pretty_char m :
  (m < 10)%N → JS.digit_value 10 (pretty_N_char m) = Some (Z.of_N m).
Proof.
  intros Hm.
  assert (m = 0 ∨ m = 1 ∨ m = 2 ∨ m = 3 ∨ m = 4 ∨ m = 5 ∨ m = 6 ∨ m = 7
          ∨ m = 8 ∨ m = 9)%N as H by lia.
  repeat (destruct H as [-> | H]; [reflexivity|]). by subst.
Qed.

Lemma parse_digits_pretty_go x :
  (0 < x)%N → ∀ s acc, ∃ k : Z,
    (0 <= k)%Z ∧
    JS.parse_digits 10 acc (pretty_N_go x s)
    = JS.parse_digits 10 (Some (from_option id 0 acc * 10 ^ k + Z.of_N x)%Z) s.
Proof.
  induction (N.lt_wf_0 x) as [x _ IH]. intros Hx s acc.
  rewrite pretty_N_go_step by done.
  assert (Hm : (x `mod` 10 < 10)%N) by (apply N.mod_lt; lia).
  pose proof (N.div_mod x 10 ltac:(lia)) as Hdm.
  destruct (decide (x `div` 10 = 0)%N) as [Hq | Hq].
  - rewrite Hq, pretty_N_go_0. exists 1%Z. split; [lia|].
    cbn [JS.parse_digits]. rewrite digit_value_pretty_char by done.
    f_equal. f_equal. lia.
  - destruct (IH (x `div` 10)%N) with
      (s := String (pretty_N_char (x `mod` 10)) s) (acc := acc) as (k & Hk & ->).
    { apply N.div_lt; lia. }
    { lia. }
    exists (Z.succ k). split; [lia|].
    cbn [JS.parse_digits]. rewrite digit_value_pretty_char by done.
    cbn [from_option id]. f_equal. f_equal.
    rewrite Z.pow_succ_r by done. lia.
Qed.

Lemma pretty_go_head x s :
  (0 < x)%N → ∃ m r, (0 < m < 10)%N ∧ pretty_N_go x s = String (pretty_N_char m) r.
Proof.
  revert s. induction (N.lt_wf_0 x) as [x _ IH]. intros s Hx.
  rewrite pretty_N_go_step by done.
  destruct (decide (x `div` 10 = 0)%N) as [Hq | Hq].
  - rewrite Hq, pretty_N_go_0. exists (x `mod` 10)%N, s. split; [|done].
    pose proof (N.div_mod x 10 ltac:(lia)).
    assert (x `mod` 10 < 10)%N by (apply N.mod_lt; lia). lia.
  - apply IH; [apply N.div_lt; lia | by apply N.neq_0_lt_0].
Qed.

Lemma parseInt_leading_digit m r :
  (0 < m < 10)%N →
  JS.parseInt (String (pretty_N_char m) r)
  = match JS.parse_digits 10 None (String (pretty_N_char m) r) with
    | Some z => JS.Int z
    | None => JS.NaN
    end.
Proof.
  intros Hm.
  assert (m = 1 ∨ m = 2 ∨ m = 3 ∨ m = 4 ∨ m = 5 ∨ m = 6 ∨ m = 7
          ∨ m = 8 ∨ m = 9)%N as H by lia.
  repeat (destruct H as [-> | H]; [reflexivity|]). by subst.
Qed.

Lemma parseInt_pretty_N (x : N) : JS.parseInt (pretty x) = JS.Int (Z.of_N x).
Proof.
  unfold pretty, pretty_N. case_decide as Hx; [by subst|].
  destruct (pretty_go_head x "") as (m & r & Hm & Hr); [lia|].
  rewrite Hr, parseInt_leading_digit by done. rewrite <- Hr.
  destruct (parse_digits_pretty_go x ltac:(lia) "" None) as (k & _ & ->).
  cbn. f_equal.
Qed.

Lemma pretty_nonempty (x : N) : pretty x ≠ "".
Proof.
  unfold pretty, pretty_N. case_decide as Hx; [done|].
  destruct (pretty_go_head x "") as (m & r & _ & ->); [lia|done].
Qed.

Lemma pretty_Z_of_nat (h : nat) : pretty (Z.of_nat h) = pretty h.
Proof. by destruct h. Qed.

Lemma marker_value_to_string h :
  marker_value h = "gwa-element-" +:+ JS.to_string (JS.Int (Z.of_nat h)).
Proof. unfold marker_value, JS.to_string. by rewrite pretty_Z_of_nat. Qed.

Lemma remove_first_prefix s :
  JS.remove_first "gwa-element-" ("gwa-element-" +:+ s) = s.
Proof. reflexivity. Qed.


(** ** Where the markers are after a scan *)

Lemma children_paths_ge (rec : Element → list (list nat)) k cs p :
  p ∈ children_paths rec k cs → ∃ j q, p = j :: q ∧ k ≤ j.
Proof.
  intros (j & c & q & -> & _ & _)%children_paths_inv. exists (k + j), q.
  split; [done|lia].
Qed.

Lemma NoDup_children_paths (rec : Element → list (list nat)) k cs :
  Forall (λ c, NoDup (rec c)) cs → NoDup (children_paths rec k cs).
Proof.
  intros H. revert k. induction H as [|c cs Hc _ IH]; intros k; simpl.
  - constructor.
  - apply NoDup_app. split; [|split; [|apply IH]].
    + apply (NoDup_fmap_2 _). done.
    + intros p (q & -> & _)%list_elem_of_fmap (j & q' & [= <- _] & ?)%children_paths_ge.
      lia.
Qed.

Lemma NoDup_elem_paths e : NoDup (elem_paths e).
Proof.
  induction e as [data children IH] using Element_ind'. cbn [elem_paths].
  constructor.
  - intros (j & q & [=] & _)%children_paths_ge.
  - by apply NoDup_children_paths.
Qed.

Lemma rev_injective {A} : Inj (=) (=) (@rev A).
Proof. intros x y H. by rewrite <- (rev_involutive x), H, rev_involutive. Qed.

Lemma NoDup_all_elements d : NoDup (all_elements d).
Proof.
  unfold all_elements. apply (NoDup_fmap_2 _ (Inj0 := rev_injective)).
  apply NoDup_children_paths, Forall_forall. intros. apply NoDup_elem_paths.
Qed.

Lemma NoDup_filter' {A} (P : A → bool) (l : list A) : NoDup l → NoDup (List.filter P l).
Proof.
  induction 1 as [|x l Hx _ IH]; simpl; [constructor|].
  destruct (P x); [|done]. constructor; [|done].
  rewrite list_elem_of_In, filter_In, <- list_elem_of_In. tauto.
Qed.

Lemma NoDup_numbered v d : NoDup (numbered v d).
Proof. apply NoDup_filter', NoDup_filter', NoDup_all_elements. Qed.

(** An element of the document, and its ancestors, are elements of the
    document. *)
Lemma all_elements_valid d e : e ∈ all_elements d ↔ is_Some (getElement d e).
Proof.
  unfold all_elements, getElement. split.
  - intros (p & -> & Hp)%list_elem_of_fmap. rewrite rev_involutive.
    by apply forest_paths_lookup.
  - intros [x Hx]. apply list_elem_of_fmap. exists (rev e).
    split; [by rewrite rev_involutive|]. by eapply forest_lookup_paths.
Qed.

Lemma elem_lookup_app p q e :
  elem_lookup (p ++ q) e = elem_lookup p e ≫= elem_lookup q.
Proof.
  revert e. induction p as [|i p IH]; intros e; [done|]. cbn.
  destruct (el_children e !! i); [apply IH|done].
Qed.

Lemma getElement_ancestor d a e :
  is_Some (getElement d e) → ancestor_or_self a e → is_Some (getElement d a).
Proof.
  unfold getElement. intros [x Hx] [Ha [k ->]%contains_suffix].
  rewrite rev_app_distr in Hx.
  destruct (rev a) as [|i p] eqn:Hr.
  { apply (f_equal (@rev nat)) in Hr. rewrite rev_involutive in Hr. done. }
  cbn in *. destruct (roots d !! i) as [c|]; [|done].
  rewrite elem_lookup_app in Hx. destruct (elem_lookup p c); [by eexists|done].
Qed.

Lemma getElement_agree d d' n :
  agree d d' → is_Some (getElement d n) → is_Some (getElement d' n).
Proof.
  intros Hd [x Hx].
  assert (is_Some (getElement (erase d') n)) as [y Hy].
  { rewrite <- Hd, getElement_erase, Hx. by eexists. }
  rewrite getElement_erase in Hy. destruct (getElement d' n); [by eexists|done].
Qed.

Lemma primary_target_erase v d e : primary_target v (erase d) e = primary_target v d e.
Proof.
  destruct v; [done|]. unfold primary_target.
  by rewrite getParentWithLabel_erase, prop_erase.
Qed.

Lemma bbox_target_erase d e : bbox_target (erase d) e = bbox_target d e.
Proof. unfold bbox_target. by rewrite getParentWithLabel_erase, prop_erase. Qed.

Lemma marker_target_erase v d name e :
  marker_target v (erase d) name e = marker_target v d name e.
Proof. unfold marker_target. by rewrite primary_target_erase, bbox_target_erase. Qed.

Lemma primary_target_cases v d e :
  primary_target v d e = e ∨ ancestor_or_self (primary_target v d e) (parentElement e).
Proof.
  destruct v; [by left|]. unfold primary_target.
  destruct (_ && _); [apply getParentWithLabel_cases|by left].
Qed.

Lemma marker_target_valid v d name e :
  is_Some (getElement d e) → is_Some (getElement d (marker_target v d name e)).
Proof.
  intros He. unfold marker_target.
  destruct (bool_decide _);
    [destruct (primary_target_cases v d e) as [->|Ha]
    |destruct (bbox_target_cases d e) as [->|Ha]]; try done;
    eauto using getElement_ancestor, ancestor_of_parent.
Qed.

(** The marker attributes after one round of the loop for an element
    that passes the filter. *)
Lemma scan_step_attr v d0 st e name m :
  name = primary_marker ∨ name = bbox_marker →
  agree (doc st) d0 → isElementVisible d0 e = true → is_Some (getElement d0 e) →
  getAttribute (doc (scan_step v st e)) m name
  = if decide (m = marker_target v d0 name e)
    then Some (marker_value (visibleIndex st))
    else getAttribute (doc st) m name.
Proof.
  intros Hname Hd Hvis He. unfold scan_step.
  rewrite (agree_read (λ d, isElementVisible d e) _ _ (λ d, isElementVisible_erase d e) Hd).
  rewrite Hvis. cbn [doc].
  set (d1 := setAttribute (doc st) _ _ _).
  assert (agree d1 d0) as Hd1.
  { eapply agree_trans; [apply agree_setAttribute; auto|done]. }
  assert (primary_target v (doc st) e = marker_target v d0 primary_marker e) as Hp.
  { unfold marker_target. rewrite bool_decide_eq_true_2 by done.
    apply (agree_read (λ d, primary_target v d e)); [|done].
    intros. apply primary_target_erase. }
  assert (bbox_target d1 e = marker_target v d0 bbox_marker e) as Hb.
  { unfold marker_target. rewrite bool_decide_eq_false_2 by done.
    apply (agree_read (λ d, bbox_target d e)); [|done].
    intros. apply bbox_target_erase. }
  rewrite Hb. subst d1. rewrite Hp.
  destruct Hname as [-> | ->].
  - rewrite getAttribute_setAttribute_ne_name by done.
    case_decide as Hm.
    + subst m. apply getAttribute_setAttribute_eq.
      apply (getElement_agree d0); [done|]. by apply marker_target_valid.
    + by apply getAttribute_setAttribute_ne_node.
  - case_decide as Hm.
    + subst m. apply getAttribute_setAttribute_eq.
      apply (getElement_agree d0).
      { symmetry. eapply agree_trans; [apply agree_setAttribute; auto|done]. }
      by apply marker_target_valid.
    + rewrite getAttribute_setAttribute_ne_node by done.
      by apply getAttribute_setAttribute_ne_name.
Qed.

Lemma with_roots_id d : with_roots d (roots d) = d.
Proof. by destruct d. Qed.


Lemma find_up_None P x a :
  find_up P x = None → a ≠ [] → a `suffix_of` x → P a = false.
Proof.
  induction x as [|i x IH]; simpl.
  - intros _ Ha Hs%suffix_nil_inv. done.
  - destruct (P (i :: x)) eqn:HP; [done|]. intros Hr Ha Hs.
    destruct a as [|j a]; [done|].
    apply suffix_cons_inv in Hs as [[= -> ->]|Hs]; [done|]. by apply IH.
Qed.

Lemma querySelector_exact d sel (t : option node) :
  (∀ m, m ∈ all_elements d → sel (prop d m) = true → t = Some m) →
  (∀ m, t = Some m → m ∈ all_elements d ∧ sel (prop d m) = true) →
  querySelector d sel = t.
Proof.
  intros Honly Hthere. unfold querySelector.
  destruct (List.find _ _) as [x|] eqn:Hf.
  - apply find_some in Hf as [Hx Hs]. symmetry. apply Honly; [|done].
    by apply list_elem_of_In.
  - destruct t as [m|]; [|done]. destruct (Hthere m eq_refl) as [Hm Hs].
    apply list_elem_of_In in Hm. pose proof (find_none _ _ Hf m Hm) as Hn.
    simpl in Hn. congruence.
Qed.

Lemma marked_as_handle name h x :
  marked_as name (JS.Int (Z.of_nat h)) x = true ↔ attributes x !! name = Some (marker_value h).
Proof. unfold marked_as. by rewrite bool_decide_eq_true, <- marker_value_to_string. Qed.

(** The marker of a name is, at every moment of the loop, on the target
    of the last numbered element with this target. *)
Lemma scan_loop_last_writer v d0 name es st (own : list node) :
  name = primary_marker ∨ name = bbox_marker →
  agree (doc st) d0 → visibleIndex st = length own →
  Forall (λ e, is_Some (getElement d0 e)) es →
  (∀ m w, getAttribute (doc st) m name = Some w
          ↔ ∃ h, own !! h = Some m ∧ w = marker_value h
                 ∧ ∀ h', h < h' → own !! h' ≠ Some m) →
  let targets := own ++ (marker_target v d0 name <$> List.filter (isElementVisible d0) es) in
  ∀ m w, getAttribute (doc (fold_left (scan_step v) es st)) m name = Some w
         ↔ ∃ h, targets !! h = Some m ∧ w = marker_value h
                ∧ ∀ h', h < h' → targets !! h' ≠ Some m.
Proof.
  intros Hname. revert st own.
  induction es as [|e es IH]; intros st own Hd Hk Hval Hinv; simpl.
  - intros m w. rewrite app_nil_r. apply Hinv.
  - apply Forall_cons in Hval as [He Hval].
    destruct (isElementVisible d0 e) eqn:Hvis.
    + destruct (scan_step_visible v d0 st e Hd Hvis) as (Hd' & Hk' & _).
      rewrite fmap_cons.
      set (t := marker_target v d0 name e).
      rewrite (cons_middle t own), app_assoc.
      apply IH; [done|rewrite Hk', length_app; simpl; lia|done|].
      intros m w. rewrite (scan_step_attr v d0) by done. fold t.
      case_decide as Hm.
      * subst m. split.
        -- intros [= <-]. exists (length own). split; [by apply list_lookup_middle|].
           split; [by rewrite Hk|]. intros h' Hh'.
           rewrite lookup_ge_None_2; [done|]. rewrite length_app. simpl. lia.
        -- intros (h & Hh & -> & Hlast). f_equal. f_equal. rewrite Hk.
           destruct (decide (h < length own)) as [Hlt|Hge].
           ++ exfalso. apply (Hlast (length own) Hlt). by apply list_lookup_middle.
           ++ apply lookup_lt_Some in Hh. rewrite length_app in Hh. simpl in Hh. lia.
      * rewrite Hinv. split; intros (h & Hh & -> & Hlast); exists h.
        -- split; [by apply lookup_app_l_Some|]. split; [done|].
           intros h' Hh' Hl. apply lookup_app_Some in Hl as [Hl|[_ Hl]].
           ++ by apply (Hlast h').
           ++ apply list_lookup_singleton_Some in Hl as [_ ?]. congruence.
        -- apply lookup_app_Some in Hh as [Hh|[_ Hh]].
           2:{ apply list_lookup_singleton_Some in Hh as [_ ?]. congruence. }
           split; [done|]. split; [done|].
           intros h' Hh' Hl. apply (Hlast h' Hh'). by apply lookup_app_l_Some.
    + rewrite (scan_step_hidden v d0 st e Hd Hvis). by apply IH.
Qed.

Lemma scan_last_writer v d name :
  name = primary_marker ∨ name = bbox_marker →
  let targets := marker_target v d name <$> numbered v d in
  ∀ m h, getAttribute (scan v d).1 m name = Some (marker_value h)
         ↔ targets !! h = Some m ∧ ∀ h', h < h' → targets !! h' ≠ Some m.
Proof.
  intros Hname targets m h. unfold scan. cbn [fst].
  pose proof (agree_reset d) as Hr.
  assert (numbered v (reset d) = numbered v d) as Hn
    by apply (agree_read (numbered v) _ _ (numbered_erase v) Hr).
  assert (∀ e, marker_target v (reset d) name e = marker_target v d name e) as Ht.
  { intros e. apply (agree_read (λ d, marker_target v d name e)); [|done].
    intros. apply marker_target_erase. }
  assert (marker_target v (reset d) name <$> numbered v (reset d) = targets) as Hl.
  { rewrite Hn. apply list_fmap_ext. intros. apply Ht. }
  pose proof (scan_loop_last_writer v (reset d) name (candidates v (reset d))
                {| doc := reset d; element_simplified_htmls := ∅; visibleIndex := 0 |}
                [] Hname (agree_refl _) eq_refl) as H.
  cbn [app] in H.
  change (List.filter _ (candidates v (reset d))) with (numbered v (reset d)) in H.
  rewrite Hl in H. rewrite H.
  - split.
    + by intros (h' & ? & <-%marker_value_inj & ?).
    + intros [? ?]. by exists h.
  - apply Forall_forall. intros e He. apply all_elements_valid.
    apply list_elem_of_In. apply list_elem_of_In, candidates_In in He. tauto.
  - intros m' w'. cbn [doc]. rewrite getAttribute_reset by done.
    split; [done|]. by intros (h' & ? & _).
Qed.

Lemma scan_exact_handle v d name :
  name = primary_marker ∨ name = bbox_marker →
  NoDup (marker_target v d name <$> numbered v d) →
  ∀ m h, getAttribute (scan v d).1 m name = Some (marker_value h)
         ↔ (marker_target v d name <$> numbered v d) !! h = Some m.
Proof.
  intros Hname Hnd m h. rewrite (scan_last_writer v d name Hname). split.
  - by intros [? _].
  - intros Hh. split; [done|]. intros h' Hlt Hh'.
    pose proof (NoDup_lookup _ _ _ _ Hnd Hh Hh'). lia.
Qed.

Lemma scan_exact_query v d name h :
  name = primary_marker ∨ name = bbox_marker →
  NoDup (marker_target v d name <$> numbered v d) →
  querySelector (scan v d).1 (marked_as name (JS.Int (Z.of_nat h)))
  = (marker_target v d name <$> numbered v d) !! h.
Proof.
  intros Hname Hnd. apply querySelector_exact.
  - intros m _ Hm%marked_as_handle.
    by apply (scan_exact_handle v d name Hname Hnd).
  - intros m Hm. apply (scan_exact_handle v d name Hname Hnd) in Hm. split.
    + by eapply list_elem_of_In, getAttribute_Some_listed.
    + by apply marked_as_handle.
Qed.

Lemma numbered_valid v d e : e ∈ numbered v d → is_Some (getElement d e).
Proof.
  intros He%list_elem_of_In%numbered_In. destruct He as [He%candidates_In _].
  apply all_elements_valid, list_elem_of_In. tauto.
Qed.

Lemma basic_targets d :
  marker_target Basic d primary_marker <$> numbered Basic d = numbered Basic d.
Proof. apply list_fmap_id. Qed.

Lemma basic_primary_handle d m h :
  getAttribute (scan Basic d).1 m primary_marker = Some (marker_value h)
  ↔ numbered Basic d !! h = Some m.
Proof.
  pose proof (NoDup_numbered Basic d) as Hnd. rewrite <- basic_targets in Hnd.
  rewrite (scan_exact_handle Basic d primary_marker) by auto.
  by rewrite basic_targets.
Qed.

Lemma scan_size v d : size (scan v d).2 = length (numbered v d).
Proof.
  destruct (scan_spec v d) as [_ Hm].
  assert (dom (scan v d).2 = set_seq 0 (length (numbered v d))) as Hdom.
  { apply set_eq. intros h. rewrite elem_of_dom, Hm, elem_of_set_seq, fmap_is_Some.
    rewrite lookup_lt_is_Some. lia. }
  by rewrite <- size_dom, Hdom, size_set_seq.
Qed.

Lemma erase_data_id x :
  attributes x !! primary_marker = None → attributes x !! bbox_marker = None →
  erase_data x = x.
Proof.
  destruct x as [t a ? ? ? ? ? ? ? ? ? ?]. cbn. intros Hp Hb.
  unfold erase_data, set_attributes. cbn. f_equal.
  rewrite (delete_id a) by done. by rewrite delete_id.
Qed.

(** X2.  The first two statements of the indexer remove both markers from
    every element and change nothing else: the document keeps its elements
    in their order, and every element keeps its tag, its text and its other
    attributes. *)
Theorem reset_clears_markers d :
  all_elements (reset d) = all_elements d
  ∧ ∀ m, getAttribute (reset d) m primary_marker = None
         ∧ getAttribute (reset d) m bbox_marker = None
         ∧ tagName (prop (reset d) m) = tagName (prop d m)
         ∧ textContent (prop (reset d) m) = textContent (prop d m)
         ∧ attributes (prop (reset d) m)
           = delete bbox_marker (delete primary_marker (attributes (prop d m))).
Proof.
  pose proof (agree_reset d) as Hr. split; [by apply all_elements_agree|].
  intros m.
  pose proof (getAttribute_reset d m primary_marker (or_introl eq_refl)) as Hp.
  pose proof (getAttribute_reset d m bbox_marker (or_intror eq_refl)) as Hb.
  split; [done|]. split; [done|].
  assert (prop (reset d) m = erase_data (prop d m)) as ->; [|done].
  rewrite <- prop_erase, <- Hr, prop_erase. symmetry. by apply erase_data_id.
Qed.

(** X3.  A scan writes marker attributes and nothing else: the document
    keeps its elements in their order, and every element keeps its tag, its
    text and its attributes other than the two markers. *)
Theorem scan_changes_markers_only v d :
  all_elements (scan v d).1 = all_elements d
  ∧ ∀ m, tagName (prop (scan v d).1 m) = tagName (prop d m)
         ∧ textContent (prop (scan v d).1 m) = textContent (prop d m)
         ∧ innerText (prop (scan v d).1 m) = innerText (prop d m)
         ∧ delete bbox_marker (delete primary_marker (attributes (prop (scan v d).1 m)))
           = delete bbox_marker (delete primary_marker (attributes (prop d m))).
Proof.
  destruct (scan_spec v d) as [Ha _]. split; [by apply all_elements_agree|].
  intros m.
  assert (erase_data (prop (scan v d).1 m) = erase_data (prop d m)) as He
    by (by rewrite <- !prop_erase, Ha).
  split; [exact (f_equal tagName He)|]. split; [exact (f_equal textContent He)|].
  split; [exact (f_equal innerText He)|]. exact (f_equal attributes He).
Qed.

(** X4.  After a scan the marker of the handle h is on the element that is
    the target of the h-th numbered element, unless a later numbered element
    has the same target, in which case the marker of the later handle has
    replaced it; no marker is anywhere else. The selector of a handle finds
    an element exactly in the first case. *)
Theorem marker_of_last_writer v d name :
  name = primary_marker ∨ name = bbox_marker →
  let targets := marker_target v d name <$> numbered v d in
  (∀ m h, getAttribute (scan v d).1 m name = Some (marker_value h)
          ↔ targets !! h = Some m ∧ ∀ h', h < h' → targets !! h' ≠ Some m)
  ∧ ∀ m h, querySelector (scan v d).1 (marked_as name (JS.Int (Z.of_nat h))) = Some m
           ↔ targets !! h = Some m ∧ ∀ h', h < h' → targets !! h' ≠ Some m.
Proof.
  intros Hname targets. subst targets. split; [by apply scan_last_writer|].
  intros m h. rewrite <- (scan_last_writer v d name Hname m h). split.
  - intros [_ Hm%marked_as_handle]%find_some. done.
  - intros Hm. apply querySelector_exact.
    + intros m' _ Hm'%marked_as_handle. f_equal.
      apply (scan_last_writer v d name Hname) in Hm as [Hm _].
      apply (scan_last_writer v d name Hname) in Hm' as [Hm' _]. congruence.
    + intros ? [= <-]. split.
      * by eapply list_elem_of_In, getAttribute_Some_listed.
      * by apply marked_as_handle.
Qed.

Lemma marker_of_last_writer_witness :
  querySelector (scan Basic two_fields_page).1 (marked_as bbox_marker (JS.Int 1))
  = Some [0; 1; 0].
Proof.
  destruct (marker_of_last_writer Basic two_fields_page bbox_marker) as [_ H].
  - by right.
  - apply (H [0; 1; 0] 1). split; [vm_compute; reflexivity|].
    intros h' Hh'. destruct h' as [|[|h']]; [lia..|]. vm_compute. discriminate.
Defined.

(** X5.  The basic indexer writes the primary marker of the handle h on the
    h-th numbered element and on no other element, so that the selector of
    the earlier renderer finds, for every handle, the element that the map
    describes under the handle. *)
Theorem basic_primary_marker_exact d :
  (∀ m h, getAttribute (scan Basic d).1 m primary_marker = Some (marker_value h)
          ↔ numbered Basic d !! h = Some m)
  ∧ ∀ h, querySelector (scan Basic d).1 (marked_as primary_marker (JS.Int (Z.of_nat h)))
         = numbered Basic d !! h.
Proof.
  split; [apply basic_primary_handle|].
  pose proof (NoDup_numbered Basic d) as Hnd. rewrite <- basic_targets in Hnd.
  intros h. rewrite (scan_exact_query Basic d primary_marker) by auto.
  by rewrite basic_targets.
Qed.

Lemma has_primary_numbered d m :
  has_attribute primary_marker (prop (scan Basic d).1 m) = true ↔ m ∈ numbered Basic d.
Proof.
  unfold has_attribute. rewrite bool_decide_eq_true. split.
  - intros [w Hw].
    destruct (scan_markers_fresh Basic d m primary_marker w (or_introl eq_refl) Hw)
      as (h & _ & ->).
    apply basic_primary_handle in Hw. by eapply list_elem_of_lookup_2.
  - intros [h Hh]%list_elem_of_lookup_1. exists (marker_value h).
    by apply basic_primary_handle.
Qed.

Lemma marked_elements_numbered d :
  querySelectorAll (scan Basic d).1 (has_attribute primary_marker) = numbered Basic d.
Proof.
  destruct (scan_spec Basic d) as [Ha _].
  unfold querySelectorAll, numbered, candidates, querySelectorAll.
  rewrite (all_elements_agree _ _ Ha), filter_filter'.
  apply filter_ext_in_iff. intros m Hm.
  apply eq_true_iff_eq. rewrite has_primary_numbered.
  rewrite list_elem_of_In, numbered_In, candidates_In, andb_true_iff. tauto.
Qed.

(** X6.  After a scan of the basic indexer the default of the earlier
    renderer is the list of the handles 0, ..., N-1 in their order, and
    either renderer, called without handles, returns the number of entries
    of the map. *)
Theorem default_indices_after_basic_scan d :
  default_indices Legacy (scan Basic d).1
  = (λ h, JS.Int (Z.of_nat h)) <$> seq 0 (length (numbered Basic d))
  ∧ ∀ r indices o n,
      indices = None ∨ indices = Some [] →
      draw r (scan Basic d).1 indices = Some (o, n) → n = size (scan Basic d).2.
Proof.
  split.
  - unfold default_indices. rewrite marked_elements_numbered.
    change (lookup_marker Legacy) with primary_marker.
    apply list_eq. intros h. change (List.map ?f ?l) with (f <$> l).
    rewrite !list_lookup_fmap.
    destruct (numbered Basic d !! h) as [m|] eqn:Hm; cbn [fmap option_fmap option_map].
    + rewrite lookup_seq_lt by (by eapply lookup_lt_Some).
      cbn [fmap option_fmap option_map]. f_equal.
      destruct (basic_primary_handle d m h) as [_ ->]; [|done].
      unfold parse_marker, marker_value.
      rewrite remove_first_prefix.
      pose proof (pretty_nonempty (N.of_nat h)) as Hne.
      change (pretty h) with (pretty (N.of_nat h)).
      destruct (pretty (N.of_nat h)) as [|c s] eqn:Hp; [done|].
      cbn [JS.or_else]. rewrite <- Hp, parseInt_pretty_N. f_equal. lia.
    + apply lookup_ge_None in Hm. by rewrite lookup_seq_ge.
  - intros r indices o n Hi. rewrite scan_size, <- marked_elements_numbered.
    generalize (scan Basic d).1. intros d'. unfold draw.
    destruct (draw_all _ _ _) as [o'|]; [|done]. intros [= _ <-].
    replace (effective_indices r d' indices)
      with (default_indices r d') by (by destruct Hi as [-> | ->]).
    unfold default_indices. by rewrite length_map.
Qed.

Lemma default_indices_after_basic_scan_witness :
  2 = size (scan Basic wrapped_field_page).2.
Proof.
  destruct (default_indices_after_basic_scan wrapped_field_page) as [_ H].
  eapply (H Current None _ 2); [by left|]. vm_compute. reflexivity.
Defined.

Lemma pretty_not_NaN (x : N) : pretty x ≠ "NaN".
Proof.
  intros H. pose proof (parseInt_pretty_N x) as Hp. rewrite H in Hp. discriminate.
Qed.

Lemma to_string_handle i h : JS.to_string i = pretty h → i = JS.Int (Z.of_nat h).
Proof.
  destruct i as [z|]; simpl.
  - rewrite <- pretty_Z_of_nat. by intros ->%(inj pretty).
  - intros H. symmetry in H. by apply pretty_not_NaN in H.
Qed.

(** X7.  After a scan the selector of a handle finds an element only for the
    handles 0, ..., N-1: a handle out of this range, a negative one or NaN
    resolves to no element and is skipped by the renderer. *)
Theorem only_numbered_handles_resolve v r d i :
  resolves r (scan v d).1 i = true →
  ∃ h, h < length (numbered v d) ∧ i = JS.Int (Z.of_nat h).
Proof.
  unfold resolves. rewrite bool_decide_eq_true. intros [m Hm].
  apply find_some in Hm as [_ Hm]. unfold marked_as in Hm.
  apply bool_decide_eq_true in Hm.
  destruct (scan_markers_fresh v d m (lookup_marker r) _
              ltac:(destruct r; auto) Hm) as (h & Hh & Heq).
  exists h. split; [done|]. unfold marker_value in Heq.
  apply (inj _) in Heq. by apply to_string_handle.
Qed.

Lemma only_numbered_handles_resolve_witness :
  ∃ h, h < length (numbered Basic wrapped_field_page) ∧ JS.Int 1 = JS.Int (Z.of_nat h).
Proof.
  apply (only_numbered_handles_resolve Basic Current wrapped_field_page (JS.Int 1)).
  vm_compute. reflexivity.
Defined.

(** X8.  Every handle of the map can be drawn exactly when no two numbered
    elements have the same target for the marker that the renderer looks up:
    the selector finds an element for each of the handles 0, ..., N-1 if and
    only if the targets are pairwise distinct. *)
Theorem all_handles_resolve_iff v r d :
  (∀ h, h < length (numbered v d) →
        resolves r (scan v d).1 (JS.Int (Z.of_nat h)) = true)
  ↔ NoDup (marker_target v d (lookup_marker r) <$> numbered v d).
Proof.
  assert (lookup_marker r = primary_marker ∨ lookup_marker r = bbox_marker) as Hname
    by (destruct r; auto).
  set (targets := marker_target v d (lookup_marker r) <$> numbered v d).
  assert (∀ h m, querySelector (scan v d).1 (marked_as (lookup_marker r) (JS.Int (Z.of_nat h)))
                 = Some m
                 ↔ targets !! h = Some m ∧ ∀ h', h < h' → targets !! h' ≠ Some m) as Hq.
  { intros h m. split.
    - intros [_ Hm%marked_as_handle]%find_some.
      by apply (scan_last_writer v d _ Hname).
    - intros Hm. apply (proj2 (scan_last_writer v d _ Hname m h)) in Hm.
      apply querySelector_exact.
      + intros m' _ Hm'%marked_as_handle. f_equal.
        apply (scan_last_writer v d _ Hname) in Hm as [Hm _].
        apply (scan_last_writer v d _ Hname) in Hm' as [Hm' _]. congruence.
      + intros ? [= <-]. split.
        * by eapply list_elem_of_In, getAttribute_Some_listed.
        * by apply marked_as_handle. }
  split.
  - intros Hall. apply NoDup_alt. intros i j x Hi Hj.
    assert (∀ i j, i < j → targets !! i = Some x → targets !! j = Some x → False) as Hlt.
    { clear i j Hi Hj. intros i j Hij Hi Hj.
      assert (i < length (numbered v d)) as Hlen.
      { apply lookup_lt_Some in Hi. unfold targets in Hi. by rewrite length_fmap in Hi. }
      specialize (Hall i Hlen). unfold resolves in Hall.
      apply bool_decide_eq_true in Hall as [m Hm]. apply Hq in Hm as [Hm Hlast].
      rewrite Hi in Hm. injection Hm as <-. by apply (Hlast j). }
    destruct (Nat.lt_trichotomy i j) as [?|[?|?]]; [|done|]; exfalso; eauto.
  - intros Hnd h Hh. unfold resolves. apply bool_decide_eq_true.
    destruct (targets !! h) as [m|] eqn:Hm.
    + exists m. apply Hq. split; [done|]. intros h' Hlt Hh'.
      pose proof (NoDup_lookup _ _ _ _ Hnd Hm Hh'). lia.
    + apply lookup_ge_None in Hm. unfold targets in Hm. rewrite length_fmap in Hm. lia.
Qed.

Lemma elem_map_id g e :
  (∀ p x, elem_lookup p e = Some x → g (el_data x) = el_data x) → elem_map g e = e.
Proof.
  induction e as [data children IH] using Element_ind'. intros Hg.
  cbn [elem_map]. pose proof (Hg [] (Elem data children) eq_refl) as H0.
  cbn [el_data] in H0. rewrite H0. f_equal.
  rewrite <- (list_fmap_id children) at 2. apply Forall_fmap_ext_1.
  rewrite Forall_forall in IH. apply Forall_forall. intros c Hc.
  apply IH; [done|]. intros p x Hx.
  apply list_elem_of_lookup_1 in Hc as [i Hi].
  apply (Hg (i :: p)). cbn. by rewrite Hi.
Qed.

Lemma forest_map_id g f :
  (∀ p x, forest_lookup p f = Some x → g (el_data x) = el_data x) → forest_map g f = f.
Proof.
  intros Hg. unfold forest_map. rewrite <- (list_fmap_id f) at 2.
  apply Forall_fmap_ext_1, Forall_forall. intros c Hc.
  apply list_elem_of_lookup_1 in Hc as [i Hi].
  apply elem_map_id. intros p x Hx. apply (Hg (i :: p)). cbn. by rewrite Hi.
Qed.

Lemma erase_marker_free d :
  (∀ m, getAttribute d m primary_marker = None ∧ getAttribute d m bbox_marker = None) →
  erase d = d.
Proof.
  intros Hfree. unfold erase. rewrite forest_map_id; [apply with_roots_id|].
  intros p x Hx. destruct (Hfree (rev p)) as [Hp Hb].
  unfold getAttribute, prop, getElement in Hp, Hb.
  rewrite rev_involutive, Hx in Hp, Hb. cbn in Hp, Hb.
  by apply erase_data_id.
Qed.

Lemma reset_agree d d' : agree d d' → reset d = reset d'.
Proof.
  intros Hd.
  rewrite <- (erase_marker_free (reset d)), <- (erase_marker_free (reset d')).
  - change (agree (reset d) (reset d')).
    eapply agree_trans; [apply agree_reset|].
    eapply agree_trans; [exact Hd|]. symmetry. apply agree_reset.
  - intros m. split; apply getAttribute_reset; auto.
  - intros m. split; apply getAttribute_reset; auto.
Qed.

(** X9.  The indexer starts from the document without markers: two documents
    that differ in marker attributes only are scanned to the same document
    and the same map. In particular a second scan of a scanned document
    leaves the document and the map of the first scan. *)
Theorem scan_ignores_markers v d :
  (∀ d', agree d d' → scan v d' = scan v d)
  ∧ scan v (scan v d).1 = scan v d.
Proof.
  assert (∀ d', agree d d' → scan v d' = scan v d) as H.
  { intros d' Hd. unfold scan. by rewrite (reset_agree d d' Hd). }
  split; [done|]. apply H. symmetry. apply scan_spec.
Qed.

Lemma scan_ignores_markers_witness :
  scan Rich (scan Basic wrapped_field_page).1 = scan Rich wrapped_field_page.
Proof.
  destruct (scan_ignores_markers Rich wrapped_field_page) as [H _].
  apply H. vm_compute. reflexivity.
Defined.

(** ** The candidates and the filter, case by case *)


(** X11.  An element that is no checkbox and no radio button passes the
    filter exactly when neither it nor an ancestor is hidden, it is a target
    of pointer events, it is wider and higher than one pixel, the element
    under the centre of its box is the element itself, one of its
    descendants or one of its ancestors, its box has an area, and its box
    lies within the viewport. *)
Theorem ordinary_element_visible_iff d e :
  is_toggle (prop d e) = false →
  let x := prop d e in
  let rect := boundingClientRect x in
  let elementAtPoint := hit_test d rect in
  isElementVisible d e = true
  ↔ (¬ ∃ a, ancestor_or_self a e ∧ hidden_style d a)
    ∧ pointerEvents x ≠ "none"
    ∧ (1 < offsetWidth x)%Z ∧ (1 < offsetHeight x)%Z
    ∧ elementAtPoint ≠ []
    ∧ (elementAtPoint = e ∨ contains e elementAtPoint = true
       ∨ contains elementAtPoint e = true)
    ∧ ¬ (rect_width rect * rect_height rect == 0)%Q
    ∧ within_viewport d rect.
Proof.
  intros Ht x rect elementAtPoint. unfold isElementVisible, isSmallFormElement.
  rewrite Ht. fold x. fold rect. fold elementAtPoint. cbn [andb negb].
  rewrite <- isHiddenByAncestors_true, <- in_viewport_true, <- Qeq_bool_iff.
  destruct (isHiddenByAncestors d e) eqn:Hhid; [split; [done|intros [[] _]; done]|].
  destruct (bool_decide (pointerEvents x = "none")) eqn:Hpe.
  { apply bool_decide_eq_true in Hpe. split; [done|]. by intros (_ & ? & _). }
  apply bool_decide_eq_false in Hpe.
  destruct (offsetWidth x <=? 1)%Z eqn:Hw.
  { apply Z.leb_le in Hw. split; [done|]. intros (_ & _ & ? & _). lia. }
  apply Z.leb_gt in Hw.
  destruct (offsetHeight x <=? 1)%Z eqn:Hh.
  { apply Z.leb_le in Hh. split; [done|]. intros (_ & _ & _ & ? & _). lia. }
  apply Z.leb_gt in Hh. cbn [orb].
  destruct (bool_decide (visibility x = "hidden") || bool_decide (display x = "none"))
    eqn:Hs.
  { exfalso. destruct e as [|i p]; [vm_compute in Hw; done|].
    cbn [isHiddenByAncestors] in Hhid. fold x in Hhid.
    apply orb_true_iff in Hs as [Hs|Hs]; rewrite Hs in Hhid;
      rewrite ?orb_true_r in Hhid; done. }
  destruct (bool_decide (elementAtPoint = [])) eqn:Hnull.
  { apply bool_decide_eq_true in Hnull. split; [done|]. by intros (_ & _ & _ & _ & ? & _). }
  apply bool_decide_eq_false in Hnull. cbn [orb].
  destruct (bool_decide (elementAtPoint = e)) eqn:Hself; cbn [negb andb].
  - apply bool_decide_eq_true in Hself.
    destruct (Qeq_bool _ 0); [split; [done|]; by intros (_ & _ & _ & _ & _ & _ & ? & _)|].
    split; [|by intros (_ & _ & _ & _ & _ & _ & _ & ?)]. intros ?. repeat split; auto.
  - apply bool_decide_eq_false in Hself.
    destruct (contains e elementAtPoint) eqn:Hc1; cbn [negb andb].
    + destruct (Qeq_bool _ 0); [split; [done|]; by intros (_ & _ & _ & _ & _ & _ & ? & _)|].
      split; [|by intros (_ & _ & _ & _ & _ & _ & _ & ?)]. intros ?. repeat split; auto.
    + destruct (contains elementAtPoint e) eqn:Hc2; cbn [negb andb].
      * destruct (Qeq_bool _ 0); [split; [done|]; by intros (_ & _ & _ & _ & _ & _ & ? & _)|].
        split; [|by intros (_ & _ & _ & _ & _ & _ & _ & ?)]. intros ?. repeat split; auto.
      * split; [done|]. intros (_ & _ & _ & _ & _ & [?|[?|?]] & _); done.
Qed.

Lemma ordinary_element_visible_iff_witness :
  within_viewport submit_page (boundingClientRect (prop submit_page [0; 1; 0])).
Proof.
  destruct (ordinary_element_visible_iff submit_page [0; 1; 0]) as [H _].
  - vm_compute. reflexivity.
  - apply H. vm_compute. reflexivity.
Defined.

(** X12.  When no element is under the centre of the box, which is the
    answer of [elementFromPoint] for a point outside the viewport, the
    element does not pass the filter and receives no handle, whatever its
    kind. *)
Theorem no_element_at_centre_not_visible v d e :
  hit_test d (boundingClientRect (prop d e)) = [] →
  isElementVisible d e = false ∧ ¬ In e (numbered v d).
Proof.
  intros Hhit.
  assert (isElementVisible d e = false) as Hvis.
  { unfold isElementVisible. rewrite Hhit. cbn [find_up].
    rewrite andb_false_r. cbn [bool_decide decide_rel orb].
    rewrite (bool_decide_eq_true_2 (@nil nat = [])) by done. cbn [orb].
    repeat match goal with |- context [if ?c then _ else _] => destruct c end; done. }
  split; [done|]. rewrite numbered_In. intros [_ ?]. congruence.
Qed.


Lemma no_element_at_centre_not_visible_witness :
  isElementVisible far_toggle_page [0; 1; 0] = false
  ∧ ¬ In [0; 1; 0] (numbered Rich far_toggle_page).
Proof.
  apply (no_element_at_centre_not_visible Rich far_toggle_page [0; 1; 0]).
  vm_compute. reflexivity.
Defined.

(** X13.  The exemption of small checkboxes and radio buttons asks for both
    dimensions to be at most one pixel: a checkbox or radio button with
    exactly one such dimension is rejected by the size check and receives no
    handle, whatever its label is. *)
Theorem thin_toggle_not_visible v d e :
  is_toggle (prop d e) = true →
  ((offsetWidth (prop d e) <= 1)%Z ∧ (1 < offsetHeight (prop d e))%Z)
  ∨ ((1 < offsetWidth (prop d e))%Z ∧ (offsetHeight (prop d e) <= 1)%Z) →
  isSmallFormElement (prop d e) = false
  ∧ isElementVisible d e = false
  ∧ ¬ In e (numbered v d).
Proof.
  intros Ht Hdim.
  assert (isSmallFormElement (prop d e) = false) as Hsmall.
  { unfold isSmallFormElement. rewrite Ht. cbn [andb].
    destruct Hdim as [[_ H]|[H _]]; apply Z.leb_gt in H; rewrite H;
      by rewrite ?andb_false_r. }
  assert (isElementVisible d e = false) as Hvis.
  { unfold isElementVisible. rewrite Hsmall. cbn [negb andb].
    assert ((offsetWidth (prop d e) <=? 1)%Z || (offsetHeight (prop d e) <=? 1)%Z = true)
      as ->.
    { destruct Hdim as [[H _]|[_ H]]; apply Z.leb_le in H; rewrite H;
        by rewrite ?orb_true_r. }
    cbn [orb]. by repeat match goal with |- context [if ?c then _ else _] => destruct c end. }
  split; [done|]. split; [done|]. rewrite numbered_In. intros [_ ?]. congruence.
Qed.

Lemma thin_toggle_not_visible_witness :
  isSmallFormElement (prop thin_toggle_page [0; 0; 1; 0]) = false
  ∧ isElementVisible thin_toggle_page [0; 0; 1; 0] = false
  ∧ ¬ In [0; 0; 1; 0] (numbered Basic thin_toggle_page).
Proof.
  apply (thin_toggle_not_visible Basic thin_toggle_page [0; 0; 1; 0]).
  - vm_compute. reflexivity.
  - left. vm_compute. split; [discriminate|reflexivity].
Defined.

Lemma find_up_is_Some P x :
  is_Some (find_up P x) ↔ ∃ a, a ≠ [] ∧ a `suffix_of` x ∧ P a = true.
Proof.
  split.
  - intros [r Hr]. exists r. destruct (find_up_Some _ _ _ Hr) as (? & ? & ?). done.
  - intros (a & Ha & Hs & HP). destruct (find_up P x) eqn:Hf; [by eexists|].
    pose proof (find_up_None _ _ _ Hf Ha Hs). congruence.
Qed.

Lemma Qle_bool_false x y : Qle_bool x y = false ↔ (y < x)%Q.
Proof.
  rewrite <- not_true_iff_false, Qle_bool_iff. split.
  - apply Qnot_le_lt.
  - apply Qlt_not_le.
Qed.

Lemma hit_check d e rect (reach : bool) elementAtPoint :
  (if reach then true
   else if bool_decide (elementAtPoint = [])
           || (negb (bool_decide (elementAtPoint = e))
               && negb (contains e elementAtPoint)
               && negb (contains elementAtPoint e))
   then false
   else if Qeq_bool (rect_width rect * rect_height rect) 0 then false
   else in_viewport d rect) = true
  ↔ reach = true
    ∨ (elementAtPoint ≠ []
       ∧ (elementAtPoint = e ∨ contains e elementAtPoint = true
          ∨ contains elementAtPoint e = true)
       ∧ ¬ (rect_width rect * rect_height rect == 0)%Q
       ∧ within_viewport d rect).
Proof.
  rewrite <- in_viewport_true, <- Qeq_bool_iff.
  destruct reach; [split; [by left|done]|].
  destruct (bool_decide (elementAtPoint = [])) eqn:Hnull; cbn [orb].
  { apply bool_decide_eq_true in Hnull. split; [done|]. intros [?|(? & _)]; done. }
  apply bool_decide_eq_false in Hnull.
  destruct (bool_decide (elementAtPoint = e)) eqn:H1; cbn [negb andb].
  - apply bool_decide_eq_true in H1.
    destruct (Qeq_bool _ 0); [split; [done|]; intros [?|(_ & _ & ? & _)]; done|].
    split; [|intros [?|(_ & _ & _ & ?)]; done].
    intros ?. right. repeat split; auto.
  - apply bool_decide_eq_false in H1.
    destruct (contains e elementAtPoint) eqn:H2; cbn [negb andb].
    + destruct (Qeq_bool _ 0); [split; [done|]; intros [?|(_ & _ & ? & _)]; done|].
      split; [|intros [?|(_ & _ & _ & ?)]; done].
      intros ?. right. repeat split; auto.
    + destruct (contains elementAtPoint e) eqn:H3; cbn [negb andb].
      * destruct (Qeq_bool _ 0); [split; [done|]; intros [?|(_ & _ & ? & _)]; done|].
        split; [|intros [?|(_ & _ & _ & ?)]; done].
        intros ?. right. repeat split; auto.
      * split; [done|]. intros [?|(_ & [?|[?|?]] & _)]; done.
Qed.

(** X14.  A checkbox or a radio button passes the filter exactly when
    neither it nor an ancestor is hidden, it is a target of pointer events,
    its size is accepted, and the element under the centre of its box is
    accepted. The size is accepted when the element is wider and higher than
    one pixel, or when both dimensions are at most one pixel and the parent
    with the label is the element itself or is wider and higher than one
    pixel. The element under the centre is accepted when it or one of its
    ancestors is a label for the id of the element or contains the element,
    and otherwise under the conditions of an ordinary element: related to
    the element, with a box that has an area and lies within the viewport. *)
Theorem toggle_visible_iff d e :
  is_toggle (prop d e) = true →
  let x := prop d e in
  let rect := boundingClientRect x in
  let elementAtPoint := hit_test d rect in
  let parentRect := boundingClientRect (prop d (getParentWithLabel d e)) in
  isElementVisible d e = true
  ↔ (¬ ∃ a, ancestor_or_self a e ∧ hidden_style d a)
    ∧ pointerEvents x ≠ "none"
    ∧ (((offsetWidth x <= 1)%Z ∧ (offsetHeight x <= 1)%Z
        ∧ (getParentWithLabel d e = e
           ∨ ((1 < rect_width parentRect)%Q ∧ (1 < rect_height parentRect)%Q)))
       ∨ ((1 < offsetWidth x)%Z ∧ (1 < offsetHeight x)%Z))
    ∧ ((∃ a, ancestor_or_self a elementAtPoint
             ∧ (label_for (el_id d e) (prop d a) = true ∨ contains a e = true))
       ∨ (elementAtPoint ≠ []
          ∧ (elementAtPoint = e ∨ contains e elementAtPoint = true
             ∨ contains elementAtPoint e = true)
          ∧ ¬ (rect_width rect * rect_height rect == 0)%Q
          ∧ within_viewport d rect)).
Proof.
  intros Ht x rect elementAtPoint parentRect.
  assert (e ≠ []) as Hne by (intros ->; vm_compute in Ht; done).
  unfold isElementVisible, isSmallFormElement. rewrite Ht.
  fold x. fold rect. fold elementAtPoint. fold parentRect. cbn [andb].
  rewrite <- isHiddenByAncestors_true.
  set (reach := bool_decide (is_Some (find_up _ elementAtPoint))).
  assert (reach = true ↔
          ∃ a, ancestor_or_self a elementAtPoint
               ∧ (label_for (el_id d e) (prop d a) = true ∨ contains a e = true))
    as Hreach.
  { unfold reach. rewrite bool_decide_eq_true, find_up_is_Some.
    unfold ancestor_or_self, label_for, getAttribute.
    split; intros (a & H); exists a.
    - destruct H as (Ha & Hs%contains_suffix & HP). split; [done|].
      by apply orb_true_iff in HP.
    - destruct H as ((Ha & Hs%contains_suffix) & HP). split; [done|]. split; [done|].
      by apply orb_true_iff. }
  rewrite <- Hreach. clearbody reach. clear Hreach.
  rewrite <- (hit_check d e rect reach elementAtPoint).
  set (tail := if reach then true else _).
  destruct (isHiddenByAncestors d e) eqn:Hhid; [split; [done|intros [[] _]; done]|].
  destruct (bool_decide (pointerEvents x = "none")) eqn:Hpe.
  { apply bool_decide_eq_true in Hpe. split; [done|]. by intros (_ & ? & _). }
  apply bool_decide_eq_false in Hpe.
  assert (bool_decide (visibility x = "hidden") || bool_decide (display x = "none") = false)
    as Hstyle.
  { destruct e as [|i p]; [done|]. cbn [isHiddenByAncestors] in Hhid. fold x in Hhid.
    destruct (bool_decide (display x = "none")), (bool_decide (visibility x = "hidden"));
      done. }
  rewrite <- !orb_assoc, Hstyle, orb_false_r.
  destruct (offsetWidth x <=? 1)%Z eqn:Hw; destruct (offsetHeight x <=? 1)%Z eqn:Hh;
    cbn [andb orb negb];
    try apply Z.leb_le in Hw; try apply Z.leb_gt in Hw;
    try apply Z.leb_le in Hh; try apply Z.leb_gt in Hh.
  - destruct (bool_decide (getParentWithLabel d e = e)) eqn:Hself; cbn [negb andb].
    + apply bool_decide_eq_true in Hself. split.
      * intros ?. split; [by intros ?|]. split; [done|]. split; [left; auto|done].
      * by intros (_ & _ & _ & ?).
    + apply bool_decide_eq_false in Hself.
      destruct (Qle_bool (rect_width parentRect) 1) eqn:Hpw; cbn [orb].
      { apply Qle_bool_iff in Hpw. split; [done|].
        intros (_ & _ & [(_ & _ & [?|[Hlt _]])|[? ?]] & _); [done| |lia].
        by apply Qlt_not_le in Hlt. }
      destruct (Qle_bool (rect_height parentRect) 1) eqn:Hph.
      { apply Qle_bool_iff in Hph. split; [done|].
        intros (_ & _ & [(_ & _ & [?|[_ Hlt]])|[? ?]] & _); [done| |lia].
        by apply Qlt_not_le in Hlt. }
      apply Qle_bool_false in Hpw, Hph. split.
      * intros ?. split; [by intros ?|]. split; [done|]. split; [left; auto|done].
      * by intros (_ & _ & _ & ?).
  - split; [done|]. intros (_ & _ & [(? & ? & _)|[? ?]] & _); lia.
  - split; [done|]. intros (_ & _ & [(? & ? & _)|[? ?]] & _); lia.
  - split.
    + intros ?. split; [by intros ?|]. split; [done|]. split; [by right|done].
    + by intros (_ & _ & _ & ?).
Qed.

Lemma toggle_visible_iff_witness :
  pointerEvents (prop labelled_toggle_page [0; 0; 1; 0]) ≠ "none".
Proof.
  destruct (toggle_visible_iff labelled_toggle_page [0; 0; 1; 0]) as [H _].
  - vm_compute. reflexivity.
  - destruct H as (_ & Hpe & _); [vm_compute; reflexivity|exact Hpe].
Defined.

(** ** The parent that holds the label *)





(** ** The text of a description *)

Lemma string_rev_app s t : String.rev_app s t = String.rev s +:+ t.
Proof.
  unfold String.rev. revert t. induction s as [|c s IH]; intros t; [done|].
  simpl. rewrite IH, (IH (String c "")), append_assoc. done.
Qed.

Lemma string_rev_cons c s : String.rev (String c s) = String.rev s +:+ String c "".
Proof. unfold String.rev at 1. simpl. apply string_rev_app. Qed.

Lemma string_rev_append s t : String.rev (s +:+ t) = String.rev t +:+ String.rev s.
Proof.
  induction s as [|c s IH].
  - by rewrite append_empty_r.
  - change (String c s +:+ t) with (String c (s +:+ t)).
    by rewrite !string_rev_cons, IH, append_assoc.
Qed.

Lemma string_rev_involutive s : String.rev (String.rev s) = s.
Proof.
  induction s as [|c s IH]; [done|]. by rewrite string_rev_cons, string_rev_append, IH.
Qed.

Lemma string_rev_empty s : String.rev s = "" ↔ s = "".
Proof.
  split; [|by intros ->]. intros H. by rewrite <- (string_rev_involutive s), H.
Qed.

Lemma trim_start_append s t :
  JS.trim_start (s +:+ t)
  = match JS.trim_start s with
    | EmptyString => JS.trim_start t
    | String _ _ => JS.trim_start s +:+ t
    end.
Proof.
  induction s as [|c s IH]; [done|].
  change (String c s +:+ t) with (String c (s +:+ t)). cbn [JS.trim_start].
  destruct (JS.is_space c); [apply IH|done].
Qed.

(** [trimEnd], by recursion from the front. *)
Lemma trim_end_cons c s :
  JS.trim_end (String c s)
  = if JS.is_space c && bool_decide (JS.trim_end s = "") then ""
    else String c (JS.trim_end s).
Proof.
  unfold JS.trim_end. rewrite string_rev_cons, trim_start_append.
  destruct (JS.trim_start (String.rev s)) as [|a u] eqn:Hu.
  - rewrite bool_decide_eq_true_2 by done. cbn [JS.trim_start].
    by destruct (JS.is_space c).
  - rewrite bool_decide_eq_false_2.
    + by rewrite andb_false_r, string_rev_append.
    + intros H. by apply (proj1 (string_rev_empty _)) in H.
Qed.

Lemma single_spaced_weaken s : single_spaced true s = true → single_spaced false s = true.
Proof.
  destruct s as [|c s]; [done|]. simpl. destruct (JS.is_space c); [|done].
  by rewrite andb_false_r.
Qed.

Lemma single_spaced_collapse b s : single_spaced b (JS.collapse_from b s) = true.
Proof.
  revert b. induction s as [|c s IH]; intros b; [done|]. simpl.
  destruct (JS.is_space c) eqn:Hc.
  - destruct b; [apply IH|]. simpl. apply IH.
  - simpl. rewrite Hc. apply IH.
Qed.

Lemma single_spaced_trim_start b s :
  single_spaced b s = true → single_spaced false (JS.trim_start s) = true.
Proof.
  revert b. induction s as [|c s IH]; intros b; [done|]. simpl.
  destruct (JS.is_space c) eqn:Hc.
  - intros (_ & H)%andb_true_iff. by eapply IH.
  - intros H. simpl. by rewrite Hc.
Qed.

Lemma single_spaced_trim_end b s :
  single_spaced b s = true → single_spaced b (JS.trim_end s) = true.
Proof.
  revert b. induction s as [|c s IH]; intros b; [done|].
  rewrite trim_end_cons. simpl.
  destruct (JS.is_space c) eqn:Hc; simpl.
  - intros ([Hsp Hb]%andb_true_iff & H)%andb_true_iff.
    destruct (bool_decide (JS.trim_end s = "")); [done|].
    simpl. rewrite Hc, Hsp, Hb. simpl. by apply IH.
  - intros H. rewrite Hc. by apply IH.
Qed.

Lemma starts_with_space_trim_start s : starts_with_space (JS.trim_start s) = false.
Proof.
  induction s as [|c s IH]; [done|]. simpl.
  destruct (JS.is_space c) eqn:Hc; [done|]. simpl. done.
Qed.

Lemma starts_with_space_trim_end s :
  starts_with_space s = false → starts_with_space (JS.trim_end s) = false.
Proof.
  destruct s as [|c s]; [done|]. rewrite trim_end_cons. simpl.
  intros Hc. by rewrite Hc.
Qed.

Lemma ends_with_space_trim_end s : ends_with_space (JS.trim_end s) = false.
Proof.
  induction s as [|c s IH]; [done|]. rewrite trim_end_cons.
  destruct (JS.is_space c) eqn:Hc; simpl.
  - destruct (bool_decide (JS.trim_end s = "")) eqn:He; [done|].
    apply bool_decide_eq_false in He. simpl.
    destruct (JS.trim_end s); [done|]. done.
  - destruct (JS.trim_end s) eqn:Hs; [by simpl|]. done.
Qed.

Lemma trim_start_id s : starts_with_space s = false → JS.trim_start s = s.
Proof. destruct s as [|c s]; [done|]. simpl. by intros ->. Qed.

Lemma trim_end_id s : ends_with_space s = false → JS.trim_end s = s.
Proof.
  induction s as [|c s IH]; [done|]. rewrite trim_end_cons.
  destruct s as [|c' s].
  - simpl. intros ->. done.
  - intros H. rewrite IH by done. rewrite bool_decide_eq_false_2 by done.
    by rewrite andb_false_r.
Qed.

Lemma collapse_from_id b s : single_spaced b s = true → JS.collapse_from b s = s.
Proof.
  revert b. induction s as [|c s IH]; intros b; [done|]. simpl.
  destruct (JS.is_space c) eqn:Hc.
  - intros ([Hsp Hb]%andb_true_iff & H)%andb_true_iff.
    apply bool_decide_eq_true in Hsp. apply negb_true_iff in Hb. subst.
    f_equal. by apply IH.
  - intros H. f_equal. by apply IH.
Qed.

(** X17.  A description is normalised: it does not begin and does not end
    with white space, every white space character in it is a space, no two
    spaces are adjacent, and the normalisation that ends the construction of
    a description leaves it as it is. *)
Theorem simplified_html_normalized v d e :
  let s := simplified_html v d e in
  single_spaced false s = true
  ∧ starts_with_space s = false
  ∧ ends_with_space s = false
  ∧ JS.trim (JS.collapse_spaces s) = s.
Proof.
  intros s. subst s. unfold simplified_html.
  set (raw := _ +:+ _).
  assert (single_spaced false (JS.trim (JS.collapse_spaces raw)) = true) as H1.
  { apply single_spaced_trim_end.
    apply (single_spaced_trim_start false), single_spaced_collapse. }
  assert (starts_with_space (JS.trim (JS.collapse_spaces raw)) = false) as H2.
  { apply starts_with_space_trim_end, starts_with_space_trim_start. }
  assert (ends_with_space (JS.trim (JS.collapse_spaces raw)) = false) as H3.
  { apply ends_with_space_trim_end. }
  split; [done|]. split; [done|]. split; [done|].
  unfold JS.collapse_spaces at 1. rewrite collapse_from_id by done.
  unfold JS.trim at 1. rewrite trim_start_id by done. by apply trim_end_id.
Qed.

Lemma fold_left_ext_in {A B} (f g : A → B → A) (l : list B) a :
  (∀ a b, b ∈ l → f a b = g a b) → fold_left f l a = fold_left g l a.
Proof.
  revert a. induction l as [|b l IH]; intros a H; [done|]. simpl.
  rewrite H by (by left). apply IH. intros. apply H. by right.
Qed.

(** X18.  The description of an element that is no input is determined by
    the tag of the element, its own text, and its attributes on the list of
    the variant: no other attribute, no style and nothing of another element
    enters it. *)
Theorem description_of_listed_attributes v d e d' e' :
  let attrs := match v with Basic => basic_attrs | Rich => rich_attrs end in
  tagName (prop d e) ≠ "input" →
  tagName (prop d' e') = tagName (prop d e) →
  own_text v (prop d' e') = own_text v (prop d e) →
  (∀ a, a ∈ attrs → attributes (prop d' e') !! a = attributes (prop d e) !! a) →
  simplified_html v d' e' = simplified_html v d e.
Proof.
  intros attrs Hinput Htag Htext Hattrs.
  assert (inner_text v d' e' = inner_text v d e) as Hi.
  { rewrite !inner_text_spec, Htag, Htext.
    by rewrite (bool_decide_eq_false_2 _ Hinput). }
  unfold simplified_html. rewrite Hi, Htag. do 2 f_equal. f_equal.
  destruct v; apply fold_left_ext_in; intros s a Ha;
    unfold add_attr_basic, add_attr_rich; by rewrite (Hattrs a Ha).
Qed.

Lemma description_of_listed_attributes_witness :
  simplified_html Rich (scan Rich long_title_page).1 [0; 1; 0]
  = simplified_html Rich long_title_page [0; 1; 0].
Proof.
  apply (description_of_listed_attributes Rich long_title_page [0; 1; 0]).
  - vm_compute. discriminate.
  - vm_compute. reflexivity.
  - vm_compute. reflexivity.
  - intros a Ha. apply list_elem_of_In in Ha. simpl in Ha.
    repeat (destruct Ha as [<-|Ha]; [vm_compute; reflexivity|]). done.
Defined.

(** ** What a call of the renderer does to the document *)

Lemma draw_one_no_body r d index :
  body d = [] →
  draw_one r d index = if resolves r d index then None else Some d.
Proof.
  intros Hb. unfold draw_one, resolves.
  destruct (querySelector d _) as [el|].
  - rewrite bool_decide_eq_true_2 by (by eexists).
    unfold body_appendChild. by rewrite (bool_decide_eq_true_2 (body d = [])).
  - by rewrite bool_decide_eq_false_2 by (by intros [??]).
Qed.

Lemma draw_all_no_body r d indices :
  body d = [] →
  draw_all r d indices = if existsb (resolves r d) indices then None else Some d.
Proof.
  intros Hb. induction indices as [|index rest IH]; [done|].
  cbn [draw_all existsb]. rewrite draw_one_no_body by done.
  destruct (resolves r d index); [done|]. cbn. apply IH.
Qed.

(** X19.  The renderer throws exactly when the document has no body and some
    handle of the processed sequence has an element to draw around: the
    first node it makes cannot be appended. *)
Theorem draw_throws_iff r d indices :
  draw r d indices = None
  ↔ body (clear_overlays d) = []
    ∧ ∃ index, index ∈ effective_indices r d indices
               ∧ resolves r (clear_overlays d) index = true.
Proof.
  unfold draw. destruct (decide (body (clear_overlays d) = [])) as [Hb|Hb].
  - rewrite draw_all_no_body by done.
    destruct (existsb _ _) eqn:He.
    + split; [|done]. intros _. split; [done|].
      apply existsb_exists in He as (i & Hi & Hr). exists i.
      by rewrite list_elem_of_In.
    + split; [done|]. intros (_ & i & Hi & Hr). exfalso.
      apply not_true_iff_false in He. apply He, existsb_exists.
      exists i. by rewrite <- list_elem_of_In.
  - destruct (draw_all_Some r _ (effective_indices r d indices) Hb) as (d1 & -> & _).
    split; [done|]. by intros [? _].
Qed.




Lemma appendChild_old d p x e0 :
  getElement d p = Some e0 →
  let d' := appendChild d p (Elem x []) in
  (∀ n, n ∈ all_elements d → n ∈ all_elements d' ∧ prop d' n = prop d n).
Proof.
  intros Hp d' n Hn.
  destruct (appendChild_elements d p x e0 Hp) as (L1 & L2 & new & HL & HL' & _ & Hold).
  fold d' in HL', Hold. rewrite HL in Hn. split.
  - rewrite HL'. apply elem_of_app in Hn as [?|?]; set_solver.
  - apply Hold. by apply list_elem_of_In.
Qed.

(** The nodes one step of the renderer adds. *)
Lemma draw_one_content r d index :
  body d ≠ [] →
  ∃ d1, draw_one r d index = Some d1
    ∧ scrollX d1 = scrollX d ∧ scrollY d1 = scrollY d
    ∧ (∀ n, n ∈ all_elements d → n ∈ all_elements d1 ∧ prop d1 n = prop d n)
    ∧ overlay_nodes d1 ≡ₚ (el_data <$> overlay_of r d index) ++ overlay_nodes d.
Proof.
  intros Hb. unfold draw_one, overlay_of.
  destruct (querySelector d (marked_as (lookup_marker r) index)) as [el|].
  2:{ exists d. by repeat split. }
  set (rect := boundingClientRect (prop d el)).
  destruct (body_valid d Hb) as [b Hbody].
  rewrite (body_appendChild_Some d _ Hb). cbn.
  set (d1 := appendChild d (body d) (rect_overlay r d rect)).
  assert (body d1 = body d) as Hb1 by apply body_appendChild_body.
  assert (body d1 ≠ []) as Hb1' by (by rewrite Hb1).
  destruct (body_valid d1 Hb1') as [b1 Hbody1].
  rewrite (body_appendChild_Some d1 _ Hb1').
  set (d2 := appendChild d1 (body d1) (label_overlay r d rect index)).
  exists d2. split; [done|]. split; [done|]. split; [done|]. split.
  - intros n Hn.
    destruct (appendChild_old d (body d) (el_data (rect_overlay r d rect)) _
                Hbody n Hn) as [Hn1 Hp1].
    destruct (appendChild_old d1 (body d1) (el_data (label_overlay r d rect index)) _
                Hbody1 n Hn1) as [Hn2 Hp2].
    split; [done|]. etrans; [exact Hp2|exact Hp1].
  - pose proof (querySelectorAll_appendChild id d1 (body d1)
                  (el_data (label_overlay r d rect index)) b1 is_overlay Hbody1) as H2.
    pose proof (querySelectorAll_appendChild id d (body d)
                  (el_data (rect_overlay r d rect)) b is_overlay Hbody) as H1.
    cbv zeta in H1, H2. unfold overlay_nodes.
    etrans; [exact H2|]. clear H2.
    etrans; [apply Permutation_app_head; exact H1|]. clear H1.
    cbn [app fmap list_fmap id]. apply perm_swap.
Qed.

Lemma overlay_of_ext r d d' index :
  scrollX d' = scrollX d → scrollY d' = scrollY d →
  querySelector d' (marked_as (lookup_marker r) index)
  = querySelector d (marked_as (lookup_marker r) index) →
  (∀ n, n ∈ all_elements d → prop d' n = prop d n) →
  overlay_of r d' index = overlay_of r d index.
Proof.
  intros Hx Hy Hq Hp. unfold overlay_of. rewrite Hq.
  destruct (querySelector d _) as [el|] eqn:Hel; [|done].
  apply find_some in Hel as [Hin%list_elem_of_In _]. rewrite (Hp _ Hin).
  unfold rect_overlay, label_overlay. by rewrite Hx, Hy.
Qed.

Lemma draw_all_content r d0 d indices :
  body d ≠ [] →
  scrollX d = scrollX d0 → scrollY d = scrollY d0 →
  (∀ i, querySelector d (marked_as (lookup_marker r) i)
        = querySelector d0 (marked_as (lookup_marker r) i)) →
  (∀ n, n ∈ all_elements d0 → n ∈ all_elements d ∧ prop d n = prop d0 n) →
  ∃ d1, draw_all r d indices = Some d1
    ∧ overlay_nodes d1
      ≡ₚ (el_data <$> concat (overlay_of r d0 <$> indices)) ++ overlay_nodes d.
Proof.
  revert d. induction indices as [|index rest IH]; intros d Hb Hx Hy Hq Hp.
  - exists d. by split.
  - destruct (draw_one_content r d index Hb) as (d' & Hd' & Hx' & Hy' & Hp' & Hn').
    destruct (draw_one_spec r d index Hb) as (d'' & Hd'' & Hb' & Hq' & _).
    rewrite Hd' in Hd''. injection Hd'' as <-.
    destruct (IH d') as (d1 & Hd1 & Hn1).
    + by rewrite Hb'.
    + congruence.
    + congruence.
    + intros i. by rewrite Hq'.
    + intros n Hn. destruct (Hp n Hn) as [Hn0 Hp0].
      destruct (Hp' n Hn0) as [Hn1 Hp1]. split; [done|]. congruence.
    + exists d1. cbn [draw_all]. rewrite Hd'. cbn. split; [done|].
      rewrite Hn1, Hn'. cbn [fmap list_fmap concat]. rewrite fmap_app.
      rewrite (overlay_of_ext r d0 d index) by (auto; intros; by apply Hp).
      rewrite <- !app_assoc. apply Permutation_app_swap_app.
Qed.

Lemma overlay_nodes_cleared d : overlay_nodes (clear_overlays d) = [].
Proof.
  unfold overlay_nodes, querySelectorAll. rewrite filter_none; [done|].
  intros n. unfold is_overlay. by rewrite !has_class_cleared by auto.
Qed.

(** X21.  In a document with a body the overlay that a call of the renderer
    leaves behind consists of the nodes made for the processed handles: for
    every handle with a marked element, one rectangle and one label with the
    text, the class and the style computed from the box of this element and
    the scroll position, and no other node. *)
Theorem draw_overlay_content r d indices :
  body (clear_overlays d) ≠ [] →
  ∃ d', draw r d indices = Some (d', length (effective_indices r d indices))
    ∧ overlay_nodes d'
      ≡ₚ el_data <$> concat (overlay_of r (clear_overlays d)
                               <$> effective_indices r d indices).
Proof.
  intros Hb. unfold draw.
  destruct (draw_all_content r (clear_overlays d) (clear_overlays d)
              (effective_indices r d indices)) as (d1 & -> & Hn); auto.
  exists d1. split; [done|]. by rewrite Hn, overlay_nodes_cleared, app_nil_r.
Qed.

Lemma draw_overlay_content_witness :
  ∃ d', draw Current (scan Basic wrapped_field_page).1 (Some [JS.Int 1; JS.Int 7])
        = Some (d', 2)
    ∧ overlay_nodes d'
      ≡ₚ el_data <$> [rect_overlay Current wrapped_field_page (box 10 40 200 20);
                      label_overlay Current wrapped_field_page (box 10 40 200 20) (JS.Int 1)].
Proof.
  destruct (draw_overlay_content Current (scan Basic wrapped_field_page).1
              (Some [JS.Int 1; JS.Int 7])) as (d' & Hd & Hn).
  - vm_compute. discriminate.
  - exists d'. split; [exact Hd|]. etrans; [exact Hn|]. vm_compute. reflexivity.
Defined.

Lemma elem_prune_id sel e :
  (∀ p x, elem_lookup p e = Some x → sel (el_data x) = false) → elem_prune sel e = e.
Proof.
  induction e as [data children IH] using Element_ind'. intros Hsel.
  cbn [elem_prune]. f_equal.
  assert (elem_prune sel <$> children = children) as ->.
  { rewrite <- (list_fmap_id children) at 2. apply Forall_fmap_ext_1.
    rewrite Forall_forall in IH. apply Forall_forall. intros c Hc.
    apply IH; [done|]. intros p x Hx.
    apply list_elem_of_lookup_1 in Hc as [i Hi].
    apply (Hsel (i :: p)). cbn. by rewrite Hi. }
  induction children as [|c cs IHc]; [done|]. cbn [List.filter].
  rewrite (Hsel [0] c) by done. cbn [negb]. f_equal.
  apply IHc.
  - by apply Forall_cons in IH as [_ ?].
  - intros [|i p] x Hx.
    + injection Hx as <-. by apply (Hsel [] (Elem data (c :: cs))).
    + by apply (Hsel (S i :: p)).
Qed.

Lemma forest_prune_id sel f :
  (∀ p x, forest_lookup p f = Some x → sel (el_data x) = false) → forest_prune sel f = f.
Proof.
  intros Hsel. induction f as [|c cs IH]; [done|]. unfold forest_prune in *.
  cbn [fmap list_fmap List.filter].
  rewrite el_data_prune, (Hsel [0] c) by done. cbn [negb].
  rewrite elem_prune_id by (intros p x Hx; by apply (Hsel (0 :: p))). f_equal.
  apply IH. intros [|i p] x Hx; [done|]. by apply (Hsel (S i :: p)).
Qed.

Lemma clear_overlays_id d : overlay_nodes d = [] → clear_overlays d = d.
Proof.
  intros Hn. rewrite clear_overlays_prune, forest_prune_id; [apply with_roots_id|].
  intros p x Hx. apply not_true_iff_false. intros Hs.
  assert (rev p ∈ querySelectorAll d is_overlay) as Hin.
  { apply list_elem_of_In, filter_In. split.
    - apply list_elem_of_In, all_elements_valid. unfold getElement.
      rewrite rev_involutive. by eexists.
    - unfold prop, getElement. by rewrite rev_involutive, Hx. }
  unfold overlay_nodes in Hn. apply map_eq_nil in Hn. rewrite Hn in Hin.
  by apply elem_of_nil in Hin.
Qed.

(** X22.  In a document without overlay nodes, a call of the renderer with
    handles of which none has an element leaves the document exactly as it
    is and returns the number of the handles; this holds also for a document
    without a body. *)
Theorem draw_nothing_to_draw r d index rest :
  overlay_nodes d = [] →
  (∀ i, i ∈ index :: rest → resolves r d i = false) →
  draw r d (Some (index :: rest)) = Some (d, S (length rest)).
Proof.
  intros Hn Hres. unfold draw. rewrite (clear_overlays_id d Hn).
  cbn [effective_indices].
  assert (∀ l, (∀ i, i ∈ l → resolves r d i = false) → draw_all r d l = Some d) as Hall.
  { induction l as [|i l IH]; intros Hl; [done|]. cbn [draw_all].
    unfold draw_one. pose proof (Hl i ltac:(left)) as Hi. unfold resolves in Hi.
    apply bool_decide_eq_false in Hi.
    destruct (querySelector d _) as [el|]; [by destruct Hi|]. cbn.
    apply IH. intros j Hj. apply Hl. by right. }
  by rewrite Hall.
Qed.

Lemma draw_nothing_to_draw_witness :
  draw Legacy hidden_button_page (Some [JS.Int 0; JS.NaN])
  = Some (hidden_button_page, 2).
Proof.
  apply (draw_nothing_to_draw Legacy hidden_button_page (JS.Int 0) [JS.NaN]).
  - vm_compute. reflexivity.
  - intros i Hi. apply list_elem_of_In in Hi.
    destruct Hi as [<-|[<-|[]]]; vm_compute; reflexivity.
Defined.







(** ** The task list of the benchmark *)

Lemma keys_set k t m :
  Tasks.keys (Tasks.set k t m)
  = if decide (k ∈ Tasks.keys m) then Tasks.keys m else Tasks.keys m ++ [k].
Proof.
  unfold Tasks.keys. induction m as [|[k' t'] m IH]; [done|]. cbn.
  destruct (decide (k' = k)) as [->|Hne]; cbn.
  - by rewrite decide_True by left.
  - rewrite IH. destruct (decide (k ∈ fst <$> m)).
    + by rewrite decide_True by (by right).
    + rewrite decide_False; [done|]. intros [?|?]%elem_of_cons; congruence.
Qed.

Lemma NoDup_keys_set k t m : NoDup (Tasks.keys m) → NoDup (Tasks.keys (Tasks.set k t m)).
Proof.
  intros H. rewrite keys_set. case_decide; [done|].
  apply NoDup_app. split; [done|]. split; [|apply NoDup_singleton].
  intros x Hx ->%list_elem_of_singleton. done.
Qed.

Lemma length_set k t m :
  length (Tasks.set k t m) = if decide (k ∈ Tasks.keys m) then length m else S (length m).
Proof.
  rewrite <- (length_fmap fst (Tasks.set k t m)).
  change (fst <$> Tasks.set k t m) with (Tasks.keys (Tasks.set k t m)).
  rewrite keys_set. unfold Tasks.keys. case_decide; rewrite ?length_app, length_fmap; simpl; lia.
Qed.

Lemma get_set k t m k' :
  Tasks.get k' (Tasks.set k t m) = if decide (k' = k) then Tasks.Ok t else Tasks.get k' m.
Proof.
  induction m as [|[k0 t0] m IH]; cbn.
  - destruct (decide (k = k')) as [->|]; [by rewrite decide_True|].
    by rewrite decide_False by congruence.
  - destruct (decide (k0 = k)) as [->|Hne]; cbn.
    + destruct (decide (k = k')) as [->|]; [by rewrite decide_True|].
      by rewrite decide_False by congruence.
    + destruct (decide (k0 = k')) as [->|]; [by rewrite decide_False|]. apply IH.
Qed.

Lemma get_Ok k m t : Tasks.get k m = Tasks.Ok t → (k, t) ∈ m.
Proof.
  induction m as [|[k0 t0] m IH]; cbn; [done|].
  destruct (decide (k0 = k)) as [->|]; [intros [= ->]; by left|].
  intros ?. right. by apply IH.
Qed.

Lemma get_Raise k m : k ∉ Tasks.keys m ↔ Tasks.get k m = Tasks.Raise Tasks.KeyError.
Proof.
  unfold Tasks.keys. induction m as [|[k0 t0] m IH]; cbn.
  - split; [done|]. intros _ ?%elem_of_nil. done.
  - destruct (decide (k0 = k)) as [->|Hne].
    + split; [|done]. intros []. by left.
    + rewrite <- IH. rewrite not_elem_of_cons. split; [by intros [_ ?]|]. by split.
Qed.

Lemma filter_all {A} (f : A → bool) (l : list A) :
  (∀ x, In x l → f x = true) → List.filter f l = l.
Proof.
  induction l as [|x l IH]; intros H; [done|]. cbn.
  rewrite (H x) by (by left). f_equal. apply IH. intros. apply H. by right.
Qed.

Lemma del_spec k m :
  NoDup (Tasks.keys m) →
  Tasks.del k m
  = if decide (k ∈ Tasks.keys m)
    then Tasks.Ok (List.filter (λ kv, bool_decide (kv.1 ≠ k)) m)
    else Tasks.Raise Tasks.KeyError.
Proof.
  unfold Tasks.keys. induction m as [|[k0 t0] m IH]; cbn; [done|].
  intros [Hk0 Hnd]%NoDup_cons.
  destruct (decide (k0 = k)) as [->|Hne].
  - rewrite decide_True by left. rewrite bool_decide_eq_false_2 by (by intros ?).
    f_equal. symmetry. apply filter_all.
    intros [k1 t1] Hin. apply bool_decide_eq_true. cbn. intros ->.
    apply Hk0. apply list_elem_of_fmap. exists (k, t1).
    split; [done|]. by apply list_elem_of_In.
  - rewrite (bool_decide_eq_true_2 (k0 ≠ k)) by done. rewrite IH by done.
    destruct (decide (k ∈ fst <$> m)).
    + by rewrite decide_True by (by right).
    + rewrite decide_False; [done|]. intros [?|?]%elem_of_cons; congruence.
Qed.

Lemma set_new k t m : k ∉ Tasks.keys m → Tasks.set k t m = m ++ [(k, t)].
Proof.
  unfold Tasks.keys. induction m as [|[k0 t0] m IH]; cbn; [done|].
  intros [Hne Hk]%not_elem_of_cons.
  rewrite decide_False by congruence. by rewrite IH.
Qed.

Lemma elem_of_set k t m k' t' :
  (k', t') ∈ Tasks.set k t m → (k', t') ∈ m ∨ (k', t') = (k, t).
Proof.
  induction m as [|[k0 t0] m IH]; cbn.
  - intros ->%list_elem_of_singleton. by right.
  - destruct (decide (k0 = k)) as [->|Hne].
    + intros [->|?]%elem_of_cons; [by right|]. left. by right.
    + intros [->|?]%elem_of_cons; [left; by left|].
      destruct IH as [?|?]; [done|left; by right|by right].
Qed.

Lemma index_raise e tasks :
  fold_left (λ acc t, Tasks.bind acc (λ m,
               Tasks.bind (Tasks.field "id" t) (λ id, Tasks.Ok (Tasks.set id t m))))
            tasks (Tasks.Raise e) = Tasks.Raise e.
Proof. induction tasks as [|t tasks IH]; [done|]. apply IH. Qed.

Lemma index_loop tasks ids m0 :
  Forall2 (λ (t : Tasks.task) k, t !! "id" = Some k) tasks ids →
  NoDup (Tasks.keys m0) →
  ∃ m,
    fold_left (λ acc t, Tasks.bind acc (λ m,
                 Tasks.bind (Tasks.field "id" t) (λ id, Tasks.Ok (Tasks.set id t m))))
              tasks (Tasks.Ok m0) = Tasks.Ok m
    ∧ NoDup (Tasks.keys m)
    ∧ (∀ k, k ∈ Tasks.keys m ↔ k ∈ Tasks.keys m0 ∨ k ∈ ids)
    ∧ (∀ k, k ∉ ids → Tasks.get k m = Tasks.get k m0)
    ∧ (∀ i k t, ids !! i = Some k → tasks !! i = Some t →
         (∀ j, i < j → ids !! j ≠ Some k) → Tasks.get k m = Tasks.Ok t)
    ∧ (NoDup (Tasks.keys m0 ++ ids) → m = m0 ++ zip ids tasks)
    ∧ (∀ k t, (k, t) ∈ m → (k, t) ∈ m0 ∨ t ∈ tasks).
Proof.
  intros H. revert m0. induction H as [|t k tasks ids Hk _ IH]; intros m0 Hnd.
  - exists m0. cbn. rewrite app_nil_r. repeat split; auto.
    + intros [?|?%elem_of_nil]; done.
    + intros i k t ?. done.
    + intros _. by rewrite app_nil_r.
  - assert (Tasks.field "id" t = Tasks.Ok k) as Hf by (unfold Tasks.field; by rewrite Hk).
    cbn [fold_left Tasks.bind]. rewrite Hf. cbn [Tasks.bind].
    destruct (IH (Tasks.set k t m0) (NoDup_keys_set k t m0 Hnd))
      as (m & Hm & Hnd' & Hkeys & Hout & Hlast & Hdistinct & Hvalues).
    exists m. split; [done|]. split; [done|].
    assert (∀ k', k' ∈ Tasks.keys (Tasks.set k t m0) ↔ k' ∈ Tasks.keys m0 ∨ k' = k)
      as Hset.
    { intros k'. rewrite keys_set. case_decide.
      - split; [by left|]. by intros [?| ->].
      - rewrite elem_of_app, list_elem_of_singleton. done. }
    split; [|split; [|split; [|split]]].
    + intros k'. rewrite Hkeys, Hset, elem_of_cons. tauto.
    + intros k' [Hne Hk']%not_elem_of_cons. rewrite Hout by done.
      rewrite get_set. by rewrite decide_False.
    + intros [|i] k' t' Hi Ht Hlater; simplify_eq/=.
      * rewrite Hout.
        -- rewrite get_set. by rewrite decide_True.
        -- intros [j Hj]%list_elem_of_lookup_1. apply (Hlater (S j)); [lia|done].
      * apply (Hlast i); [done..|]. intros j Hj. apply (Hlater (S j)). lia.
    + intros Hall. rewrite Hdistinct.
      * rewrite set_new; [by rewrite <- app_assoc|].
        apply NoDup_app in Hall as (_ & Hall & _). intros Hin.
        apply (Hall k Hin). by left.
      * rewrite keys_set. apply NoDup_app in Hall as (H1 & H2 & H3).
        apply NoDup_cons in H3 as [H3 H4].
        rewrite decide_False by (intros Hin; apply (H2 k Hin); by left).
        rewrite <- app_assoc. apply NoDup_app. split; [done|]. split; [|by constructor].
        intros x Hx. apply H2. done.
    + intros k' t' [Hin|Hin]%Hvalues; [|right; by right].
      apply elem_of_set in Hin as [Hin|[= -> ->]]; [by left|right; by left].
Qed.


Lemma index_missing tasks :
  (∃ t : Tasks.task, t ∈ tasks ∧ t !! "id" = None) →
  Tasks.index_tasks tasks = Tasks.Raise Tasks.KeyError.
Proof.
  intros (t & Ht & Hid). unfold Tasks.index_tasks.
  generalize (@nil (string * Tasks.task)). intros m0.
  revert m0. induction tasks as [|t' tasks IH]; intros m0.
  { by apply elem_of_nil in Ht. }
  cbn [fold_left Tasks.bind].
  destruct (t' !! "id") as [k|] eqn:Hk.
  - assert (Tasks.field "id" t' = Tasks.Ok k) as Hf
      by (unfold Tasks.field; by rewrite Hk).
    rewrite Hf. cbn [Tasks.bind]. apply IH.
    apply elem_of_cons in Ht as [->|Ht]; [congruence|done].
  - assert (Tasks.field "id" t' = Tasks.Raise Tasks.KeyError) as Hf
      by (unfold Tasks.field; by rewrite Hk).
    rewrite Hf. cbn [Tasks.bind]. apply index_raise.
Qed.

(** X24.  The first cell builds a dict whose keys are the ids of the tasks,
    each once; a task with the id of an earlier task takes the place of the
    earlier one, and with pairwise distinct ids the dict holds the tasks in
    the order of the file. A task without an id raises a KeyError. *)
Theorem index_tasks_spec tasks :
  ((∃ t, t ∈ tasks ∧ t !! "id" = None) →
   Tasks.index_tasks tasks = Tasks.Raise Tasks.KeyError)
  ∧ ∀ ids, Forall2 (λ (t : Tasks.task) k, t !! "id" = Some k) tasks ids →
      ∃ m, Tasks.index_tasks tasks = Tasks.Ok m
        ∧ NoDup (Tasks.keys m)
        ∧ (∀ k, k ∈ Tasks.keys m ↔ k ∈ ids)
        ∧ (∀ i k t, ids !! i = Some k → tasks !! i = Some t →
             (∀ j, i < j → ids !! j ≠ Some k) → Tasks.get k m = Tasks.Ok t)
        ∧ (NoDup ids → m = zip ids tasks).
Proof.
  split; [apply index_missing|].
  intros ids Hids.
  destruct (index_loop tasks ids [] Hids (NoDup_nil_2))
    as (m & Hm & Hnd & Hkeys & _ & Hlast & Hdistinct & _).
  exists m. split; [done|]. split; [done|]. split; [|split; [done|]].
  - intros k. rewrite Hkeys. split; [intros [?%elem_of_nil|?]; done|by right].
  - intros Hn. by apply Hdistinct.
Qed.

Lemma fold_left_nested {A B C} (f : A → B → A) (g : C → list B) (l : list C) a :
  fold_left (λ acc x, fold_left f (g x) acc) l a = fold_left f (concat (g <$> l)) a.
Proof.
  revert a. induction l as [|x l IH]; intros a; [done|]. cbn.
  by rewrite fold_left_app, IH.
Qed.

Lemma remove_raise e ids :
  fold_left Tasks.remove_step ids (Tasks.Raise e) = Tasks.Raise e.
Proof. induction ids as [|k ids IH]; [done|]. apply IH. Qed.

Lemma keys_filter k m :
  Tasks.keys (List.filter (λ kv : string * Tasks.task, bool_decide (kv.1 ≠ k)) m)
  = List.filter (λ k', bool_decide (k' ≠ k)) (Tasks.keys m).
Proof.
  unfold Tasks.keys. induction m as [|[k0 t0] m IH]; [done|]. cbn.
  destruct (bool_decide (k0 ≠ k)); cbn; by rewrite IH.
Qed.

Lemma remove_loop ids n m :
  NoDup (Tasks.keys m) →
  fold_left Tasks.remove_step ids (Tasks.Ok (n, m))
  = if decide (NoDup ids ∧ Forall (λ k, k ∈ Tasks.keys m) ids)
    then Tasks.Ok (n + length ids,
                   List.filter (λ kv, bool_decide (kv.1 ∉ ids)) m)
    else Tasks.Raise Tasks.KeyError.
Proof.
  revert n m. induction ids as [|k ids IH]; intros n m Hnd.
  - cbn. rewrite decide_True by (split; constructor).
    rewrite Nat.add_0_r. f_equal. f_equal. symmetry. apply filter_all.
    intros kv _. apply bool_decide_eq_true. apply not_elem_of_nil.
  - cbn [fold_left Tasks.remove_step Tasks.bind]. rewrite del_spec by done.
    destruct (decide (k ∈ Tasks.keys m)) as [Hk|Hk]; cbn [Tasks.bind].
    + rewrite IH.
      2:{ rewrite keys_filter. by apply NoDup_filter'. }
      assert (∀ k', k' ∈ Tasks.keys (List.filter (λ kv : string * Tasks.task,
                                         bool_decide (kv.1 ≠ k)) m)
                    ↔ k' ∈ Tasks.keys m ∧ k' ≠ k) as Hkeys.
      { intros k'. rewrite keys_filter, !list_elem_of_In, filter_In.
        by rewrite bool_decide_eq_true. }
      destruct (decide (NoDup ids ∧ Forall _ ids)) as [[H1 H2]|Hno].
      * rewrite decide_True.
        -- f_equal. f_equal; [simpl; lia|]. rewrite filter_filter'.
           apply filter_ext. intros [k' t']. cbn.
           apply eq_true_iff_eq.
           rewrite andb_true_iff, !bool_decide_eq_true, not_elem_of_cons. tauto.
        -- split.
           ++ constructor; [|done]. intros Hin.
              rewrite Forall_forall in H2. apply H2, Hkeys in Hin. tauto.
           ++ constructor; [done|]. eapply Forall_impl; [exact H2|].
              intros k' Hk'. cbn in Hk'. apply Hkeys in Hk'. tauto.
      * rewrite decide_False; [done|]. intros [[Hk' H1]%NoDup_cons [_ H2]%Forall_cons].
        apply Hno. split; [done|]. apply Forall_forall. intros k' Hin.
        apply Hkeys. split; [by eapply (proj1 (Forall_forall _ _) H2)|]. by intros ->.
    + rewrite remove_raise. rewrite decide_False; [done|].
      by intros [_ [? _]%Forall_cons].
Qed.

(** X25.  The second cell succeeds exactly when the ids listed as impossible
    are pairwise distinct and are all keys of the dict; it then counts the
    listed ids and leaves the other tasks in their order. An id that is
    listed twice or is no key raises a KeyError. *)
Theorem remove_impossible_spec impossible_tasks_json task_dict :
  NoDup (Tasks.keys task_dict) →
  let ids := concat (snd <$> impossible_tasks_json) in
  Tasks.remove_impossible impossible_tasks_json task_dict
  = if decide (NoDup ids ∧ Forall (λ k, k ∈ Tasks.keys task_dict) ids)
    then Tasks.Ok (length ids,
                   List.filter (λ kv, bool_decide (kv.1 ∉ ids)) task_dict)
    else Tasks.Raise Tasks.KeyError.
Proof.
  intros Hnd ids. unfold Tasks.remove_impossible.
  rewrite (fold_left_nested Tasks.remove_step snd). fold ids.
  by rewrite remove_loop.
Qed.

Lemma replace_raise e items :
  fold_left Tasks.replace_step items (Tasks.Raise e) = Tasks.Raise e.
Proof. induction items as [|i items IH]; [done|]. apply IH. Qed.

Lemma get_keys k m t : Tasks.get k m = Tasks.Ok t → k ∈ Tasks.keys m.
Proof.
  intros H%get_Ok. apply list_elem_of_fmap. by exists (k, t).
Qed.

Lemma get_of_elem k t m : NoDup (Tasks.keys m) → (k, t) ∈ m → Tasks.get k m = Tasks.Ok t.
Proof.
  unfold Tasks.keys. induction m as [|[k0 t0] m IH]; cbn.
  - by intros _ ?%elem_of_nil.
  - intros [Hk0 Hnd]%NoDup_cons [[= -> ->]|Hin]%elem_of_cons.
    + by rewrite decide_True.
    + rewrite decide_False; [by apply IH|]. intros ->. apply Hk0.
      apply list_elem_of_fmap. by exists (k, t).
Qed.

Lemma replace_step_Ok n m k new n' m' :
  Tasks.replace_step (Tasks.Ok (n, m)) (k, new) = Tasks.Ok (n', m') →
  ∃ old q, Tasks.get k m = Tasks.Ok old
           ∧ new !! "original_ques" = Some q ∧ old !! "ques" = Some q
           ∧ n' = S n ∧ m' = Tasks.set k new m.
Proof.
  cbn [Tasks.replace_step Tasks.bind]. unfold Tasks.field.
  destruct (new !! "original_ques") as [q1|] eqn:H1; [|done]. cbn [Tasks.bind].
  destruct (Tasks.get k m) as [old|]; [|done]. cbn [Tasks.bind].
  destruct (old !! "ques") as [q2|] eqn:H2; [|done]. cbn [Tasks.bind].
  destruct (decide (q1 ≠ q2)) as [Hq|Hq]; [done|]. intros [= <- <-].
  assert (q1 = q2) as <- by (destruct (decide (q1 = q2)); [done|by destruct Hq]).
  by exists old, q1.
Qed.

Lemma replace_loop items n m n' m' :
  NoDup (Tasks.keys m) →
  fold_left Tasks.replace_step items (Tasks.Ok (n, m)) = Tasks.Ok (n', m') →
  n' = n + length items
  ∧ Tasks.keys m' = Tasks.keys m
  ∧ (∀ k, k ∈ fst <$> items → k ∈ Tasks.keys m)
  ∧ (∀ k, k ∉ fst <$> items → Tasks.get k m' = Tasks.get k m)
  ∧ (∀ k t, Tasks.get k m' = Tasks.Ok t → Tasks.get k m = Tasks.Ok t ∨ (k, t) ∈ items)
  ∧ (NoDup (fst <$> items) →
     ∀ k new, (k, new) ∈ items →
       Tasks.get k m' = Tasks.Ok new
       ∧ ∃ old q, Tasks.get k m = Tasks.Ok old
                  ∧ new !! "original_ques" = Some q ∧ old !! "ques" = Some q).
Proof.
  revert n m. induction items as [|[k new] items IH]; intros n m Hnd.
  - cbn. intros [= <- <-]. split; [lia|]. split; [done|]. split.
    { by intros k ?%elem_of_nil. }
    split; [done|]. split; [by left|]. by intros _ k new ?%elem_of_nil.
  - cbn [fold_left].
    destruct (Tasks.replace_step (Tasks.Ok (n, m)) (k, new)) as [[n1 m1]|e] eqn:Hstep.
    2:{ by rewrite replace_raise. }
    apply replace_step_Ok in Hstep as (old & q & Hold & Hq1 & Hq2 & -> & ->).
    pose proof (get_keys _ _ _ Hold) as Hk.
    assert (Tasks.keys (Tasks.set k new m) = Tasks.keys m) as Hkeys.
    { rewrite keys_set. by rewrite decide_True. }
    intros Hfold. apply IH in Hfold as (Hn & Hk' & Hin & Hout & Hfrom & Hexact).
    2:{ by rewrite Hkeys. }
    split; [simpl; lia|]. split; [congruence|]. split; [|split; [|split]].
    + intros k' [->|Hk'']%elem_of_cons; [done|]. rewrite <- Hkeys. by apply Hin.
    + intros k' [Hne Hk'']%not_elem_of_cons. rewrite Hout by done.
      rewrite get_set. by rewrite decide_False.
    + intros k' t Ht. apply Hfrom in Ht as [Ht|Ht]; [|right; by right].
      rewrite get_set in Ht. case_decide; [|by left].
      simplify_eq. right. by left.
    + cbn [fmap list_fmap fst]. intros [Hk0 Hnd']%NoDup_cons k' new'
        [[= -> ->]|Hin']%elem_of_cons.
      * split; [|by eauto]. rewrite Hout by done. rewrite get_set.
        by rewrite decide_True.
      * destruct (Hexact Hnd' k' new' Hin') as (Hget & old' & q' & Hold' & ? & ?).
        split; [done|]. exists old', q'. split; [|done].
        rewrite get_set in Hold'. rewrite decide_False in Hold'; [done|].
        intros ->. apply Hk0. apply list_elem_of_fmap. by exists (k, new').
Qed.

(** X26.  When the third cell succeeds it has counted the listed
    modifications; the dict has the keys it had, in their order; a task that
    is not listed is left as it is, and every task of the dict is a task it
    held before or a listed modification. With pairwise distinct ids every
    listed modification is in the dict under its id, and its [original_ques]
    is the [ques] of the task it replaces. *)
Theorem replace_modified_spec modified_tasks_json task_dict n task_dict' :
  NoDup (Tasks.keys task_dict) →
  Tasks.replace_modified modified_tasks_json task_dict = Tasks.Ok (n, task_dict') →
  let items := concat (snd <$> modified_tasks_json) in
  n = length items
  ∧ Tasks.keys task_dict' = Tasks.keys task_dict
  ∧ (∀ k, k ∈ fst <$> items → k ∈ Tasks.keys task_dict)
  ∧ (∀ k, k ∉ fst <$> items → Tasks.get k task_dict' = Tasks.get k task_dict)
  ∧ (∀ k t, Tasks.get k task_dict' = Tasks.Ok t →
       Tasks.get k task_dict = Tasks.Ok t ∨ (k, t) ∈ items)
  ∧ (NoDup (fst <$> items) →
     ∀ k new, (k, new) ∈ items →
       Tasks.get k task_dict' = Tasks.Ok new
       ∧ ∃ old q, Tasks.get k task_dict = Tasks.Ok old
                  ∧ new !! "original_ques" = Some q ∧ old !! "ques" = Some q).
Proof.
  intros Hnd Hr items. unfold Tasks.replace_modified in Hr.
  rewrite (fold_left_nested Tasks.replace_step snd) in Hr. fold items in Hr.
  by apply replace_loop in Hr.
Qed.


Lemma remove_loop_length ids n m n' m' :
  NoDup (Tasks.keys m) →
  fold_left Tasks.remove_step ids (Tasks.Ok (n, m)) = Tasks.Ok (n', m') →
  n' = n + length ids ∧ length m' + length ids = length m
  ∧ NoDup (Tasks.keys m') ∧ ∀ kv, kv ∈ m' → kv ∈ m.
Proof.
  revert n m. induction ids as [|k ids IH]; intros n m Hnd.
  - cbn. intros [= <- <-]. split; [lia|]. split; [lia|]. done.
  - cbn [fold_left Tasks.remove_step Tasks.bind]. rewrite del_spec by done.
    destruct (decide (k ∈ Tasks.keys m)) as [Hk|Hk]; cbn [Tasks.bind].
    2:{ by rewrite remove_raise. }
    intros Hfold. apply IH in Hfold as (Hn & Hlen & Hnd' & Hsub).
    2:{ rewrite keys_filter. by apply NoDup_filter'. }
    assert (S (length (List.filter (λ kv : string * Tasks.task,
                                      bool_decide (kv.1 ≠ k)) m)) = length m) as Hdel.
    { clear -Hnd Hk. unfold Tasks.keys in *.
      induction m as [|[k0 t0] m IHm]; [by apply elem_of_nil in Hk|].
      cbn in *. apply NoDup_cons in Hnd as [Hk0 Hnd].
      destruct (decide (k0 = k)) as [->|Hne].
      - rewrite bool_decide_eq_false_2 by (by intros ?). f_equal.
        f_equal. apply filter_all. intros [k1 t1] Hin. apply bool_decide_eq_true.
        cbn. intros ->. apply Hk0, list_elem_of_fmap. exists (k, t1).
        split; [done|]. by apply list_elem_of_In.
      - rewrite (bool_decide_eq_true_2 (k0 ≠ k)) by done. cbn. f_equal.
        apply IHm; [done|]. apply elem_of_cons in Hk as [?|?]; [congruence|done]. }
    split; [simpl; lia|]. split; [simpl; lia|]. split; [done|].
    intros kv Hkv%Hsub. apply list_elem_of_In, filter_In in Hkv as [Hkv _].
    by apply list_elem_of_In.
Qed.

(** X28.  What a run that reaches its end prints and writes: the number of
    tasks read, the number of ids listed as impossible, the number of tasks
    that remain, which with the number removed makes the number of distinct
    ids, and the number of listed modifications; as many tasks are written
    as remain, and each of them is a task that was read or a listed
    modification. *)
Theorem clean_report tasks impossible_tasks_json modified_tasks_json rep :
  Tasks.clean tasks impossible_tasks_json modified_tasks_json = Tasks.Ok rep →
  Tasks.loaded rep = length tasks
  ∧ Tasks.removed rep = length (concat (snd <$> impossible_tasks_json))
  ∧ Tasks.modified rep = length (concat (snd <$> modified_tasks_json))
  ∧ Tasks.remaining rep + Tasks.removed rep
    = length (remove_dups (omap (λ t : Tasks.task, t !! "id") tasks))
  ∧ length (Tasks.filtered_tasks rep) = Tasks.remaining rep
  ∧ ∀ t, t ∈ Tasks.filtered_tasks rep →
         t ∈ tasks ∨ t ∈ snd <$> concat (snd <$> modified_tasks_json).
Proof.
  unfold Tasks.clean.
  destruct (Tasks.index_tasks tasks) as [d0|e] eqn:H0; [|done]. cbn [Tasks.bind].
  destruct (Tasks.remove_impossible _ d0) as [[n1 d1]|e] eqn:H1; [|done].
  cbn [Tasks.bind].
  destruct (Tasks.replace_modified _ d1) as [[n2 d2]|e] eqn:H2; [|done].
  cbn [Tasks.bind]. intros [= <-]. cbn.
  (* the first cell *)
  assert (Forall (λ t : Tasks.task, is_Some (t !! "id")) tasks) as Hall.
  { apply Forall_forall. intros t Ht. destruct (t !! "id") eqn:Hid; [by eexists|].
    rewrite index_missing in H0 by eauto. done. }
  assert (Forall2 (λ (t : Tasks.task) k, t !! "id" = Some k) tasks
            (omap (λ t : Tasks.task, t !! "id") tasks)) as Hids.
  { clear -Hall. induction Hall as [|t tasks [k Hk] _ IH]; cbn; [constructor|].
    rewrite Hk. by constructor. }
  destruct (index_loop tasks _ [] Hids NoDup_nil_2)
    as (m & Hm & Hnd0 & Hkeys0 & _ & _ & _ & Hvalues0).
  pose proof (eq_trans (eq_sym Hm) H0) as Heq. injection Heq as ->.
  (* the second cell *)
  unfold Tasks.remove_impossible in H1.
  rewrite (fold_left_nested Tasks.remove_step snd) in H1.
  apply remove_loop_length in H1 as (-> & Hlen1 & Hnd1 & Hsub1); [|done].
  (* the third cell *)
  unfold Tasks.replace_modified in H2.
  rewrite (fold_left_nested Tasks.replace_step snd) in H2.
  apply replace_loop in H2 as (-> & Hkeys2 & _ & _ & Hfrom2 & _); [|done].
  split; [done|]. split; [done|]. split; [done|]. split; [|split].
  - cbn. rewrite Hlen1. rewrite <- (length_fmap fst d0).
    apply Permutation_length, NoDup_Permutation; [done|apply NoDup_remove_dups|].
    intros k. fold (Tasks.keys d0). rewrite Hkeys0, elem_of_remove_dups.
    split; [intros [?%elem_of_nil|?]; done|by right].
  - rewrite length_fmap, <- (length_fmap fst d2), <- (length_fmap fst d1).
    by fold (Tasks.keys d2) (Tasks.keys d1); rewrite Hkeys2.
  - intros t ([k t'] & -> & Hin)%list_elem_of_fmap. cbn.
    apply get_of_elem in Hin; [|by rewrite Hkeys2].
    apply Hfrom2 in Hin as [Hin|Hin].
    + left. apply get_Ok, Hsub1, Hvalues0 in Hin as [?%elem_of_nil|?]; done.
    + right. apply list_elem_of_fmap. by exists (k, t').
Qed.

(** X29.  Without impossible and without modified tasks a run writes the
    tasks it has read, in their order, provided that every task has an id
    and that the ids are pairwise distinct. *)
Theorem clean_identity tasks ids :
  Forall2 (λ (t : Tasks.task) k, t !! "id" = Some k) tasks ids →
  NoDup ids →
  Tasks.clean tasks [] []
  = Tasks.Ok {| Tasks.loaded := length tasks; Tasks.removed := 0;
                Tasks.remaining := length tasks; Tasks.modified := 0;
                Tasks.filtered_tasks := tasks |}.
Proof.
  intros Hids Hnd.
  destruct (index_loop tasks ids [] Hids NoDup_nil_2)
    as (m & Hm & _ & _ & _ & _ & Hdistinct & _).
  rewrite (Hdistinct Hnd) in Hm. cbn [app] in Hm.
  unfold Tasks.clean.
  replace (Tasks.index_tasks tasks) with (Tasks.Ok (zip ids tasks)). cbn.
  pose proof (Forall2_length _ _ _ Hids) as Hlen.
  f_equal. f_equal.
  - rewrite length_zip_with. lia.
  - apply snd_zip. lia.
Qed.

Lemma index_tasks_spec_witness :
  Tasks.index_tasks example_tasks = Tasks.Ok (zip example_ids example_tasks).
Proof.
  destruct (index_tasks_spec example_tasks) as [_ H].
  destruct (H example_ids) as (m & Hm & _ & _ & _ & Hd).
  - repeat constructor.
  - rewrite Hm. f_equal. apply Hd. apply (bool_decide_unpack _). vm_compute. exact I.
Defined.

Lemma remove_impossible_spec_witness :
  Tasks.remove_impossible example_impossible (zip example_ids example_tasks)
  = Tasks.Ok (1, [("Amazon--0", example_task "Amazon--0" "Find a laptop");
                  ("Apple--0", example_task "Apple--0" "Compare phones")]).
Proof.
  rewrite (remove_impossible_spec example_impossible (zip example_ids example_tasks)).
  - vm_compute. reflexivity.
  - apply (bool_decide_unpack _). vm_compute. exact I.
Defined.

Lemma replace_modified_spec_witness :
  Tasks.keys [("Amazon--0", example_task "Amazon--0" "Find a laptop");
              ("Apple--0", example_modification)]
  = Tasks.keys [("Amazon--0", example_task "Amazon--0" "Find a laptop");
                ("Apple--0", example_task "Apple--0" "Compare phones")].
Proof.
  eapply (replace_modified_spec example_modified _ 1).
  - apply (bool_decide_unpack _). vm_compute. exact I.
  - vm_compute. reflexivity.
Defined.


Lemma clean_report_witness :
  ∃ rep, Tasks.clean example_tasks example_impossible example_modified = Tasks.Ok rep
         ∧ length (Tasks.filtered_tasks rep) = Tasks.remaining rep.
Proof.
  eexists. split; [vm_compute; reflexivity|].
  eapply (clean_report example_tasks example_impossible example_modified).
  vm_compute. reflexivity.
Defined.

Lemma clean_identity_witness :
  Tasks.clean example_tasks [] []
  = Tasks.Ok {| Tasks.loaded := 3; Tasks.removed := 0; Tasks.remaining := 3;
                Tasks.modified := 0; Tasks.filtered_tasks := example_tasks |}.
Proof.
  apply (clean_identity example_tasks example_ids).
  - repeat constructor.
  - apply (bool_decide_unpack _). vm_compute. exact I.
Defined.
